(** * osscli: the transfer / removal core of the object-storage client

    A shallow embedding of [cmd/common-methods.go] (encryption key parsing,
    directory detection, the copy/put pipeline) and of the [rm] command
    (single and recursive removal), together with the properties the
    design document states about them.

    Go strings are byte strings and are modelled by [string] (one [ascii]
    per byte); Go maps [map[string]string] are [gmap string string];
    backend calls are recorded as events in a trace. *)

From Stdlib Require Import ZArith NArith Ascii String List Lia Bool.
From stdpp Require Import base option list gmap strings fin_maps.

Local Open Scope string_scope.
Local Open Scope list_scope.

(** ** Errors *)

(** The Go errors that the code distinguishes.  [probe.Error] wraps a Go
    error with a call trace used for logging only; [Trace] therefore is the
    identity here and [ToGoError] the underlying cause. *)
Inductive GoError :=
| PathInsufficientPermission (path : string)
| ErrorString (msg : string).

Inductive result (A : Type) :=
| Ok (a : A)
| Fail (e : GoError).
Arguments Ok {A} a.
Arguments Fail {A} e.

(** The type switch [switch pErr.ToGoError().(type) { case PathInsufficientPermission: ... }]. *)
Definition isPathInsufficientPermission (e : GoError) : bool :=
  match e with
  | PathInsufficientPermission _ => true
  | ErrorString _ => false
  end.

(** ** The Go [strings] package, as far as the code uses it *)

Module Strings.

Fixpoint HasPrefix (s p : string) : bool :=
  match p, s with
  | EmptyString, _ => true
  | String a p', String b s' => Ascii.eqb a b && HasPrefix s' p'
  | String _ _, EmptyString => false
  end.

(** [strings.HasSuffix(s, suffix)]:
    [len(s) >= len(suffix) && s[len(s)-len(suffix):] == suffix]. *)
Definition HasSuffix (s suffix : string) : bool :=
  (String.length suffix <=? String.length s)%nat &&
  String.eqb (substring (String.length s - String.length suffix)
                        (String.length suffix) s) suffix.

(** The first occurrence of the one-byte separator: the text before it and
    the text after it. *)
Fixpoint Cut (sep : ascii) (s : string) : option (string * string) :=
  match s with
  | EmptyString => None
  | String c r =>
      if Ascii.eqb c sep then Some (EmptyString, r)
      else match Cut sep r with
           | Some (a, b) => Some (String c a, b)
           | None => None
           end
  end.

(** [strings.SplitN(s, sep, 2)] for a one-byte [sep]. *)
Definition SplitN2 (s : string) (sep : ascii) : list string :=
  match Cut sep s with
  | Some (a, b) => [a; b]
  | None => [s]
  end.

(** [strings.Split(s, sep)] for a one-byte [sep]. *)
Fixpoint Split (s : string) (sep : ascii) : list string :=
  match s with
  | EmptyString => [EmptyString]
  | String c r =>
      if Ascii.eqb c sep then EmptyString :: Split r sep
      else match Split r sep with
           | f :: fs => String c f :: fs
           | [] => [String c EmptyString]
           end
  end.

(** [strings.ToUpper] on ASCII letters. *)
Definition upperByte (c : ascii) : ascii :=
  let n := N_of_ascii c in
  if ((97 <=? n) && (n <=? 122))%N then ascii_of_N (n - 32) else c.

Definition lowerByte (c : ascii) : ascii :=
  let n := N_of_ascii c in
  if ((65 <=? n) && (n <=? 90))%N then ascii_of_N (n + 32) else c.

End Strings.

(** ** [encoding/base64], [StdEncoding.DecodeString] *)

Module Base64.

(** The decode map of the standard alphabet. *)
Definition decodeMap (c : ascii) : option N :=
  let n := N_of_ascii c in
  if ((65 <=? n) && (n <=? 90))%N then Some (n - 65)%N
  else if ((97 <=? n) && (n <=? 122))%N then Some (n - 71)%N
  else if ((48 <=? n) && (n <=? 57))%N then Some (n + 4)%N
  else if (n =? 43)%N then Some 62%N
  else if (n =? 47)%N then Some 63%N
  else None.

Definition isPad (c : ascii) : bool := (N_of_ascii c =? 61)%N.
Definition isNewline (c : ascii) : bool :=
  ((N_of_ascii c =? 10) || (N_of_ascii c =? 13))%N.

Definition byte (v : N) : ascii := ascii_of_N (N.land v 255).

(** [val := dbuf[0]<<18 | dbuf[1]<<12 | dbuf[2]<<6 | dbuf[3]] *)
Definition quantum (a b c d : N) : N :=
  N.lor (N.lor (N.shiftl a 18) (N.shiftl b 12)) (N.lor (N.shiftl c 6) d).

(** The decoder on input from which CR and LF have been removed: full
    quanta of four characters, the last one possibly padded ([xx==] or
    [xxx=]); anything after the padding, a misplaced pad character, a
    character outside the alphabet or a short last quantum is corrupt
    input. *)
Fixpoint decodeQuanta (src : list ascii) : option (list ascii) :=
  match src with
  | [] => Some []
  | a :: b :: c :: d :: rest =>
      match decodeMap a, decodeMap b with
      | Some va, Some vb =>
          if isPad c then
            if isPad d && match rest with [] => true | _ => false end
            then Some [byte (N.shiftr (quantum va vb 0 0) 16)]
            else None
          else
            match decodeMap c with
            | Some vc =>
                if isPad d then
                  match rest with
                  | [] => Some [byte (N.shiftr (quantum va vb vc 0) 16);
                                byte (N.shiftr (quantum va vb vc 0) 8)]
                  | _ => None
                  end
                else
                  match decodeMap d with
                  | Some vd =>
                      match decodeQuanta rest with
                      | Some out =>
                          Some (byte (N.shiftr (quantum va vb vc vd) 16)
                                :: byte (N.shiftr (quantum va vb vc vd) 8)
                                :: byte (quantum va vb vc vd) :: out)
                      | None => None
                      end
                  | None => None
                  end
            | None => None
            end
      | _, _ => None
      end
  | _ => None
  end.

(** New line characters (CR and LF) are ignored by the decoder. *)
Definition stripNewlines (src : list ascii) : list ascii :=
  List.filter (fun c => negb (isNewline c)) src.

Definition DecodeString (s : string) : option string :=
  match decodeQuanta (stripNewlines (list_ascii_of_string s)) with
  | Some out => Some (string_of_list_ascii out)
  | None => None
  end.

End Base64.

(** ** Encryption keys: [parseKey] and [getDecodedKey] *)

Definition errKeyForm : GoError :=
  ErrorString "SSE-C prefix should be of the form prefix1=key1,... ".
Definition errKeyLength : GoError :=
  ErrorString "Encryption key should be 32 bytes plain text key or 44 bytes base64 encoded key".

Definition parseKey (sseKeys : string) : result string :=
  match Strings.SplitN2 sseKeys "=" with
  | [prefix; secretValue] =>
      if (String.length secretValue =? 32)%nat then Ok sseKeys
      else
        match Base64.DecodeString secretValue with
        | Some decodedString =>
            if (String.length decodedString =? 32)%nat
            then Ok (prefix +:+ "=" +:+ decodedString)
            else Fail errKeyLength
        | None => Fail errKeyLength
        end
  | _ => Fail errKeyForm
  end.

Fixpoint getDecodedKey_loop (i : nat) (keyString : string) (parts : list string)
  : result string :=
  match parts with
  | [] => Ok keyString
  | sse :: rest =>
      let keyString := if (0 <? i)%nat then keyString +:+ "," else keyString in
      match parseKey sse with
      | Fail e => Fail e
      | Ok sseString => getDecodedKey_loop (S i) (keyString +:+ sseString) rest
      end
  end.

Definition getDecodedKey (sseKeys : string) : result string :=
  getDecodedKey_loop 0 "" (Strings.Split sseKeys ",").

(** ** HTTP header names and values ([net/http], [httpguts]) *)

Module Header.

(** [isTokenTable]: the bytes allowed in a header field name. *)
Definition isTokenByte (c : ascii) : bool :=
  let n := N_of_ascii c in
  (((48 <=? n) && (n <=? 57)) || ((65 <=? n) && (n <=? 90))
   || ((97 <=? n) && (n <=? 122))
   || (n =? 33) || (n =? 35) || (n =? 36) || (n =? 37) || (n =? 38)
   || (n =? 39) || (n =? 42) || (n =? 43) || (n =? 45) || (n =? 46)
   || (n =? 94) || (n =? 95) || (n =? 96) || (n =? 124) || (n =? 126))%N.

Fixpoint allBytes (p : ascii -> bool) (s : string) : bool :=
  match s with
  | EmptyString => true
  | String c r => p c && allBytes p r
  end.

(** [httpguts.ValidHeaderFieldName] *)
Definition ValidHeaderFieldName (v : string) : bool :=
  negb (String.eqb v "") && allBytes isTokenByte v.

Definition isCTL (c : ascii) : bool :=
  let n := N_of_ascii c in ((n <? 32) || (n =? 127))%N.
Definition isLWS (c : ascii) : bool :=
  let n := N_of_ascii c in ((n =? 32) || (n =? 9))%N.

(** [httpguts.ValidHeaderFieldValue] *)
Definition ValidHeaderFieldValue (v : string) : bool :=
  allBytes (fun c => negb (isCTL c && negb (isLWS c))) v.

(** The rewriting loop of [canonicalMIMEHeaderKey]: upper case at the
    start and after each dash, lower case elsewhere. *)
Fixpoint canonicalize (upper : bool) (s : string) : string :=
  match s with
  | EmptyString => EmptyString
  | String c r =>
      let c' := if upper then Strings.upperByte c else Strings.lowerByte c in
      String c' (canonicalize (Ascii.eqb c' "-") r)
  end.

(** [http.CanonicalHeaderKey]: a key with a byte that is not a header
    field byte is returned unchanged. *)
Definition CanonicalHeaderKey (s : string) : string :=
  if allBytes isTokenByte s then canonicalize true s else s.

End Header.

(** ** Data model *)

(** Times and durations are counted in nanoseconds: a [time.Time] is its
    offset from the Unix epoch, a [time.Duration] an [int64]. *)
Definition zeroTime : Z := -62135596800 * 1000000000.
Definition IsZero (t : Z) : bool := (t =? zeroTime)%Z.

Definition maxDuration : Z := 2 ^ 63 - 1.
Definition minDuration : Z := - 2 ^ 63.

(** [t.Sub(u)] saturates at the ends of [int64]. *)
Definition Sub (t u : Z) : Z :=
  if (maxDuration <? t - u)%Z then maxDuration
  else if (t - u <? minDuration)%Z then minDuration
  else (t - u)%Z.

(** [os.FileMode]: bit 31 is [ModeDir]. *)
Definition ModeDir : Z := Z.shiftl 1 31.
Definition IsDir (m : Z) : bool := negb (Z.land m ModeDir =? 0)%Z.

Record ClientURL := {
  Path : string;
  Separator : ascii;
  URLString : string          (* the rendering given by [String()] *)
}.

Record ClientContent := {
  URL : ClientURL;
  Time : Z;
  Size : Z;
  Type_ : Z;                  (* the field [Type] *)
  StorageClass : string;
  Metadata : gmap string string;
  UserMetadata : gmap string string;
  ETag : string;
  Expires : Z;
  RetentionEnabled : bool;
  RetentionMode : string;
  RetentionDuration : string;
  BypassGovernance : bool;
  LegalHoldEnabled : bool;
  LegalHold : string;
  Err : option GoError
}.

Inductive DirOpt := DirNone | DirFirst | DirLast.

(** [encrypt.ServerSide]: the key material if any. *)
Definition ServerSide := option string.
Definition prefixSSEPair : Type := string * ServerSide.

Record URLs := {
  SourceAlias : string;
  SourceContent : ClientContent;
  TargetAlias : string;
  TargetContent : ClientContent;
  TotalCount : Z;
  TotalSize : Z;
  MD5 : bool;
  DisableMultipart : bool;
  Error : option GoError
}.

Definition WithError (m : URLs) (err : option GoError) : URLs :=
  {| SourceAlias := SourceAlias m; SourceContent := SourceContent m;
     TargetAlias := TargetAlias m; TargetContent := TargetContent m;
     TotalCount := TotalCount m; TotalSize := TotalSize m;
     MD5 := MD5 m; DisableMultipart := DisableMultipart m;
     Error := err |}.

(** What a source stream is, as far as [getSourceStream], [isReadAt] and
    [probeContentType] look at it. *)
Record Reader := {
  minioObject : option (result (gmap string (list string)));
      (* a minio object: the header map of [mo.Stat()] *)
  osFileName : option string;     (* an os file: [v.Name()] *)
  seeker : bool;                  (* [reader.(io.Seeker)] *)
  head512 : string;               (* what [io.ReadFull(reader, buf[:])] reads *)
  seekErr : option GoError        (* [s.Seek(0, io.SeekStart)] *)
}.

(** The removal worker behind [Client.Remove]: the failures it puts on the
    error channel once it has taken a descriptor (given the descriptors it
    took before), and those it puts there once the content channel is
    closed.  Success is silent.  The error channel is unbuffered, so the
    worker takes the next descriptor only when its failures were received. *)
Record RemoveWorker := {
  emit : list ClientContent -> ClientContent -> list GoError;
  flush : list ClientContent -> list GoError
}.

(** The [Client] interface, restricted to the methods the modelled
    functions call. *)
Record Client := {
  Stat : bool -> bool -> ServerSide -> result ClientContent;
  List : bool -> bool -> bool -> DirOpt -> list ClientContent;
  Copy : string -> Z -> ServerSide -> ServerSide -> gmap string string -> bool
         -> option GoError;
  Get : ServerSide -> result Reader;
  Put : Reader -> bool -> Z -> gmap string string -> ServerSide -> bool -> bool
        -> Z * option GoError;
  PutObjectRetention : string -> Z -> bool -> option GoError;
  Remove : bool -> bool -> bool -> RemoveWorker;
  GetURL : ClientURL
}.

(** The parts of the program and of its libraries that the modelled
    functions depend on and that are declared elsewhere. *)
Record Env := {
  (* constants *)
  filepathSeparator : ascii;
  AmzObjectLockMode : string;
  AmzObjectLockRetainUntilDate : string;
  AmzObjectLockLegalHold : string;
  serverEncryptionKeyPrefix : string;
  timeSentinel : Z;
  globalErrorExitStatus : Z;
  errInvalidArgument : GoError;
  errDummy : GoError;
  (* the clock, [time.Now()] *)
  now : Z;
  (* alias resolution and client construction *)
  expandAlias : string -> result (string * string * option string);
  mustExpandAlias : string -> string * string;
  fsNew : string -> result Client;
  S3New : string -> string -> result Client;
  newClientURL : string -> ClientURL;
  url2Stat : string -> bool -> gmap string (list prefixSSEPair)
             -> result ClientContent;
  statURL : string -> bool -> bool -> gmap string (list prefixSSEPair)
            -> result (list ClientContent);
  getSSE : string -> list prefixSSEPair -> ServerSide;
  (* retention helpers *)
  parseRetentionValidity : string -> string -> result (Z * string);
  getRetainUntilDate : Z -> string -> result string;
  (* libraries *)
  filepathJoin : string -> string -> string;
  timeParseRFC3339 : string -> option Z;
  filetypeMatch : string -> result string;
  (* the order in which a [for k, v := range m] at a given place of the
     program visits the entries of [m] *)
  rangeMap : nat -> gmap string string -> list (string * string)
}.

(** Go visits every entry of a map exactly once, in an unspecified order. *)
Definition RangeOK (E : Env) : Prop :=
  forall site (m : gmap string string), rangeMap E site m ≡ₚ map_to_list m.

(** ** Paths *)

Fixpoint replaceByte (old new : ascii) (s : string) : string :=
  match s with
  | EmptyString => EmptyString
  | String c r =>
      String (if Ascii.eqb c old then new else c) (replaceByte old new r)
  end.

(** [filepath.ToSlash]: every separator becomes a slash. *)
Definition ToSlash (E : Env) (path : string) : string :=
  replaceByte (filepathSeparator E) "/" path.

(** ** Directory detection: [isAliasURLDir] *)

Definition isAliasURLDir (E : Env) (aliasURL : string)
    (keys : gmap string (list prefixSSEPair)) : bool :=
  match url2Stat E aliasURL false keys with
  | Ok targetContent => IsDir (Type_ targetContent)
  | Fail _ =>
      let '(_, expandedURL) := mustExpandAlias E aliasURL in
      if String.eqb expandedURL aliasURL then
        Strings.HasSuffix aliasURL (String (filepathSeparator E) EmptyString)
      else
        let pathURL := ToSlash E aliasURL in
        let fields := Strings.Split pathURL "/" in
        match length fields with
        | 0%nat | 1%nat => false
        | 2%nat => true
        | _ => Strings.HasSuffix pathURL "/"
        end
  end.

(** ** The copy / put pipeline *)

(** Backend calls, in the order they are issued. *)
Inductive Call :=
| CallStat (alias urlStr : string) (isIncomplete isPreserve : bool) (sse : ServerSide)
| CallGet (alias urlStr : string) (sse : ServerSide)
| CallPut (alias urlStr : string) (limited : bool) (size : Z)
    (metadata : gmap string string) (sse : ServerSide) (md5 disableMultipart : bool)
| CallCopy (alias urlStr source : string) (size : Z) (srcSSE tgtSSE : ServerSide)
    (metadata : gmap string string) (disableMultipart : bool)
| CallPutObjectRetention (alias urlStr mode : string) (retainUntilDate : Z)
    (bypassGovernance : bool).

(** A computation issues backend calls and returns a value or an error. *)
Definition W (A : Type) : Type := list Call * result A.

Definition wret {A} (a : A) : W A := ([], Ok a).
Definition wlift {A} (r : result A) : W A := ([], r).
Definition wcall {A} (c : Call) (r : result A) : W A := ([c], r).
Definition wbind {A B} (m : W A) (f : A -> W B) : W B :=
  match m with
  | (t, Ok a) => let '(t', r) := f a in (t ++ t', r)
  | (t, Fail e) => (t, Fail e)
  end.

Notation "x <~ m ;; k" := (wbind m (fun x => k))
  (at level 100, m at next level, right associativity,
   format "'[v' x  <~  m  ;; '/' k ']'").

Definition errOf (e : option GoError) : result unit :=
  match e with
  | None => Ok tt
  | Some e => Fail e
  end.

Definition newClientFromAlias (E : Env) (alias urlStr : string) : result Client :=
  match expandAlias E alias with
  | Fail err => Fail err
  | Ok (_, _, hostCfg) =>
      match hostCfg with
      | None => fsNew E urlStr
      | Some cfg => S3New E urlStr cfg
      end
  end.

(** [for k, v := range src { metadata[http.CanonicalHeaderKey(k)] = v }] *)
Definition mergeCanonical (E : Env) (site : nat) (src metadata : gmap string string)
  : gmap string string :=
  foldl (fun md kv => <[Header.CanonicalHeaderKey kv.1 := kv.2]> md)
        metadata (rangeMap E site src).

(** [for k, v := range src { if valid(k) && valid(v) { metadata[k] = v } }] *)
Definition copyValid (E : Env) (site : nat) (src metadata : gmap string string)
  : gmap string string :=
  foldl (fun md kv =>
           if Header.ValidHeaderFieldName kv.1 && Header.ValidHeaderFieldValue kv.2
           then <[kv.1 := kv.2]> md else md)
        metadata (rangeMap E site src).

Definition filterMetadata (E : Env) (metadata : gmap string string)
  : gmap string string :=
  let newMetadata := copyValid E 10 metadata ∅ in
  foldl (fun md kv =>
           if Strings.HasPrefix (Header.CanonicalHeaderKey kv.1)
                (Header.CanonicalHeaderKey (serverEncryptionKeyPrefix E))
           then delete kv.1 md else md)
        newMetadata (rangeMap E 11 metadata).

(** [h.Get(k)] on an [http.Header]. *)
Definition HeaderGet (h : gmap string (list string)) (k : string) : string :=
  match h !! Header.CanonicalHeaderKey k with
  | Some (v :: _) => v
  | _ => ""
  end.

Definition probeContentType (E : Env) (reader : Reader) : string * option GoError :=
  let ctype := "application/octet-stream" in
  if seeker reader then
    if (String.length (head512 reader) <=? 0)%nat then (ctype, None)
    else
      match filetypeMatch E (head512 reader) with
      | Fail e => (ctype, Some e)
      | Ok mime =>
          match seekErr reader with
          | Some e => (ctype, Some e)
          | None => (if String.eqb mime "" then ctype else mime, None)
          end
      end
  else (ctype, None).

Definition isReadAt (reader : Reader) : bool :=
  match osFileName reader with
  | Some name =>
      negb (String.eqb "/dev/stdin" name || String.eqb "/dev/stdout" name
            || String.eqb "/dev/stderr" name)
  | None => false
  end.

Definition getSourceStream (E : Env) (alias urlStr : string) (fetchStat : bool)
    (sse : ServerSide) (preserve : bool) : W (Reader * gmap string string) :=
  sourceClnt <~ wlift (newClientFromAlias E alias urlStr) ;;
  reader <~ wcall (CallGet alias urlStr sse) (Get sourceClnt sse) ;;
  if fetchStat then
    stMetadata <~
      match minioObject reader with
      | Some (Fail e) => wlift (Fail e)
      | Some (Ok oinfoMetadata) =>
          wret (map_imap (fun k _ => Some (HeaderGet oinfoMetadata k)) oinfoMetadata)
      | None =>
          st <~ wcall (CallStat alias urlStr false preserve sse)
                      (Stat sourceClnt false preserve sse) ;;
          wret (Metadata st)
      end ;;
    let metadata := copyValid E 20 stMetadata ∅ in
    if match metadata !! "Content-Type" with
       | Some ctype => String.eqb ctype "application/octet-stream"
       | None => false
       end && negb (bool_decide (is_Some (minioObject reader)))
    then
      match probeContentType E reader with
      | (_, Some err) => wlift (Fail err)
      | (ctype, None) => wret (reader, <["Content-Type" := ctype]> metadata)
      end
    else wret (reader, metadata)
  else wret (reader, ∅).

Definition putTargetRetention (E : Env) (alias urlStr : string)
    (metadata : gmap string string) : W unit :=
  targetClnt <~ wlift (newClientFromAlias E alias urlStr) ;;
  let lockMode := default "" (metadata !! AmzObjectLockMode E) in
  let retainUntilDate :=
    match metadata !! AmzObjectLockRetainUntilDate E with
    | Some retainUntilDateStr =>
        default (timeSentinel E) (timeParseRFC3339 E retainUntilDateStr)
    | None => timeSentinel E
    end in
  wcall (CallPutObjectRetention alias urlStr lockMode retainUntilDate false)
        (errOf (PutObjectRetention targetClnt lockMode retainUntilDate false)).

Definition putTargetStream (E : Env) (alias urlStr mode until legalHold : string)
    (reader : Reader) (limited : bool) (size : Z) (metadata : gmap string string)
    (sse : ServerSide) (md5 disableMultipart : bool) : W Z :=
  targetClnt <~ wlift (newClientFromAlias E alias urlStr) ;;
  let metadata :=
    if String.eqb mode "" then metadata else <[AmzObjectLockMode E := mode]> metadata in
  let metadata :=
    if String.eqb until "" then metadata
    else <[AmzObjectLockRetainUntilDate E := until]> metadata in
  let metadata :=
    if String.eqb legalHold "" then metadata
    else <[AmzObjectLockLegalHold E := legalHold]> metadata in
  let '(n, err) := Put targetClnt reader limited size metadata sse md5 disableMultipart in
  wcall (CallPut alias urlStr limited size metadata sse md5 disableMultipart)
        (match err with Some e => Fail e | None => Ok n end).

Definition copySourceToTargetURL (E : Env) (alias urlStr source mode until legalHold : string)
    (size : Z) (srcSSE tgtSSE : ServerSide) (metadata : gmap string string)
    (disableMultipart : bool) : W unit :=
  targetClnt <~ wlift (newClientFromAlias E alias urlStr) ;;
  let metadata := <[AmzObjectLockMode E := mode]> metadata in
  let metadata := <[AmzObjectLockRetainUntilDate E := until]> metadata in
  let metadata := <[AmzObjectLockLegalHold E := legalHold]> metadata in
  wcall (CallCopy alias urlStr source size srcSSE tgtSSE metadata disableMultipart)
        (errOf (Copy targetClnt source size srcSSE tgtSSE metadata disableMultipart)).

Definition getAllMetadata (E : Env) (sourceAlias sourceURLStr : string)
    (srcSSE : ServerSide) (urls : URLs) (preserve : bool) : W (gmap string string) :=
  sourceClnt <~ wlift (newClientFromAlias E sourceAlias sourceURLStr) ;;
  st <~ wcall (CallStat sourceAlias sourceURLStr false preserve srcSSE)
              (Stat sourceClnt false preserve srcSSE) ;;
  let metadata := mergeCanonical E 30 (Metadata st) ∅ in
  let metadata := mergeCanonical E 31 (UserMetadata (TargetContent urls)) metadata in
  wret (filterMetadata E metadata).

Fixpoint ToUpper (s : string) : string :=
  match s with
  | EmptyString => EmptyString
  | String c r => String (Strings.upperByte c) (ToUpper r)
  end.

(** [minio.LegalHoldEnabled] and [minio.LegalHoldDisabled]. *)
Definition LegalHoldStatusEnabled : string := "ON".
Definition LegalHoldStatusDisabled : string := "OFF".

(** The retention overrides of the target ([mode] and [until]), when the
    target asks for them. *)
Definition retentionOverrides (E : Env) (urls : URLs) : W (string * string) :=
  if RetentionEnabled (TargetContent urls) then
    let m := ToUpper (RetentionMode (TargetContent urls)) in
    validity <~ wlift (parseRetentionValidity E
                         (RetentionDuration (TargetContent urls)) m) ;;
    until <~ wlift (getRetainUntilDate E validity.1 validity.2) ;;
    wret (RetentionMode (TargetContent urls), until)
  else wret ("", "").

(** The legal hold override of the target, when the target asks for it. *)
Definition legalHoldOverride (E : Env) (urls : URLs) : W string :=
  if LegalHoldEnabled (TargetContent urls) then
    if String.eqb (LegalHold (TargetContent urls)) LegalHoldStatusDisabled
       || String.eqb (LegalHold (TargetContent urls)) LegalHoldStatusEnabled
    then wret (LegalHold (TargetContent urls))
    else wlift (Fail (errInvalidArgument E))
  else wret "".

(** The source metadata given by the caller: the user-supplied map first,
    the stored map over it. *)
Definition sourceLayers (E : Env) (urls : URLs) : gmap string string :=
  let metadata := mergeCanonical E 0 (UserMetadata (SourceContent urls)) ∅ in
  mergeCanonical E 1 (Metadata (SourceContent urls)) metadata.

(** "If no metadata populated already by the caller just do a Stat() to
    obtain the metadata." *)
Definition metadataOrStat (E : Env) (urls : URLs) (srcSSE : ServerSide)
    (preserve : bool) (metadata : gmap string string) : W (gmap string string) :=
  if (size metadata =? 0)%nat
  then getAllMetadata E (SourceAlias urls) (URLString (URL (SourceContent urls)))
         srcSSE urls preserve
  else wret metadata.

(** The body of [uploadSourceToTargetURL]; a failure is what the function
    hands to [urls.WithError]. *)
Definition uploadSourceToTargetURL_body (E : Env) (urls : URLs)
    (encKeyDB : gmap string (list prefixSSEPair)) (preserve : bool) : W unit :=
  let sourceAlias := SourceAlias urls in
  let sourceURL := URL (SourceContent urls) in
  let targetAlias := TargetAlias urls in
  let targetURL := URL (TargetContent urls) in
  let length := Size (SourceContent urls) in
  let sourcePath := ToSlash E (filepathJoin E sourceAlias (Path sourceURL)) in
  let targetPath := ToSlash E (filepathJoin E targetAlias (Path targetURL)) in
  let srcSSE := getSSE E sourcePath (default [] (encKeyDB !! sourceAlias)) in
  let tgtSSE := getSSE E targetPath (default [] (encKeyDB !! targetAlias)) in
  retention <~ retentionOverrides E urls ;;
  let mode := retention.1 in
  let until := retention.2 in
  legalHold <~ legalHoldOverride E urls ;;
  let metadata := sourceLayers E urls in
  if String.eqb sourceAlias targetAlias then
    metadata <~ metadataOrStat E urls srcSSE preserve metadata ;;
    let metadata := mergeCanonical E 2 (Metadata (TargetContent urls)) metadata in
    let metadata := mergeCanonical E 3 (UserMetadata (TargetContent urls)) metadata in
    let sourcePath := ToSlash E (Path sourceURL) in
    if RetentionEnabled (SourceContent urls) then
      putTargetRetention E targetAlias (URLString targetURL) metadata
    else
      copySourceToTargetURL E targetAlias (URLString targetURL) sourcePath mode until
        legalHold length srcSSE tgtSSE (filterMetadata E metadata)
        (DisableMultipart urls)
  else
    if RetentionEnabled (SourceContent urls) then
      metadata <~ metadataOrStat E urls srcSSE preserve metadata ;;
      let metadata := mergeCanonical E 4 (Metadata (TargetContent urls)) metadata in
      let metadata := mergeCanonical E 5 (UserMetadata (TargetContent urls)) metadata in
      putTargetRetention E targetAlias (URLString targetURL) metadata
    else
      stream <~ getSourceStream E sourceAlias (URLString sourceURL) true srcSSE preserve ;;
      let reader := stream.1 in
      let metadata := stream.2 in
      let metadata := mergeCanonical E 6 (Metadata (TargetContent urls)) metadata in
      let metadata := mergeCanonical E 7 (UserMetadata (TargetContent urls)) metadata in
      n <~ putTargetStream E targetAlias (URLString targetURL) mode until legalHold
             reader (negb (isReadAt reader)) length (filterMetadata E metadata)
             tgtSSE (MD5 urls) (DisableMultipart urls) ;;
      wret tt.

Definition uploadSourceToTargetURL (E : Env) (urls : URLs)
    (encKeyDB : gmap string (list prefixSSEPair)) (preserve : bool)
  : list Call * URLs :=
  match uploadSourceToTargetURL_body E urls encKeyDB preserve with
  | (calls, Ok _) => (calls, WithError urls None)
  | (calls, Fail err) => (calls, WithError urls (Some err))
  end.

(** ** Age filters *)

Definition nsPerMinute : Z := 60 * 1000000000.

Definition digitOf (c : ascii) : option Z :=
  let n := N_of_ascii c in
  if ((48 <=? n) && (n <=? 57))%N then Some (Z.of_N (n - 48)) else None.

(** Modelled from the spec: [ParseDuration] is declared in another file of
    the package.  The removal flags take "L days, M hours and N minutes"
    ([90d], [7d10h]): a sequence of decimal numbers, each followed by one of
    the units [d], [h], [m]; [unitOf] gives the length of a unit. *)
Definition unitOf (c : ascii) : option Z :=
  if Ascii.eqb c "d" then Some (24 * 60 * nsPerMinute)%Z
  else if Ascii.eqb c "h" then Some (60 * nsPerMinute)%Z
  else if Ascii.eqb c "m" then Some nsPerMinute
  else None.

(** Modelled from the spec: the loop of [ParseDuration] over the characters,
    [num] being the number read so far and [total] the duration so far. *)
Fixpoint parseDurationFrom (s : string) (num : option Z) (total : Z) : option Z :=
  match s with
  | EmptyString => match num with None => Some total | Some _ => None end
  | String c r =>
      match digitOf c with
      | Some d => parseDurationFrom r (Some (10 * default 0 num + d))%Z total
      | None =>
          match num, unitOf c with
          | Some n, Some u => parseDurationFrom r None (total + n * u)%Z
          | _, _ => None
          end
      end
  end.

(** Modelled from the spec: [ParseDuration], in nanoseconds; the empty
    string and any other text that is not such a sequence do not parse. *)
Definition ParseDuration (s : string) : option Z :=
  if String.eqb s "" then None else parseDurationFrom s None 0.

(** Modelled from the spec: [isOlder] is declared in another file of the
    package.  With [older-than="90d"] the entries aged 95 and 200 days are
    removed and the entry aged 10 days is kept (and the flag reads "remove
    objects older than L days"), while the callers skip an entry when
    [isOlder] holds: it holds when the age of the object is below the
    duration.  An unparsable duration is fatal ([None]). *)
Definition isOlder (E : Env) (ti : Z) (olderRef : string) : option bool :=
  if String.eqb olderRef "" then Some false
  else
    match ParseDuration olderRef with
    | None => None
    | Some olderThan => Some (Sub (now E) ti <? olderThan)%Z
    end.

(** Modelled from the spec: [isNewer] is declared in another file of the
    package.  The flag reads "remove objects newer than L days", and the
    callers skip an entry when [isNewer] holds: it holds when the age of the
    object has reached the duration.  An unparsable duration is fatal
    ([None]). *)
Definition isNewer (E : Env) (ti : Z) (newerRef : string) : option bool :=
  if String.eqb newerRef "" then Some false
  else
    match ParseDuration newerRef with
    | None => None
    | Some newerThan => Some (newerThan <=? Sub (now E) ti)%Z
    end.

(** The two tests [olderThan != "" && isOlder(..)] and
    [newerThan != "" && isNewer(..)], in this order: [Some true] when the
    entry is to be skipped, [None] when a duration does not parse. *)
Definition ageSkip (E : Env) (ti : Z) (olderThan newerThan : string) : option bool :=
  match (if String.eqb olderThan "" then Some false else isOlder E ti olderThan) with
  | None => None
  | Some true => Some true
  | Some false =>
      if String.eqb newerThan "" then Some false else isNewer E ti newerThan
  end.

(** ** The [rm] command *)

Record rmMessage := {
  Status : string;
  Key : string;
  MsgSize : Z               (* the field [Size] *)
}.

(** What the removal functions do, in order. *)
Inductive RmEvent :=
| RmErrorIf (e : GoError) (msg : string)     (* [errorIf]: report and go on *)
| RmPrintMsg (m : rmMessage)                 (* [printMsg] *)
| RmRemoveCall (isIncomplete isRemoveBucket isBypass : bool)  (* [clnt.Remove] *)
| RmSend (c : ClientContent)                 (* [contentCh <- content] *)
| RmClose.                                   (* [close(contentCh)] *)

(** What a removal function returns: [nil], [exitStatus(code)], or nothing
    at all when [fatalIf] ends the process. *)
Inductive RmReturn :=
| RetNil
| RetExitStatus (code : Z)
| RetFatal.

(** [undrained] lists the failures that the removal worker has put or will
    put on the error channel and that the function never receives. *)
Record RmOutcome := {
  events : list RmEvent;
  ret : RmReturn;
  undrained : list GoError
}.

Definition clientContentOfURL (u : ClientURL) : ClientContent :=
  {| URL := u; Time := zeroTime; Size := 0; Type_ := 0; StorageClass := "";
     Metadata := ∅; UserMetadata := ∅; ETag := ""; Expires := zeroTime;
     RetentionEnabled := false; RetentionMode := ""; RetentionDuration := "";
     BypassGovernance := false; LegalHoldEnabled := false; LegalHold := "";
     Err := None |}.

(** [for pErr := range errorCh]: a permission failure is reported and
    passed over, any other failure ends the function. *)
Fixpoint drainErrors (E : Env) (msg : string) (errs : list GoError) : RmOutcome :=
  match errs with
  | [] => {| events := []; ret := RetNil; undrained := [] |}
  | pErr :: rest =>
      if isPathInsufficientPermission pErr then
        let o := drainErrors E msg rest in
        {| events := RmErrorIf pErr msg :: events o; ret := ret o;
           undrained := undrained o |}
      else
        {| events := [RmErrorIf pErr msg];
           ret := RetExitStatus (globalErrorExitStatus E);
           undrained := rest |}
  end.

Definition removeSingle (E : Env) (url : string)
    (isIncomplete isFake isForce isBypass : bool) (olderThan newerThan : string)
    (encKeyDB : gmap string (list prefixSSEPair)) : RmOutcome :=
  let isRecursive := false in
  match statURL E url isIncomplete isRecursive encKeyDB with
  | Fail pErr =>
      {| events := [RmErrorIf pErr ("Failed to remove `" +:+ url +:+ "`.")];
         ret := RetExitStatus (globalErrorExitStatus E); undrained := [] |}
  | Ok [] =>
      if negb isForce then
        {| events := [RmErrorIf (errDummy E)
                        ("Failed to remove `" +:+ url +:+ "`. Target object is not found")];
           ret := RetExitStatus (globalErrorExitStatus E); undrained := [] |}
      else {| events := []; ret := RetNil; undrained := [] |}
  | Ok (content :: _) =>
      match ageSkip E (Time content) olderThan newerThan with
      | None => {| events := []; ret := RetFatal; undrained := [] |}
      | Some true => {| events := []; ret := RetNil; undrained := [] |}
      | Some false =>
          let printed := RmPrintMsg {| Status := ""; Key := url; MsgSize := Size content |} in
          if negb isFake then
            let '(targetAlias, targetURL) := mustExpandAlias E url in
            match newClientFromAlias E targetAlias targetURL with
            | Fail pErr =>
                {| events := [printed; RmErrorIf pErr ("Invalid argument `" +:+ url +:+ "`.")];
                   ret := RetExitStatus (globalErrorExitStatus E); undrained := [] |}
            | Ok clnt =>
                let sep := String (Separator (GetURL clnt)) EmptyString in
                let targetURL :=
                  if negb (Strings.HasSuffix targetURL sep) && IsDir (Type_ content)
                  then targetURL +:+ sep else targetURL in
                let sent := clientContentOfURL (newClientURL E targetURL) in
                let isRemoveBucket := false in
                let worker := Remove clnt isIncomplete isRemoveBucket isBypass in
                let o := drainErrors E ("Failed to remove `" +:+ url +:+ "`.")
                           (emit worker [] sent ++ flush worker [sent]) in
                {| events := printed :: RmSend sent :: RmClose
                             :: RmRemoveCall isIncomplete isRemoveBucket isBypass
                             :: events o;
                   ret := ret o; undrained := undrained o |}
            end
          else {| events := [printed]; ret := RetNil; undrained := [] |}
      end
  end.

(** The [select] of the feed loop for one descriptor.  While the worker
    holds failures it is not receiving, so the [errorCh] case is taken: a
    permission failure is reported and the send is tried again, any other
    failure ends the function ([Some rest]: the failures left behind).
    With no failure held, the descriptor is sent ([None]). *)
Fixpoint selectSend (urlString : string) (pending : list GoError)
  : list RmEvent * option (list GoError) :=
  match pending with
  | [] => ([], None)
  | pErr :: rest =>
      let ev := RmErrorIf pErr ("Failed to remove `" +:+ urlString +:+ "`.") in
      if isPathInsufficientPermission pErr then
        let '(evs, r) := selectSend urlString rest in (ev :: evs, r)
      else ([ev], Some rest)
  end.

(** How the feed loop ends. *)
Inductive FeedEnd :=
| FeedDone (sent : list ClientContent) (pending : list GoError)
| FeedAbort (sent : list ClientContent) (remaining : list GoError)
| FeedFatal.

(** [for content := range clnt.List(..)]: [sent] are the descriptors the
    worker has taken so far, [pending] the failures it holds. *)
Fixpoint feedLoop (E : Env) (url targetAlias : string) (isFake : bool)
    (olderThan newerThan : string) (worker : RemoveWorker)
    (listing : list ClientContent) (sent : list ClientContent)
    (pending : list GoError) : list RmEvent * FeedEnd :=
  match listing with
  | [] => ([], FeedDone sent pending)
  | content :: more =>
      let continue := feedLoop E url targetAlias isFake olderThan newerThan worker more in
      match Err content with
      | Some err =>
          let ev := RmErrorIf err ("Failed to remove `" +:+ url +:+ "` recursively.") in
          if isPathInsufficientPermission err then
            let '(evs, r) := continue sent pending in (ev :: evs, r)
          else ([ev; RmClose], FeedAbort sent pending)
      | None =>
          let urlString := Path (URL content) in
          if negb (IsZero (Time content)) then
            match ageSkip E (Time content) olderThan newerThan with
            | None => ([], FeedFatal)
            | Some true => continue sent pending
            | Some false =>
                let printed := RmPrintMsg {| Status := ""; Key := targetAlias +:+ urlString;
                                             MsgSize := Size content |} in
                if negb isFake then
                  match selectSend urlString pending with
                  | (logs, None) =>
                      let '(evs, r) :=
                        continue (sent ++ [content]) (emit worker sent content) in
                      (printed :: logs ++ RmSend content :: evs, r)
                  | (logs, Some remaining) =>
                      (printed :: logs ++ [RmClose], FeedAbort sent remaining)
                  end
                else
                  let '(evs, r) := continue sent pending in (printed :: evs, r)
            end
          else continue sent pending
      end
  end.

Definition removeRecursive (E : Env) (url : string)
    (isIncomplete isFake isBypass : bool) (olderThan newerThan : string)
    (encKeyDB : gmap string (list prefixSSEPair)) : RmOutcome :=
  let '(targetAlias, targetURL) := mustExpandAlias E url in
  match newClientFromAlias E targetAlias targetURL with
  | Fail pErr =>
      {| events := [RmErrorIf pErr ("Failed to remove `" +:+ url +:+ "` recursively.")];
         ret := RetExitStatus (globalErrorExitStatus E); undrained := [] |}
  | Ok clnt =>
      let isRemoveBucket := false in
      let worker := Remove clnt isIncomplete isRemoveBucket isBypass in
      let isRecursive := true in
      let started := RmRemoveCall isIncomplete isRemoveBucket isBypass in
      match feedLoop E url targetAlias isFake olderThan newerThan worker
              (List clnt isRecursive isIncomplete false DirNone) [] [] with
      | (evs, FeedFatal) =>
          {| events := started :: evs; ret := RetFatal; undrained := [] |}
      | (evs, FeedAbort sent remaining) =>
          {| events := started :: evs;
             ret := RetExitStatus (globalErrorExitStatus E);
             undrained := remaining ++ flush worker sent |}
      | (evs, FeedDone sent pending) =>
          let o := drainErrors E ("Failed to remove `" +:+ url +:+ "` recursively.")
                     (pending ++ flush worker sent) in
          {| events := started :: evs ++ RmClose :: events o;
             ret := ret o; undrained := undrained o |}
      end
  end.

(** ** Vocabulary of the statements *)

(** The byte [c] does not occur in [s]. *)
Fixpoint noByte (c : ascii) (s : string) : bool :=
  match s with
  | EmptyString => true
  | String b r => negb (Ascii.eqb b c) && noByte c r
  end.

(** Neither CR nor LF occurs in [s]. *)
Definition noNewline (s : string) : bool :=
  forallb (fun c => negb (Base64.isNewline c)) (list_ascii_of_string s).

Definition newline : string := String (ascii_of_N 10) EmptyString.

(** The layer [layer] gives the value [v] to the canonical key [c]. *)
Definition provides (layer : gmap string string) (c v : string) : Prop :=
  exists k, layer !! k = Some v /\ Header.CanonicalHeaderKey k = c.

Definition covers (layer : gmap string string) (c : string) : Prop :=
  exists v, provides layer c v.

(** [r] is what the layers, listed from the one applied last to the one
    applied first, leave at the key [c] on top of [base]. *)
Fixpoint layeredAt (base : gmap string string) (c : string)
    (layers : list (gmap string string)) (r : option string) : Prop :=
  match layers with
  | [] => r = base !! c
  | top :: below =>
      (exists v, provides top c v /\ r = Some v)
      \/ (~ covers top c /\ layeredAt base c below r)
  end.

Definition layered (base : gmap string string)
    (layers : list (gmap string string)) (merged : gmap string string) : Prop :=
  forall c, layeredAt base c layers (merged !! c).

(** The value that the last pair of [l] whose key canonicalises to [c]
    carries. *)
Fixpoint lastMatch (c : string) (l : list (string * string)) : option string :=
  match l with
  | [] => None
  | kv :: r =>
      match lastMatch c r with
      | Some v => Some v
      | None => if decide (Header.CanonicalHeaderKey kv.1 = c) then Some kv.2 else None
      end
  end.

Definition isCopy (c : Call) : bool :=
  match c with CallCopy _ _ _ _ _ _ _ _ => true | _ => false end.
Definition isGet (c : Call) : bool :=
  match c with CallGet _ _ _ => true | _ => false end.
Definition isPut (c : Call) : bool :=
  match c with CallPut _ _ _ _ _ _ _ _ => true | _ => false end.
Definition isStatCall (c : Call) : bool :=
  match c with CallStat _ _ _ _ _ => true | _ => false end.
Definition isRetentionUpdate (c : Call) : bool :=
  match c with CallPutObjectRetention _ _ _ _ _ => true | _ => false end.

(** [c] is an in-backend copy issued on the client of [alias], [urlStr]. *)
Definition copyTo (alias urlStr : string) (c : Call) : Prop :=
  exists source size srcSSE tgtSSE metadata disableMultipart,
    c = CallCopy alias urlStr source size srcSSE tgtSSE metadata disableMultipart.

(** [c] is a write of a stream issued on the client of [alias], [urlStr]. *)
Definition putTo (alias urlStr : string) (c : Call) : Prop :=
  exists limited size metadata sse md5 disableMultipart,
    c = CallPut alias urlStr limited size metadata sse md5 disableMultipart.

(** The lock headers that [copySourceToTargetURL] sets. *)
Definition withLockHeaders (E : Env) (mode until legalHold : string)
    (metadata : gmap string string) : gmap string string :=
  <[AmzObjectLockLegalHold E := legalHold]>
    (<[AmzObjectLockRetainUntilDate E := until]>
       (<[AmzObjectLockMode E := mode]> metadata)).

(** The lock headers that [putTargetStream] sets. *)
Definition withGivenLockHeaders (E : Env) (mode until legalHold : string)
    (metadata : gmap string string) : gmap string string :=
  let metadata :=
    if String.eqb mode "" then metadata else <[AmzObjectLockMode E := mode]> metadata in
  let metadata :=
    if String.eqb until "" then metadata
    else <[AmzObjectLockRetainUntilDate E := until]> metadata in
  if String.eqb legalHold "" then metadata
  else <[AmzObjectLockLegalHold E := legalHold]> metadata.

(** ** A concrete environment

    One client serves every address; the alias [s3] stands for a remote
    host and every other name is a path of the local file system. *)

Definition quietWorker : RemoveWorker :=
  {| emit := fun _ _ => []; flush := fun _ => [] |}.

Definition demoURL (p : string) : ClientURL :=
  {| Path := p; Separator := "/"; URLString := p |}.

Definition demoContent (p : string) (t : Z) (mode : Z)
    (meta userMeta : gmap string string) : ClientContent :=
  {| URL := demoURL p; Time := t; Size := 1; Type_ := mode; StorageClass := "";
     Metadata := meta; UserMetadata := userMeta; ETag := ""; Expires := zeroTime;
     RetentionEnabled := false; RetentionMode := ""; RetentionDuration := "";
     BypassGovernance := false; LegalHoldEnabled := false; LegalHold := "";
     Err := None |}.

Definition demoReader : Reader :=
  {| minioObject := None; osFileName := Some "/tmp/file.txt"; seeker := true;
     head512 := "hello"; seekErr := None |}.

Definition demoClient (listing : list ClientContent) (worker : RemoveWorker)
    (stat : result ClientContent) : Client :=
  {| Stat := fun _ _ _ => stat;
     List := fun _ _ _ _ => listing;
     Copy := fun _ _ _ _ _ _ => None;
     Get := fun _ => Ok demoReader;
     Put := fun _ _ size _ _ _ _ => (size, None);
     PutObjectRetention := fun _ _ _ => None;
     Remove := fun _ _ _ => worker;
     GetURL := demoURL "" |}.

Definition demoExpand (aliasedURL : string) : string * string * option string :=
  match Strings.Cut "/" aliasedURL with
  | Some (a, rest) =>
      if String.eqb a "s3"
      then ("s3", "https://s3.amazonaws.com/" +:+ rest, Some "s3")
      else ("", aliasedURL, None)
  | None =>
      if String.eqb aliasedURL "s3"
      then ("s3", "https://s3.amazonaws.com", Some "s3")
      else ("", aliasedURL, None)
  end.

Definition demoEnv (clnt : Client) (stat : string -> result ClientContent)
    (clock : Z) : Env :=
  {| filepathSeparator := "/";
     AmzObjectLockMode := "X-Amz-Object-Lock-Mode";
     AmzObjectLockRetainUntilDate := "X-Amz-Object-Lock-Retain-Until-Date";
     AmzObjectLockLegalHold := "X-Amz-Object-Lock-Legal-Hold";
     serverEncryptionKeyPrefix := "x-amz-server-side-encryption";
     timeSentinel := 0;
     globalErrorExitStatus := 1;
     errInvalidArgument := ErrorString "Invalid arguments provided, please refer to the help.";
     errDummy := ErrorString "";
     now := clock;
     expandAlias := fun a => Ok (demoExpand a);
     mustExpandAlias := fun a => ((demoExpand a).1.1, (demoExpand a).1.2);
     fsNew := fun _ => Ok clnt;
     S3New := fun _ _ => Ok clnt;
     newClientURL := demoURL;
     url2Stat := fun u _ _ => stat u;
     statURL := fun u _ _ _ =>
                  match stat u with Ok c => Ok [c] | Fail e => Fail e end;
     getSSE := fun _ _ => None;
     parseRetentionValidity := fun _ _ => Ok (1, "DAYS")%Z;
     getRetainUntilDate := fun _ _ => Ok "2030-01-01T00:00:00Z";
     filepathJoin := fun a b => a +:+ "/" +:+ b;
     timeParseRFC3339 := fun _ => None;
     filetypeMatch := fun _ => Ok "";
     rangeMap := fun _ m => map_to_list m |}.

Definition notFound : GoError := ErrorString "Object does not exist".

Definition demoURLs (sa ta : string) (sc tc : ClientContent) : URLs :=
  {| SourceAlias := sa; SourceContent := sc; TargetAlias := ta; TargetContent := tc;
     TotalCount := 1; TotalSize := 1; MD5 := false; DisableMultipart := false;
     Error := None |}.

Definition withRetention (c : ClientContent) : ClientContent :=
  {| URL := URL c; Time := Time c; Size := Size c; Type_ := Type_ c;
     StorageClass := StorageClass c; Metadata := Metadata c;
     UserMetadata := UserMetadata c; ETag := ETag c; Expires := Expires c;
     RetentionEnabled := true; RetentionMode := "governance";
     RetentionDuration := "1d"; BypassGovernance := BypassGovernance c;
     LegalHoldEnabled := LegalHoldEnabled c; LegalHold := LegalHold c;
     Err := Err c |}.

Definition plainEnv : Env :=
  demoEnv (demoClient [] quietWorker (Fail notFound)) (fun _ => Fail notFound) 0.

(** The metadata of the [Copy] and [Put] calls of a trace. *)
Definition handedMetadata (calls : list Call) : list (gmap string string) :=
  omap (fun c => match c with
                 | CallCopy _ _ _ _ _ _ md _ => Some md
                 | CallPut _ _ _ _ md _ _ _ => Some md
                 | _ => None
                 end) calls.

(** Same alias, source metadata given by the caller: the stored and the
    user-supplied maps of the source disagree on one key. *)
Definition sameAliasURLs : URLs :=
  demoURLs "fsA" "fsA"
    (demoContent "/file.txt" 0 420 {["X-Amz-Meta-Owner" := "stored"]}
                 {["X-Amz-Meta-Owner" := "user"]})
    (demoContent "/dest.txt" 0 420 ∅ ∅).

(** Same alias, the source content has retention enabled. *)
Definition retentionOnlyURLs : URLs :=
  demoURLs "fsA" "fsA"
    (withRetention (demoContent "/file.txt" 0 420 {["Content-Type" := "text/plain"]} ∅))
    (demoContent "/dest.txt" 0 420 ∅ ∅).

(** Different aliases, a source that can be read and whose stat succeeds. *)
Definition crossAliasURLs : URLs :=
  demoURLs "fsA" "fsB"
    (demoContent "/file.txt" 0 420 {["Content-Type" := "text/plain"]} ∅)
    (demoContent "/dest.txt" 0 420 ∅ {["X-Amz-Meta-Owner" := "target"]}).

(** Different aliases, the source content has retention enabled. *)
Definition crossRetentionURLs : URLs :=
  demoURLs "fsA" "fsB"
    (withRetention (demoContent "/file.txt" 0 420 {["Content-Type" := "text/plain"]} ∅))
    (demoContent "/dest.txt" 0 420 ∅ ∅).

Definition readableEnv : Env :=
  demoEnv (demoClient [] quietWorker
             (Ok (demoContent "/file.txt" 0 420 {["Content-Type" := "text/plain"]} ∅)))
          (fun _ => Fail notFound) 0.

(** ** Vocabulary of the removal statements *)

Definition sentOf (evs : list RmEvent) : list ClientContent :=
  omap (fun e => match e with RmSend c => Some c | _ => None end) evs.

Definition printedOf (evs : list RmEvent) : list rmMessage :=
  omap (fun e => match e with RmPrintMsg m => Some m | _ => None end) evs.

Definition loggedOf (evs : list RmEvent) : list GoError :=
  omap (fun e => match e with RmErrorIf err _ => Some err | _ => None end) evs.

(** How many times the feed channel is closed. *)
Definition isClose (e : RmEvent) : bool :=
  match e with RmClose => true | _ => false end.

Definition closes (evs : list RmEvent) : nat :=
  length (List.filter isClose evs).

(** The events that follow the first reported failure that is not a
    permission failure, if there is one. *)
Fixpoint afterFirstBad (evs : list RmEvent) : option (list RmEvent) :=
  match evs with
  | [] => None
  | RmErrorIf e _ :: r =>
      if isPathInsufficientPermission e then afterFirstBad r else Some r
  | _ :: r => afterFirstBad r
  end.

(** A listed entry that the filters let through. *)
Definition candidate (E : Env) (olderThan newerThan : string) (c : ClientContent) : bool :=
  match Err c with
  | Some _ => false
  | None =>
      negb (IsZero (Time c)) &&
      match ageSkip E (Time c) olderThan newerThan with
      | Some false => true
      | _ => false
      end
  end.

(** The entries that a run over [listing] targets: those that the filters
    let through, up to the entry, if any, at which the listing itself ends
    the run (a failure that is not a permission failure, a duration that
    does not parse). *)
Fixpoint targeted (E : Env) (olderThan newerThan : string)
    (listing : list ClientContent) : list ClientContent :=
  match listing with
  | [] => []
  | c :: more =>
      match Err c with
      | Some e =>
          if isPathInsufficientPermission e
          then targeted E olderThan newerThan more else []
      | None =>
          if IsZero (Time c) then targeted E olderThan newerThan more
          else
            match ageSkip E (Time c) olderThan newerThan with
            | None => []
            | Some true => targeted E olderThan newerThan more
            | Some false => c :: targeted E olderThan newerThan more
            end
      end
  end.

(** The message printed for a listed entry. *)
Definition msgOf (targetAlias : string) (c : ClientContent) : rmMessage :=
  {| Status := ""; Key := targetAlias +:+ Path (URL c); MsgSize := Size c |}.

Definition nsPerDay : Z := 24 * 60 * nsPerMinute.

(** An entry whose age at time [clock] is [days] days. *)
Definition aged (clock days : Z) (p : string) : ClientContent :=
  demoContent p (clock - days * nsPerDay) 420 ∅ ∅.

Definition failing (p : string) (e : GoError) : ClientContent :=
  {| URL := demoURL p; Time := zeroTime; Size := 0; Type_ := 0; StorageClass := "";
     Metadata := ∅; UserMetadata := ∅; ETag := ""; Expires := zeroTime;
     RetentionEnabled := false; RetentionMode := ""; RetentionDuration := "";
     BypassGovernance := false; LegalHoldEnabled := false; LegalHold := "";
     Err := Some e |}.

(** Some day in 2026, in nanoseconds since the epoch. *)
Definition someDay : Z := 1790000000 * 1000000000.

(** The listing of the scenario: entries aged 10, 95 and 200 days. *)
Definition agedListing : list ClientContent :=
  [aged someDay 10 "/bucket/prefix/a"; aged someDay 95 "/bucket/prefix/b";
   aged someDay 200 "/bucket/prefix/c"].

Definition scenarioEnv (listing : list ClientContent) (worker : RemoveWorker) : Env :=
  demoEnv (demoClient listing worker (Fail notFound))
          (fun u => Ok (aged someDay 95 u)) someDay.

(** A worker that fails on every descriptor, with the same failure. *)
Definition failingWorker (e : GoError) : RemoveWorker :=
  {| emit := fun _ _ => [e]; flush := fun _ => [] |}.

(** ** Further functions of [cmd/common-methods.go] and of the [rm] command *)

(** [strings.Contains] *)
Fixpoint Contains (s substr : string) : bool :=
  Strings.HasPrefix s substr ||
  match s with
  | EmptyString => false
  | String _ r => Contains r substr
  end.

(** [strings.Join(parts, ",")] *)
Fixpoint joinComma (parts : list string) : string :=
  match parts with
  | [] => ""
  | [p] => p
  | p :: rest => p +:+ "," +:+ joinComma rest
  end.

(** The entries after the first one, each behind its comma. *)
Fixpoint commaTail (parts : list string) : string :=
  match parts with
  | [] => ""
  | p :: rest => "," +:+ p +:+ commaTail rest
  end.

(** What one invocation of the command reads: the two environment
    variables, the flags and arguments of the command line, and the lines of
    the standard input. *)
Record Invocation := {
  envEncrypt : string;           (* [os.Getenv("OSS_ENCRYPT")] *)
  envEncryptKey : string;        (* [os.Getenv("OSS_ENCRYPT_KEY")] *)
  flagEncrypt : string;          (* [ctx.String("encrypt")] *)
  flagEncryptKey : string;       (* [ctx.String("encrypt-key")] *)
  flagForce : bool;
  flagRecursive : bool;
  flagStdin : bool;
  flagDangerous : bool;
  flagIncomplete : bool;
  flagFake : bool;
  flagBypass : bool;
  flagOlderThan : string;
  flagNewerThan : string;
  cliArgs : list string;
  stdinLines : list string
}.

(** Further parts of the program and of its libraries that these functions
    depend on and that are declared elsewhere. *)
Record Aux := {
  errConflictSSE : string -> string -> GoError;
  errInvalidAliasedURL : string -> GoError;
  parseAndValidateEncryptionKeys :
    string -> string -> result (gmap string (list prefixSSEPair));
  url2Alias : string -> string * string;
  filepathClean : string -> string;
  guessURLContentType : string -> string
}.

(** [getEncKeys]: the flags take precedence over the environment. *)
Definition getEncKeys (X : Aux) (I : Invocation)
  : result (gmap string (list prefixSSEPair)) :=
  let sseServer :=
    if negb (String.eqb (flagEncrypt I) "") then flagEncrypt I else envEncrypt I in
  match (if negb (String.eqb (flagEncryptKey I) "") then
           if negb (String.eqb sseServer "") && Contains (flagEncryptKey I) sseServer
           then Fail (errConflictSSE X sseServer (flagEncryptKey I))
           else Ok (flagEncryptKey I)
         else Ok (envEncryptKey I)) with
  | Fail err => Fail err
  | Ok sseKeys =>
      match (if negb (String.eqb sseKeys "") then getDecodedKey sseKeys
             else Ok sseKeys) with
      | Fail err => Fail err
      | Ok sseKeys => parseAndValidateEncryptionKeys X sseKeys sseServer
      end
  end.

(** [urlRgx.MatchString], for [urlRgx = regexp.MustCompile("^https?://")]. *)
Definition urlRgxMatch (s : string) : bool :=
  Strings.HasPrefix s "http://" || Strings.HasPrefix s "https://".

Definition newClient (E : Env) (X : Aux) (aliasedURL : string) : result Client :=
  match expandAlias E aliasedURL with
  | Fail err => Fail err
  | Ok (alias, urlStrFull, hostCfg) =>
      if match hostCfg with None => true | Some _ => false end
         && urlRgxMatch aliasedURL
      then Fail (errInvalidAliasedURL X aliasedURL)
      else newClientFromAlias E alias urlStrFull
  end.

Definition getSourceStreamMetadataFromURL (E : Env) (urlStr : string)
    (encKeyDB : gmap string (list prefixSSEPair))
  : W (Reader * gmap string string) :=
  match expandAlias E urlStr with
  | Fail err => wlift (Fail err)
  | Ok (alias, urlStrFull, _) =>
      let sseKey := getSSE E urlStr (default [] (encKeyDB !! alias)) in
      getSourceStream E alias urlStrFull true sseKey false
  end.

Definition getSourceStreamFromURL (E : Env) (urlStr : string)
    (encKeyDB : gmap string (list prefixSSEPair)) : W Reader :=
  match expandAlias E urlStr with
  | Fail err => wlift (Fail err)
  | Ok (alias, urlStrFull, _) =>
      let sse := getSSE E urlStr (default [] (encKeyDB !! alias)) in
      stream <~ getSourceStream E alias urlStrFull false sse false ;;
      wret stream.1
  end.

(** [putTargetStreamWithURL]; a [nil] map is [None]. *)
Definition putTargetStreamWithURL (E : Env) (X : Aux) (urlStr : string)
    (reader : Reader) (size : Z) (sse : ServerSide) (md5 disableMultipart : bool)
    (metadata : option (gmap string string)) : W Z :=
  match expandAlias E urlStr with
  | Fail err => wlift (Fail err)
  | Ok (alias, urlStrFull, _) =>
      let contentType := guessURLContentType X urlStr in
      let metadata := default ∅ metadata in
      let metadata := <["Content-Type" := contentType]> metadata in
      putTargetStream E alias urlStrFull "" "" "" reader false size metadata sse md5
        disableMultipart
  end.

(** *** [checkRmSyntax] *)

Definition msgRequiresForce : string :=
  "Removal requires --force flag. This operation is *IRREVERSIBLE*. Please review carefully before performing this *DANGEROUS* operation.".
Definition msgRequiresRecursive : string :=
  "Removal requires --recursive flag. This operation is *IRREVERSIBLE*. Please review carefully before performing this *DANGEROUS* operation.".
Definition msgSiteWide : string :=
  "This operation results in site-wide removal of objects. If you are really sure, retry this command with ‘--dangerous’ and ‘--force’ flags.".

(** How the validation ends: it returns, [fatalIf] ends the process with a
    message, or the help is shown and the process exits. *)
Inductive SyntaxOutcome :=
| SyntaxOK
| SyntaxFatal (msg : string)
| SyntaxHelp (exitCode : Z).

(** The loop over the arguments: a fatal message, or the value of
    [isNamespaceRemoval] when the loop is left. *)
Fixpoint checkTargets (E : Env) (X : Aux) (isRecursive isForce : bool)
    (encKeyDB : gmap string (list prefixSSEPair)) (args : list string)
  : string + bool :=
  match args with
  | [] => inr false
  | url :: more =>
      let url := ToSlash E (filepathClean X url) in
      let dir := isAliasURLDir E url encKeyDB in
      if negb dir then inr (String.eqb (url2Alias X url).2 "")
      else if dir && isRecursive && negb isForce then inl msgRequiresForce
      else if dir && negb isRecursive then inl msgRequiresRecursive
      else checkTargets E X isRecursive isForce encKeyDB more
  end.

Definition checkRmSyntax (E : Env) (X : Aux) (I : Invocation)
    (encKeyDB : gmap string (list prefixSSEPair)) : SyntaxOutcome :=
  let isForce := flagForce I in
  let isRecursive := flagRecursive I in
  let isStdin := flagStdin I in
  let isDangerous := flagDangerous I in
  match checkTargets E X isRecursive isForce encKeyDB (cliArgs I) with
  | inl msg => SyntaxFatal msg
  | inr isNamespaceRemoval =>
      if match cliArgs I with [] => true | _ => false end && negb isStdin
      then SyntaxHelp 1
      else if (isRecursive || isStdin) && negb isForce then
        if isNamespaceRemoval then SyntaxFatal msgSiteWide
        else SyntaxFatal msgRequiresForce
      else if (isRecursive || isStdin) && isNamespaceRemoval && negb isDangerous
      then SyntaxFatal msgSiteWide
      else SyntaxOK
  end.

(** *** [mainRm] *)

(** The loops of [mainRm] over the targets: every target is removed in
    turn, [rerr] keeps the first error; a removal that ends the process
    ends the loop. *)
Fixpoint removeAll (remove : string -> RmOutcome) (urls : list string)
    (rerr : RmReturn) : list RmOutcome * RmReturn :=
  match urls with
  | [] => ([], rerr)
  | url :: more =>
      let o := remove url in
      match ret o with
      | RetFatal => ([o], RetFatal)
      | e =>
          let rerr := match rerr with RetNil => e | _ => rerr end in
          let '(os, r) := removeAll remove more rerr in (o :: os, r)
      end
  end.

Definition mainRm (E : Env) (X : Aux) (I : Invocation) : list RmOutcome * RmReturn :=
  match getEncKeys X I with
  | Fail _ => ([], RetFatal)
  | Ok encKeyDB =>
      match checkRmSyntax E X I encKeyDB with
      | SyntaxOK =>
          let remove url :=
            if flagRecursive I then
              removeRecursive E url (flagIncomplete I) (flagFake I) (flagBypass I)
                (flagOlderThan I) (flagNewerThan I) encKeyDB
            else
              removeSingle E url (flagIncomplete I) (flagFake I) (flagForce I)
                (flagBypass I) (flagOlderThan I) (flagNewerThan I) encKeyDB in
          let '(os, rerr) := removeAll remove (cliArgs I) RetNil in
          match rerr with
          | RetFatal => (os, RetFatal)
          | _ =>
              if negb (flagStdin I) then (os, rerr)
              else
                let '(os', rerr') := removeAll remove (stdinLines I) rerr in
                (os ++ os', rerr')
          end
      | _ => ([], RetFatal)
      end
  end.

(** *** Vocabulary and examples for these functions *)

(** The entry may be handed on to a backend: its name and its value are
    valid in a header and it is not an encryption key header. *)
Definition transmissible (E : Env) (k v : string) : bool :=
  Header.ValidHeaderFieldName k && Header.ValidHeaderFieldValue v &&
  negb (Strings.HasPrefix (Header.CanonicalHeaderKey k)
          (Header.CanonicalHeaderKey (serverEncryptionKeyPrefix E))).

(** The metadata that a call hands to the backend. *)
Definition callMetadata (c : Call) : option (gmap string string) :=
  match c with
  | CallCopy _ _ _ _ _ _ md _ => Some md
  | CallPut _ _ _ _ md _ _ _ => Some md
  | _ => None
  end.

(** The key is one of the three object lock headers. *)
Definition isLockHeader (E : Env) (k : string) : Prop :=
  k = AmzObjectLockMode E \/ k = AmzObjectLockRetainUntilDate E
  \/ k = AmzObjectLockLegalHold E.

Definition demoAux : Aux :=
  {| errConflictSSE := fun _ _ => ErrorString "SSE alias and SSE-C prefix conflict";
     errInvalidAliasedURL := fun _ => ErrorString "Use `mc config host add` to add an alias";
     parseAndValidateEncryptionKeys := fun _ _ => Ok ∅;
     url2Alias := fun u =>
       match Strings.Cut "/" u with
       | Some (a, rest) => (a, rest)
       | None => (u, "")
       end;
     filepathClean := fun u => u;
     guessURLContentType := fun _ => "text/plain" |}.

Definition demoInvocation (recursive force : bool) (args : list string) : Invocation :=
  {| envEncrypt := ""; envEncryptKey := ""; flagEncrypt := ""; flagEncryptKey := "";
     flagForce := force; flagRecursive := recursive; flagStdin := false;
     flagDangerous := false; flagIncomplete := false; flagFake := false;
     flagBypass := false; flagOlderThan := ""; flagNewerThan := "";
     cliArgs := args; stdinLines := [] |}.
(** An environment in which every address is that of a directory. *)
Definition dirEnv (worker : RemoveWorker) : Env :=
  demoEnv (demoClient [] worker (Fail notFound))
          (fun u => Ok (demoContent u 1 (2 ^ 31) ∅ ∅)) 1.

(** The targets of one invocation, in the order [mainRm] takes them: the
    arguments, then the lines of the standard input when it is read. *)
Definition rmTargets (I : Invocation) : list string :=
  cliArgs I ++ (if flagStdin I then stdinLines I else []).

(** The removal [mainRm] runs for one target. *)
Definition rmTarget (E : Env) (I : Invocation)
    (encKeyDB : gmap string (list prefixSSEPair)) (url : string) : RmOutcome :=
  if flagRecursive I then
    removeRecursive E url (flagIncomplete I) (flagFake I) (flagBypass I)
      (flagOlderThan I) (flagNewerThan I) encKeyDB
  else
    removeSingle E url (flagIncomplete I) (flagFake I) (flagForce I)
      (flagBypass I) (flagOlderThan I) (flagNewerThan I) encKeyDB.

(** The first result that is not nil, nil when there is none. *)
Fixpoint firstError (rets : list RmReturn) : RmReturn :=
  match rets with
  | [] => RetNil
  | RetNil :: more => firstError more
  | e :: _ => e
  end.

(** *** Vocabulary: the failures of a removal *)

(** The failures up to and including the first one that is not a
    permission failure: what a loop that receives [errs] in order, passes
    over permission failures and returns at any other failure takes. *)
Fixpoint uptoFirstBad (errs : list GoError) : list GoError :=
  match errs with
  | [] => []
  | e :: rest =>
      if isPathInsufficientPermission e then e :: uptoFirstBad rest else [e]
  end.

(** The errors that the listing reports in band, in order. *)
Definition listedErrors (listing : list ClientContent) : list GoError :=
  omap Err listing.

(** The failures that the removal worker reports for the descriptors
    [descs], taken one after the other after those of [taken]. *)
Fixpoint emitted (worker : RemoveWorker) (taken descs : list ClientContent)
  : list GoError :=
  match descs with
  | [] => []
  | c :: more => emit worker taken c ++ emitted worker (taken ++ [c]) more
  end.

(** All the failures that the removal worker reports when it is handed the
    descriptors [descs] and the feed channel is then closed. *)
Definition workerFailures (worker : RemoveWorker) (descs : list ClientContent)
  : list GoError :=
  emitted worker [] descs ++ flush worker descs.

(** The failures of a recursive removal over [listing], in the order in
    which they reach a run that nothing cuts short: an error of the listing
    at its entry; the failures that the worker holds, at the next entry
    that is handed to it; what the worker still holds and what it reports
    once the feed channel is closed, at the end.  [sent] are the descriptors
    that the worker has taken, [pending] the failures that it holds. *)
Fixpoint deliveries (E : Env) (isFake : bool) (olderThan newerThan : string)
    (worker : RemoveWorker) (listing sent : list ClientContent)
    (pending : list GoError) : list GoError :=
  match listing with
  | [] => pending ++ flush worker sent
  | c :: more =>
      match Err c with
      | Some e => e :: deliveries E isFake olderThan newerThan worker more sent pending
      | None =>
          if candidate E olderThan newerThan c && negb isFake
          then pending ++ deliveries E isFake olderThan newerThan worker more
                            (sent ++ [c]) (emit worker sent c)
          else deliveries E isFake olderThan newerThan worker more sent pending
      end
  end.

(** The reports of the failures [errs] with the message [msg]. *)
Definition reports (msg : string) (errs : list GoError) : list RmEvent :=
  map (fun e => RmErrorIf e msg) errs.

(** Being a permission failure. *)
Abbreviation permission :=
  (fun e : GoError => isPathInsufficientPermission e = true).

(** * Properties *)

(** ** Encryption keys *)

Example parseKey_plain :
  parseKey "logs/=AAAAAAAAAAAAAAAAAAAAAAAAAAAAAAAA"
  = Ok "logs/=AAAAAAAAAAAAAAAAAAAAAAAAAAAAAAAA".
Proof. reflexivity. Qed.

Example parseKey_base64 :
  parseKey "p=MDEyMzQ1Njc4OWFiY2RlZjAxMjM0NTY3ODlhYmNkZWY="
  = Ok "p=0123456789abcdef0123456789abcdef".
Proof. vm_compute. reflexivity. Qed.

Example parseKey_short : parseKey "p=short" = Fail errKeyLength.
Proof. vm_compute. reflexivity. Qed.

Example parseKey_noeq : parseKey "nokey" = Fail errKeyForm.
Proof. vm_compute. reflexivity. Qed.

Example getDecodedKey_two :
  getDecodedKey "a=AAAAAAAAAAAAAAAAAAAAAAAAAAAAAAAA,p=MDEyMzQ1Njc4OWFiY2RlZjAxMjM0NTY3ODlhYmNkZWY="
  = Ok "a=AAAAAAAAAAAAAAAAAAAAAAAAAAAAAAAA,p=0123456789abcdef0123456789abcdef".
Proof. vm_compute. reflexivity. Qed.

Lemma Cut_noByte (sep : ascii) (s : string) :
  noByte sep s = true -> Strings.Cut sep s = None.
Proof.
  induction s as [|b r IH]; simpl; [reflexivity|].
  intros H. apply andb_true_iff in H as [Hb Hr].
  apply negb_true_iff in Hb. rewrite Hb, (IH Hr). reflexivity.
Qed.

Lemma Cut_append (sep : ascii) (p k : string) :
  noByte sep p = true -> Strings.Cut sep (p +:+ String sep k) = Some (p, k).
Proof.
  induction p as [|b r IH]; simpl.
  - intros _. rewrite Ascii.eqb_refl. reflexivity.
  - intros H. apply andb_true_iff in H as [Hb Hr].
    apply negb_true_iff in Hb. rewrite Hb, (IH Hr). reflexivity.
Qed.

Lemma length_string_of_list (l : list ascii) :
  String.length (string_of_list_ascii l) = length l.
Proof. induction l; simpl; congruence. Qed.

Lemma length_list_of_string (s : string) :
  length (list_ascii_of_string s) = String.length s.
Proof. induction s; simpl; congruence. Qed.

Lemma stripNewlines_id (s : string) :
  noNewline s = true ->
  Base64.stripNewlines (list_ascii_of_string s) = list_ascii_of_string s.
Proof.
  unfold noNewline, Base64.stripNewlines.
  induction (list_ascii_of_string s) as [|c l IH]; simpl; [reflexivity|].
  intros H. apply andb_true_iff in H as [Hc Hl].
  rewrite Hc, (IH Hl). reflexivity.
Qed.

(** A decoded text of [4 n] characters has between [3 n - 2] and [3 n]
    bytes. *)
Lemma decodeQuanta_length (n : nat) :
  forall src out, (length src <= n)%nat -> Base64.decodeQuanta src = Some out ->
  exists q : nat, length src = (4 * q)%nat /\
                  (length out <= 3 * q)%nat /\ (3 * q <= length out + 2)%nat.
Proof.
  induction n as [|n IH]; intros src out Hn H.
  - destruct src; simpl in Hn; [|lia]. simpl in H. injection H as <-.
    exists 0%nat. simpl. lia.
  - destruct src as [|a [|b [|c [|d rest]]]]; simpl in H; try discriminate.
    + injection H as <-. exists 0%nat. simpl. lia.
    + destruct (Base64.decodeMap a); [|discriminate].
      destruct (Base64.decodeMap b); [|discriminate].
      destruct (Base64.isPad c).
      * destruct (Base64.isPad d); simpl in H; [|discriminate].
        destruct rest; [|discriminate]. injection H as <-.
        exists 1%nat. simpl. lia.
      * destruct (Base64.decodeMap c); [|discriminate].
        destruct (Base64.isPad d).
        -- destruct rest; [|discriminate]. injection H as <-.
           exists 1%nat. simpl. lia.
        -- destruct (Base64.decodeMap d); [|discriminate].
           destruct (Base64.decodeQuanta rest) as [o|] eqn:Hr; [|discriminate].
           injection H as <-.
           destruct (IH rest o) as (q & Hq & Hlo & Hhi); [simpl in Hn; lia|exact Hr|].
           exists (S q). simpl. rewrite Hq. lia.
Qed.

Lemma DecodeString_32_is_44 (key d : string) :
  noNewline key = true -> Base64.DecodeString key = Some d ->
  String.length d = 32%nat -> String.length key = 44%nat.
Proof.
  unfold Base64.DecodeString. intros Hnl H Hd.
  rewrite (stripNewlines_id _ Hnl) in H.
  destruct (Base64.decodeQuanta (list_ascii_of_string key)) as [out|] eqn:Ho;
    [|discriminate].
  injection H as <-. rewrite length_string_of_list in Hd.
  destruct (decodeQuanta_length _ _ _ (le_n _) Ho) as (q & Hq & Hlo & Hhi).
  rewrite length_list_of_string in Hq. lia.
Qed.

(** C8, as amended: an entry without ['='] is refused; an entry
    [prefix=key] is accepted unchanged when the key has 32 bytes, and
    otherwise exactly when the base64 decoding of the key (which ignores CR
    and LF) has 32 bytes, the key then being replaced by these bytes; a key
    without CR and LF is accepted only at 32 or 44 characters, and every
    other length is refused. *)
Theorem parseKey_accepts_32_bytes (prefix key : string) :
  noByte "=" prefix = true ->
  parseKey prefix = Fail errKeyForm /\
  (String.length key = 32%nat ->
   parseKey (prefix +:+ "=" +:+ key) = Ok (prefix +:+ "=" +:+ key)) /\
  (String.length key <> 32%nat ->
   forall r, parseKey (prefix +:+ "=" +:+ key) = Ok r <->
             exists d, Base64.DecodeString key = Some d /\
                       String.length d = 32%nat /\ r = prefix +:+ "=" +:+ d) /\
  (String.length key <> 32%nat ->
   (forall d, Base64.DecodeString key = Some d -> String.length d <> 32%nat) ->
   parseKey (prefix +:+ "=" +:+ key) = Fail errKeyLength) /\
  (noNewline key = true -> String.length key <> 32%nat ->
   String.length key <> 44%nat ->
   parseKey (prefix +:+ "=" +:+ key) = Fail errKeyLength).
Proof.
  intros Hp.
  assert (Hcut : Strings.SplitN2 (prefix +:+ "=" +:+ key) "=" = [prefix; key]).
  { unfold Strings.SplitN2. change ("=" +:+ key) with (String "=" key).
    rewrite (Cut_append _ _ _ Hp). reflexivity. }
  assert (Hgen : String.length key <> 32%nat ->
          (forall d, Base64.DecodeString key = Some d -> String.length d <> 32%nat) ->
          parseKey (prefix +:+ "=" +:+ key) = Fail errKeyLength).
  { intros Hk Hd. unfold parseKey. rewrite Hcut.
    apply Nat.eqb_neq in Hk. rewrite Hk.
    destruct (Base64.DecodeString key) as [d|] eqn:Hdec; [|reflexivity].
    specialize (Hd d eq_refl). apply Nat.eqb_neq in Hd. rewrite Hd. reflexivity. }
  split; [|split; [|split; [|split]]].
  - unfold parseKey, Strings.SplitN2. rewrite (Cut_noByte _ _ Hp). reflexivity.
  - intros Hk. unfold parseKey. rewrite Hcut.
    apply Nat.eqb_eq in Hk. rewrite Hk. reflexivity.
  - intros Hk r. unfold parseKey. rewrite Hcut.
    apply Nat.eqb_neq in Hk. rewrite Hk.
    destruct (Base64.DecodeString key) as [d|] eqn:Hdec.
    + destruct (String.length d =? 32)%nat eqn:Hd.
      * apply Nat.eqb_eq in Hd. split.
        -- intros [= <-]. exists d. auto.
        -- intros (d' & [= <-] & _ & ->). reflexivity.
      * apply Nat.eqb_neq in Hd. split; [discriminate|].
        intros (d' & [= <-] & Hd' & _). contradiction.
    + split; [discriminate|]. intros (d' & [=] & _).
  - exact Hgen.
  - intros Hnl Hk H44. apply Hgen; [exact Hk|].
    intros d Hdec Hd. apply H44. exact (DecodeString_32_is_44 _ _ Hnl Hdec Hd).
Qed.

Lemma parseKey_accepts_32_bytes_witness :
  noByte "=" "logs/" = true /\
  parseKey ("logs/" +:+ "=" +:+ "AAAAAAAAAAAAAAAAAAAAAAAAAAAAAAAA")
  = Ok ("logs/" +:+ "=" +:+ "AAAAAAAAAAAAAAAAAAAAAAAAAAAAAAAA").
Proof.
  split; [reflexivity|].
  exact (proj1 (proj2 (parseKey_accepts_32_bytes
                         "logs/" "AAAAAAAAAAAAAAAAAAAAAAAAAAAAAAAA" eq_refl))
                eq_refl).
Defined.

(** C8 fails as stated: a key of 45 characters, 44 base64 characters
    followed by a line feed, is neither 32 nor 44 characters long and is
    accepted. *)
Lemma parseKey_accepts_45_characters :
  let key := "MDEyMzQ1Njc4OWFiY2RlZjAxMjM0NTY3ODlhYmNkZWY=" +:+ newline in
  String.length key = 45%nat /\
  parseKey ("p=" +:+ key) = Ok "p=0123456789abcdef0123456789abcdef".
Proof. vm_compute. split; reflexivity. Qed.

(** ** Directory detection *)

Lemma substring_skip (p s : string) (m : nat) :
  substring (String.length p) m (p +:+ s) = substring 0 m s.
Proof. induction p as [|c p IH]; simpl; [reflexivity|exact IH]. Qed.

Lemma substring_all (s : string) : substring 0 (String.length s) s = s.
Proof. induction s as [|c s IH]; simpl; [reflexivity|]. rewrite IH. reflexivity. Qed.

Lemma length_append (a b : string) :
  String.length (a +:+ b) = (String.length a + String.length b)%nat.
Proof. induction a as [|c a IH]; simpl; [reflexivity|]. rewrite IH. reflexivity. Qed.

Lemma substring_split (s : string) :
  forall n, (n <= String.length s)%nat ->
  s = substring 0 n s +:+ substring n (String.length s - n) s.
Proof.
  induction s as [|c s IH]; intros n Hn; simpl in *.
  - destruct n; [reflexivity|lia].
  - destruct n as [|n]; simpl.
    + rewrite substring_all. reflexivity.
    + change (String c s = String c (substring 0 n s +:+ substring n (String.length s - n) s)).
      f_equal. apply IH. lia.
Qed.

(** [strings.HasSuffix] holds exactly of the strings that end with the
    suffix. *)
Lemma HasSuffix_spec (s suffix : string) :
  Strings.HasSuffix s suffix = true <-> exists p, s = p +:+ suffix.
Proof.
  unfold Strings.HasSuffix. split.
  - intros H. apply andb_true_iff in H as [Hlen Heq].
    apply Nat.leb_le in Hlen. apply String.eqb_eq in Heq.
    exists (substring 0 (String.length s - String.length suffix) s).
    pose proof (substring_split s (String.length s - String.length suffix)) as Hs.
    replace (String.length s - (String.length s - String.length suffix))%nat
      with (String.length suffix) in Hs by lia.
    rewrite Heq in Hs. apply Hs. lia.
  - intros [p ->]. rewrite length_append. apply andb_true_iff. split.
    + apply Nat.leb_le. lia.
    + replace (String.length p + String.length suffix - String.length suffix)%nat
        with (String.length p) by lia.
      rewrite substring_skip, substring_all. apply String.eqb_refl.
Qed.

(** C9: the stat result decides when the address exists; otherwise a file
    system address is a directory iff it ends with the separator, and an
    aliased address is not a directory with one segment, is one with two,
    and with three or more is one iff it ends with a slash.  So [s3/bucket],
    when it does not exist, is a directory, [s3] alone is not, and an
    existing [s3/bucket/file] that is not a directory is not. *)
Theorem isAliasURLDir_three_tiers (E : Env)
    (keys : gmap string (list prefixSSEPair)) :
  (forall aliasURL c, url2Stat E aliasURL false keys = Ok c ->
     isAliasURLDir E aliasURL keys = IsDir (Type_ c)) /\
  (forall aliasURL e, url2Stat E aliasURL false keys = Fail e ->
     ((mustExpandAlias E aliasURL).2 = aliasURL ->
        (isAliasURLDir E aliasURL keys = true <->
         exists p, aliasURL = p +:+ String (filepathSeparator E) EmptyString)) /\
     ((mustExpandAlias E aliasURL).2 <> aliasURL ->
        let pathURL := ToSlash E aliasURL in
        let segments := length (Strings.Split pathURL "/") in
        (segments = 1%nat -> isAliasURLDir E aliasURL keys = false) /\
        (segments = 2%nat -> isAliasURLDir E aliasURL keys = true) /\
        ((3 <= segments)%nat ->
           (isAliasURLDir E aliasURL keys = true <->
            exists p, pathURL = p +:+ "/")))) /\
  (filepathSeparator E = "/"%char \/ filepathSeparator E = "\"%char ->
     (forall e, url2Stat E "s3/bucket" false keys = Fail e ->
        (mustExpandAlias E "s3/bucket").2 <> "s3/bucket" ->
        isAliasURLDir E "s3/bucket" keys = true) /\
     (forall e, url2Stat E "s3" false keys = Fail e ->
        (mustExpandAlias E "s3").2 <> "s3" ->
        isAliasURLDir E "s3" keys = false) /\
     (forall c, url2Stat E "s3/bucket/file" false keys = Ok c ->
        IsDir (Type_ c) = false ->
        isAliasURLDir E "s3/bucket/file" keys = false)).
Proof.
  assert (Hstat : forall aliasURL c, url2Stat E aliasURL false keys = Ok c ->
            isAliasURLDir E aliasURL keys = IsDir (Type_ c)).
  { intros aliasURL c Hc. unfold isAliasURLDir. rewrite Hc. reflexivity. }
  assert (Hseg : forall aliasURL e, url2Stat E aliasURL false keys = Fail e ->
            (mustExpandAlias E aliasURL).2 <> aliasURL ->
            isAliasURLDir E aliasURL keys =
            match length (Strings.Split (ToSlash E aliasURL) "/") with
            | 0%nat | 1%nat => false
            | 2%nat => true
            | _ => Strings.HasSuffix (ToSlash E aliasURL) "/"
            end).
  { intros aliasURL e He Hne. unfold isAliasURLDir. rewrite He.
    destruct (mustExpandAlias E aliasURL) as [al expandedURL]. simpl in Hne.
    apply String.eqb_neq in Hne. rewrite Hne. reflexivity. }
  split; [exact Hstat|split].
  - intros aliasURL e He. split.
    + intros Heq. unfold isAliasURLDir. rewrite He.
      destruct (mustExpandAlias E aliasURL) as [al expandedURL]. simpl in Heq.
      subst expandedURL. rewrite String.eqb_refl. apply HasSuffix_spec.
    + intros Hne. rewrite (Hseg _ _ He Hne). cbv zeta.
      split; [|split].
      * intros ->. reflexivity.
      * intros ->. reflexivity.
      * intros H3.
        destruct (length (Strings.Split (ToSlash E aliasURL) "/"))
          as [|[|[|n]]]; try lia.
        apply HasSuffix_spec.
  - intros Hsep. split; [|split].
    + intros e He Hne. rewrite (Hseg _ _ He Hne). unfold ToSlash.
      destruct Hsep as [-> | ->]; reflexivity.
    + intros e He Hne. rewrite (Hseg _ _ He Hne). unfold ToSlash.
      destruct Hsep as [-> | ->]; reflexivity.
    + intros c Hc Hdir. rewrite (Hstat _ _ Hc). exact Hdir.
Qed.

(** The three addresses of the scenario, on a system whose separator is the
    slash: [s3/bucket] and [s3] do not exist, [s3/bucket/file] exists and is
    not a directory. *)
Lemma isAliasURLDir_three_tiers_witness :
  let E := demoEnv (demoClient [] quietWorker (Fail notFound))
             (fun u => if String.eqb u "s3/bucket/file"
                       then Ok (demoContent "/bucket/file" 0 420 ∅ ∅)
                       else Fail notFound) 0 in
  isAliasURLDir E "s3/bucket" ∅ = true /\
  isAliasURLDir E "s3" ∅ = false /\
  isAliasURLDir E "s3/bucket/file" ∅ = false.
Proof.
  intros E.
  destruct (isAliasURLDir_three_tiers E ∅) as (_ & _ & H).
  destruct (H (or_introl eq_refl)) as (Hb & Ha & Hf).
  split; [|split].
  - apply (Hb notFound eq_refl). intros Hx; vm_compute in Hx; discriminate.
  - apply (Ha notFound eq_refl). intros Hx; vm_compute in Hx; discriminate.
  - apply (Hf _ eq_refl). reflexivity.
Defined.

(** ** The copy / put pipeline *)

(** *** Merging a layer *)

Lemma foldl_canonical_lookup (l : list (string * string)) :
  forall (m : gmap string string) (c : string),
  foldl (fun md kv => <[Header.CanonicalHeaderKey kv.1 := kv.2]> md) m l !! c
  = match lastMatch c l with Some v => Some v | None => m !! c end.
Proof.
  induction l as [|kv r IH]; intros m c; simpl; [reflexivity|].
  rewrite IH. destruct (lastMatch c r); [reflexivity|].
  destruct (decide (Header.CanonicalHeaderKey kv.1 = c)) as [<-|Hne].
  - apply lookup_insert_eq.
  - apply lookup_insert_ne. exact Hne.
Qed.

Lemma lastMatch_Some (c : string) (l : list (string * string)) (v : string) :
  lastMatch c l = Some v ->
  exists k, (k, v) ∈ l /\ Header.CanonicalHeaderKey k = c.
Proof.
  induction l as [|[k' v'] r IH]; simpl; [discriminate|].
  destruct (lastMatch c r) as [w|].
  - intros [= ->]. destruct (IH eq_refl) as (k & Hin & Hk).
    exists k. split; [right; exact Hin|exact Hk].
  - destruct (decide (Header.CanonicalHeaderKey k' = c)); [|discriminate].
    intros [= ->]. exists k'. split; [left|assumption].
Qed.

Lemma lastMatch_None (c : string) (l : list (string * string)) :
  lastMatch c l = None ->
  forall k v, (k, v) ∈ l -> Header.CanonicalHeaderKey k <> c.
Proof.
  induction l as [|[k' v'] r IH]; simpl; intros H k v Hin.
  - inversion Hin.
  - destruct (lastMatch c r) as [w|]; [discriminate|].
    destruct (decide (Header.CanonicalHeaderKey k' = c)); [discriminate|].
    apply elem_of_cons in Hin as [[= -> ->]|Hin]; [assumption|].
    exact (IH eq_refl k v Hin).
Qed.

Lemma rangeMap_elem (E : Env) (site : nat) (m : gmap string string) k v :
  RangeOK E -> (k, v) ∈ rangeMap E site m <-> m !! k = Some v.
Proof.
  intros HE. rewrite (HE site m). apply elem_of_map_to_list.
Qed.

(** Merging [src] over [metadata]: a canonical key that [src] covers takes
    one of the values [src] gives it, any other key keeps its value. *)
Lemma mergeCanonical_lookup (E : Env) (site : nat) (src metadata : gmap string string)
    (c : string) :
  RangeOK E ->
  (exists v, provides src c v /\ mergeCanonical E site src metadata !! c = Some v)
  \/ (~ covers src c /\ mergeCanonical E site src metadata !! c = metadata !! c).
Proof.
  intros HE. unfold mergeCanonical. rewrite foldl_canonical_lookup.
  destruct (lastMatch c (rangeMap E site src)) as [v|] eqn:Hl.
  - left. exists v. split; [|reflexivity].
    destruct (lastMatch_Some _ _ _ Hl) as (k & Hin & Hk).
    exists k. split; [|exact Hk]. apply (rangeMap_elem E site); assumption.
  - right. split; [|reflexivity].
    intros (v & k & Hk & Hc).
    apply (lastMatch_None _ _ Hl k v); [|exact Hc].
    apply (rangeMap_elem E site); assumption.
Qed.

Lemma layered_base (base : gmap string string) : layered base [] base.
Proof. intros c. reflexivity. Qed.

Lemma layered_merge (E : Env) (site : nat) (base src metadata : gmap string string)
    (layers : list (gmap string string)) :
  RangeOK E -> layered base layers metadata ->
  layered base (src :: layers) (mergeCanonical E site src metadata).
Proof.
  intros HE Hl c. simpl.
  destruct (mergeCanonical_lookup E site src metadata c HE) as [(v & Hp & ->)|[Hn ->]].
  - left. exists v. auto.
  - right. split; [exact Hn|apply Hl].
Qed.

Lemma mergeCanonical_nonempty (E : Env) (site : nat) (src metadata : gmap string string) :
  RangeOK E -> src <> ∅ \/ metadata <> ∅ -> mergeCanonical E site src metadata <> ∅.
Proof.
  intros HE H Hempty.
  assert (Hnone : forall c, mergeCanonical E site src metadata !! c = None)
    by (intros c; rewrite Hempty; apply lookup_empty).
  destruct H as [Hs|Hm].
  - apply Hs. apply map_empty. intros k.
    destruct (src !! k) as [v|] eqn:Hk; [|reflexivity]. exfalso.
    destruct (mergeCanonical_lookup E site src metadata
                (Header.CanonicalHeaderKey k) HE) as [(w & _ & Hw)|[Hn _]].
    + rewrite Hnone in Hw. discriminate.
    + apply Hn. exists v, k. auto.
  - apply Hm. apply map_empty. intros c.
    destruct (mergeCanonical_lookup E site src metadata c HE) as [(w & _ & Hw)|[_ Hw]].
    + rewrite Hnone in Hw. discriminate.
    + rewrite <- Hw. apply Hnone.
Qed.

(** On the source side the stored metadata is applied after the
    user-supplied metadata: where nothing of the target covers the key, the
    stored value is the one that is left. *)
Lemma layered_source_stored_wins (base TU TM SM SU merged : gmap string string)
    (k vs : string) :
  layered base [TU; TM; SM; SU] merged ->
  SM !! k = Some vs ->
  ~ covers TU (Header.CanonicalHeaderKey k) ->
  ~ covers TM (Header.CanonicalHeaderKey k) ->
  (forall k' v', SM !! k' = Some v' ->
     Header.CanonicalHeaderKey k' = Header.CanonicalHeaderKey k -> v' = vs) ->
  merged !! Header.CanonicalHeaderKey k = Some vs.
Proof.
  intros Hl Hk HTU HTM Huniq.
  specialize (Hl (Header.CanonicalHeaderKey k)). simpl in Hl.
  destruct Hl as [(v & Hp & _)|[_ Hl]]; [exfalso; apply HTU; exists v; exact Hp|].
  destruct Hl as [(v & Hp & _)|[_ Hl]]; [exfalso; apply HTM; exists v; exact Hp|].
  destruct Hl as [(v & (k' & Hk' & Hc) & ->)|[Hn _]].
  - f_equal. exact (Huniq k' v Hk' Hc).
  - exfalso. apply Hn. exists vs, k. auto.
Qed.

(** *** What reaches [Copy] and [Put] *)

Lemma size_zero_false (m : gmap string string) : m <> ∅ -> (size m =? 0)%nat = false.
Proof.
  intros H. apply Nat.eqb_neq. intros Hs. apply H.
  apply map_size_empty_iff. exact Hs.
Qed.

(** C1, as amended: the layers are applied in the order source
    user-supplied, source stored, target stored, target user-supplied, each
    overriding the ones before it on canonical keys, so that of a key held
    by both source maps the stored value is the one left when the target
    does not override it.  With source metadata given by the caller, the
    same-alias branch filters this merged map and hands it to [Copy]; the
    cross-alias branch puts the target layers on top of the metadata of the
    opened source stream and hands that to [Put]. *)
Theorem upload_metadata_layers (E : Env) (urls : URLs)
    (encKeyDB : gmap string (list prefixSSEPair)) (preserve : bool)
    (mode until legalHold : string) :
  RangeOK E ->
  retentionOverrides E urls = ([], Ok (mode, until)) ->
  legalHoldOverride E urls = ([], Ok legalHold) ->
  RetentionEnabled (SourceContent urls) = false ->
  let sc := SourceContent urls in
  let tc := TargetContent urls in
  let srcSSE := getSSE E (ToSlash E (filepathJoin E (SourceAlias urls) (Path (URL sc))))
                  (default [] (encKeyDB !! SourceAlias urls)) in
  let tgtSSE := getSSE E (ToSlash E (filepathJoin E (TargetAlias urls) (Path (URL tc))))
                  (default [] (encKeyDB !! TargetAlias urls)) in
  (SourceAlias urls = TargetAlias urls ->
   Metadata sc <> ∅ \/ UserMetadata sc <> ∅ ->
   forall clnt,
   newClientFromAlias E (TargetAlias urls) (URLString (URL tc)) = Ok clnt ->
   exists merged,
     layered ∅ [UserMetadata tc; Metadata tc; Metadata sc; UserMetadata sc] merged /\
     (forall k vs, Metadata sc !! k = Some vs ->
        ~ covers (UserMetadata tc) (Header.CanonicalHeaderKey k) ->
        ~ covers (Metadata tc) (Header.CanonicalHeaderKey k) ->
        (forall k' v', Metadata sc !! k' = Some v' ->
           Header.CanonicalHeaderKey k' = Header.CanonicalHeaderKey k -> v' = vs) ->
        merged !! Header.CanonicalHeaderKey k = Some vs) /\
     (uploadSourceToTargetURL E urls encKeyDB preserve).1 =
       [CallCopy (TargetAlias urls) (URLString (URL tc)) (ToSlash E (Path (URL sc)))
          (Size sc) srcSSE tgtSSE
          (withLockHeaders E mode until legalHold (filterMetadata E merged))
          (DisableMultipart urls)]) /\
  (SourceAlias urls <> TargetAlias urls ->
   forall calls reader base clnt,
   getSourceStream E (SourceAlias urls) (URLString (URL sc)) true srcSSE preserve
     = (calls, Ok (reader, base)) ->
   newClientFromAlias E (TargetAlias urls) (URLString (URL tc)) = Ok clnt ->
   exists merged,
     layered base [UserMetadata tc; Metadata tc] merged /\
     (uploadSourceToTargetURL E urls encKeyDB preserve).1 =
       calls ++
       [CallPut (TargetAlias urls) (URLString (URL tc)) (negb (isReadAt reader))
          (Size sc)
          (withGivenLockHeaders E mode until legalHold (filterMetadata E merged))
          tgtSSE (MD5 urls) (DisableMultipart urls)]).
Proof.
  intros HE Hret Hlh Hsr sc tc srcSSE tgtSSE.
  subst sc tc srcSSE tgtSSE. split.
  - intros Halias Hpop clnt Hclnt.
    set (sc := SourceContent urls) in *. set (tc := TargetContent urls) in *.
    set (src := sourceLayers E urls).
    assert (Hsrc : layered ∅ [Metadata sc; UserMetadata sc] src).
    { unfold src, sourceLayers. do 2 (apply layered_merge; [exact HE|]). apply layered_base. }
    assert (Hne : src <> ∅).
    { unfold src, sourceLayers. apply mergeCanonical_nonempty; [exact HE|].
      destruct Hpop as [H|H]; [left; exact H|].
      right. apply mergeCanonical_nonempty; [exact HE|left; exact H]. }
    set (merged := mergeCanonical E 3 (UserMetadata tc) (mergeCanonical E 2 (Metadata tc) src)).
    assert (Hmerged : layered ∅ [UserMetadata tc; Metadata tc; Metadata sc; UserMetadata sc] merged).
    { unfold merged. do 2 (apply layered_merge; [exact HE|]). exact Hsrc. }
    exists merged. split; [exact Hmerged|split].
    + intros k vs Hk HTU HTM Huniq.
      exact (layered_source_stored_wins _ _ _ _ _ _ _ _ Hmerged Hk HTU HTM Huniq).
    + unfold uploadSourceToTargetURL, uploadSourceToTargetURL_body.
      rewrite Hret, Hlh. cbn [wbind app fst snd].
      rewrite Halias, String.eqb_refl.
      fold sc tc. fold src. unfold metadataOrStat. rewrite (size_zero_false _ Hne).
      cbn [wbind wret app]. rewrite Hsr.
      unfold copySourceToTargetURL. rewrite Hclnt.
      unfold wlift, wcall, wbind, errOf. fold merged.
      destruct (Copy clnt _ _ _ _ _ _); reflexivity.
  - intros Halias calls reader base clnt Hstream Hclnt.
    set (sc := SourceContent urls) in *. set (tc := TargetContent urls) in *.
    set (merged := mergeCanonical E 7 (UserMetadata tc) (mergeCanonical E 6 (Metadata tc) base)).
    exists merged. split.
    + unfold merged. do 2 (apply layered_merge; [exact HE|]). apply layered_base.
    + unfold uploadSourceToTargetURL, uploadSourceToTargetURL_body.
      rewrite Hret, Hlh. cbn [wbind app fst snd].
      apply String.eqb_neq in Halias. rewrite Halias. fold sc tc.
      rewrite Hsr. rewrite Hstream. cbn [wbind fst snd].
      unfold putTargetStream. rewrite Hclnt. fold merged.
      unfold wlift, wcall, wbind, wret.
      fold (withGivenLockHeaders E mode until legalHold (filterMetadata E merged)).
      destruct (Put clnt _ _ _ _ _ _ _) as [n [e|]]; cbn; rewrite ?app_nil_r; reflexivity.
Qed.

Lemma RangeOK_demoEnv clnt stat clock : RangeOK (demoEnv clnt stat clock).
Proof. intros site m. reflexivity. Qed.

Lemma upload_metadata_layers_witness :
  exists merged,
    merged !! "X-Amz-Meta-Owner" = Some "stored" /\
    (uploadSourceToTargetURL plainEnv sameAliasURLs ∅ false).1 =
      [CallCopy "fsA" "/dest.txt" "/file.txt" 1 None None
         (withLockHeaders plainEnv "" "" "" (filterMetadata plainEnv merged)) false].
Proof.
  destruct (upload_metadata_layers plainEnv sameAliasURLs ∅ false "" "" ""
              (RangeOK_demoEnv _ _ _) eq_refl eq_refl eq_refl) as [Hsame _].
  destruct (Hsame eq_refl (or_introl (insert_non_empty _ _ _))
              (demoClient [] quietWorker (Fail notFound)) eq_refl)
    as (merged & _ & Hwins & Htrace).
  exists merged. split; [|exact Htrace].
  apply (Hwins "X-Amz-Meta-Owner" "stored").
  - reflexivity.
  - intros (v & k & Hk & _). simpl in Hk. rewrite lookup_empty in Hk. discriminate.
  - intros (v & k & Hk & _). simpl in Hk. rewrite lookup_empty in Hk. discriminate.
  - intros k' v' Hk' _. simpl in Hk'.
    apply lookup_singleton_Some in Hk' as [_ <-]. reflexivity.
Defined.

(** C1 fails as stated: with [X-Amz-Meta-Owner] both in the stored and in
    the user-supplied metadata of the source, the map handed to [Copy]
    holds the stored value, not the user-supplied one. *)
Lemma upload_source_user_metadata_overridden :
  Metadata (SourceContent sameAliasURLs) !! "X-Amz-Meta-Owner" = Some "stored" /\
  UserMetadata (SourceContent sameAliasURLs) !! "X-Amz-Meta-Owner" = Some "user" /\
  map (fun md : gmap string string => md !! "X-Amz-Meta-Owner")
      (handedMetadata (uploadSourceToTargetURL plainEnv sameAliasURLs ∅ false).1)
  = [Some "stored"].
Proof. vm_compute. repeat split; reflexivity. Qed.

(** *** Which calls are issued *)

Lemma upload_trace (E : Env) urls encKeyDB preserve :
  (uploadSourceToTargetURL E urls encKeyDB preserve).1
  = (uploadSourceToTargetURL_body E urls encKeyDB preserve).1.
Proof.
  unfold uploadSourceToTargetURL.
  destruct (uploadSourceToTargetURL_body E urls encKeyDB preserve) as [t [u|e]];
    reflexivity.
Qed.

Lemma wbind_pure {A B} (a : A) (f : A -> W B) : wbind ([], Ok a) f = f a.
Proof. unfold wbind. destruct (f a) as [t r]. reflexivity. Qed.

Lemma wbind_calls {A B} (m : W A) (f : A -> W B) :
  exists rest, (wbind m f).1 = m.1 ++ rest.
Proof.
  destruct m as [t [a|e]]; simpl.
  - destruct (f a) as [t' r]. exists t'. reflexivity.
  - exists []. rewrite app_nil_r. reflexivity.
Qed.

Lemma wbind_Forall {A B} (P : Call -> Prop) (m : W A) (f : A -> W B) :
  Forall P m.1 -> (forall a, m.2 = Ok a -> Forall P (f a).1) ->
  Forall P (wbind m f).1.
Proof.
  destruct m as [t [a|e]]; simpl; intros Ht Hf; [|exact Ht].
  specialize (Hf a eq_refl). destruct (f a) as [t' r]. simpl in *.
  apply Forall_app. auto.
Qed.

Lemma wlift_Forall {A} (P : Call -> Prop) (r : result A) : Forall P (wlift r).1.
Proof. constructor. Qed.

Lemma wret_Forall {A} (P : Call -> Prop) (a : A) : Forall P (wret a).1.
Proof. constructor. Qed.

Lemma wcall_Forall {A} (P : Call -> Prop) (c : Call) (r : result A) :
  P c -> Forall P (wcall c r).1.
Proof. intros H. repeat constructor. exact H. Qed.

Lemma retentionOverrides_silent (E : Env) urls : (retentionOverrides E urls).1 = [].
Proof.
  unfold retentionOverrides. destruct (RetentionEnabled _); [|reflexivity].
  destruct (parseRetentionValidity E _ _) as [[d u]|e]; [|reflexivity]. simpl.
  destruct (getRetainUntilDate E d u); reflexivity.
Qed.

Lemma legalHoldOverride_silent (E : Env) urls : (legalHoldOverride E urls).1 = [].
Proof.
  unfold legalHoldOverride.
  destruct (LegalHoldEnabled _); [|reflexivity].
  destruct (_ || _); reflexivity.
Qed.

Lemma getAllMetadata_calls (E : Env) sa su sse urls preserve (P : Call -> Prop) :
  (forall a u i p s, P (CallStat a u i p s)) ->
  Forall P (getAllMetadata E sa su sse urls preserve).1.
Proof.
  intros HP. unfold getAllMetadata.
  apply wbind_Forall; [apply wlift_Forall|]. intros clnt _.
  apply wbind_Forall; [apply wcall_Forall, HP|]. intros st _. apply wret_Forall.
Qed.

Lemma putTargetRetention_calls (E : Env) alias urlStr md (P : Call -> Prop) :
  (forall a u m t b, P (CallPutObjectRetention a u m t b)) ->
  Forall P (putTargetRetention E alias urlStr md).1.
Proof.
  intros HP. unfold putTargetRetention.
  apply wbind_Forall; [apply wlift_Forall|]. intros clnt _. apply wcall_Forall, HP.
Qed.

Lemma copySourceToTargetURL_calls (E : Env) alias urlStr source mode until lh size
    s1 s2 md dm (P : Call -> Prop) :
  (forall a u s z x y m d, P (CallCopy a u s z x y m d)) ->
  Forall P (copySourceToTargetURL E alias urlStr source mode until lh size s1 s2 md dm).1.
Proof.
  intros HP. unfold copySourceToTargetURL.
  apply wbind_Forall; [apply wlift_Forall|]. intros clnt _. apply wcall_Forall, HP.
Qed.

Lemma getSourceStream_calls (E : Env) alias urlStr fetchStat sse preserve
    (P : Call -> Prop) :
  (forall a u i p s, P (CallStat a u i p s)) ->
  (forall a u s, P (CallGet a u s)) ->
  Forall P (getSourceStream E alias urlStr fetchStat sse preserve).1.
Proof.
  intros HS HG. unfold getSourceStream.
  apply wbind_Forall; [apply wlift_Forall|]. intros clnt _.
  apply wbind_Forall; [apply wcall_Forall, HG|]. intros reader _.
  destruct fetchStat; [|apply wret_Forall].
  apply wbind_Forall.
  - destruct (minioObject reader) as [[h|e]|]; try apply wret_Forall;
      try apply wlift_Forall.
    apply wbind_Forall; [apply wcall_Forall, HS|]. intros st _. apply wret_Forall.
  - intros stMetadata _.
    destruct (_ && _); [|apply wret_Forall].
    destruct (probeContentType E reader) as [ctype [err|]];
      [apply wlift_Forall|apply wret_Forall].
Qed.

Lemma getSourceStream_opens (E : Env) alias urlStr fetchStat sse preserve clnt :
  newClientFromAlias E alias urlStr = Ok clnt ->
  exists rest, (getSourceStream E alias urlStr fetchStat sse preserve).1
               = CallGet alias urlStr sse :: rest.
Proof.
  intros Hclnt. unfold getSourceStream. rewrite Hclnt.
  unfold wlift. rewrite wbind_pure.
  destruct (wbind_calls (wcall (CallGet alias urlStr sse) (Get clnt sse))
              (fun reader =>
                 if fetchStat then
                   stMetadata <~
                     match minioObject reader with
                     | Some (Fail e) => wlift (Fail e)
                     | Some (Ok oinfoMetadata) =>
                         wret (map_imap (fun k _ => Some (HeaderGet oinfoMetadata k))
                                 oinfoMetadata)
                     | None =>
                         st <~ wcall (CallStat alias urlStr false preserve sse)
                                 (Stat clnt false preserve sse) ;;
                         wret (Metadata st)
                     end ;;
                   let metadata := copyValid E 20 stMetadata ∅ in
                   if match metadata !! "Content-Type" with
                      | Some ctype => String.eqb ctype "application/octet-stream"
                      | None => false
                      end && negb (bool_decide (is_Some (minioObject reader)))
                   then
                     match probeContentType E reader with
                     | (_, Some err) => wlift (Fail err)
                     | (ctype, None) => wret (reader, <["Content-Type" := ctype]> metadata)
                     end
                   else wret (reader, metadata)
                 else wret (reader, ∅))) as [rest Hrest].
  exists rest. exact Hrest.
Qed.

Lemma putTargetStream_calls (E : Env) alias urlStr mode until lh reader limited size
    md sse md5 dm (P : Call -> Prop) :
  (forall a u l z m s x d, P (CallPut a u l z m s x d)) ->
  Forall P (putTargetStream E alias urlStr mode until lh reader limited size md sse md5 dm).1.
Proof.
  intros HP. unfold putTargetStream.
  apply wbind_Forall; [apply wlift_Forall|]. intros clnt _.
  destruct (Put clnt _ _ _ _ _ _ _) as [n err]. apply wcall_Forall, HP.
Qed.

Lemma metadataOrStat_calls (E : Env) urls sse preserve md (P : Call -> Prop) :
  (forall a u i p s, P (CallStat a u i p s)) ->
  Forall P (metadataOrStat E urls sse preserve md).1.
Proof.
  intros HP. unfold metadataOrStat.
  destruct (size md =? 0)%nat; [apply getAllMetadata_calls, HP|apply wret_Forall].
Qed.

Lemma filter_single_last (f g : Call -> bool) (pre : list Call) (x : Call) :
  Forall (fun c => g c = true) pre -> (forall c, g c = true -> f c = false) ->
  f x = true ->
  length (filter (fun c => f c = true) (pre ++ [x])) = 1%nat.
Proof.
  intros Hpre Hfg Hx. induction Hpre as [|c pre Hc _ IH]; simpl.
  - rewrite filter_cons_True by exact Hx. reflexivity.
  - rewrite filter_cons_False; [exact IH|].
    rewrite (Hfg c Hc). discriminate.
Qed.

(** Which calls the function can issue, branch by branch. *)
Lemma upload_calls (E : Env) urls encKeyDB preserve (P : Call -> Prop) :
  (forall a u i p s, P (CallStat a u i p s)) ->
  (forall a u m t b, P (CallPutObjectRetention a u m t b)) ->
  (SourceAlias urls = TargetAlias urls ->
   RetentionEnabled (SourceContent urls) = false ->
   forall a u s z x y m d, P (CallCopy a u s z x y m d)) ->
  (SourceAlias urls <> TargetAlias urls ->
   RetentionEnabled (SourceContent urls) = false ->
   (forall a u s, P (CallGet a u s)) /\
   (forall a u l z m s x d, P (CallPut a u l z m s x d))) ->
  Forall P (uploadSourceToTargetURL E urls encKeyDB preserve).1.
Proof.
  intros HS HR HC HGP. rewrite upload_trace.
  unfold uploadSourceToTargetURL_body.
  apply wbind_Forall; [rewrite retentionOverrides_silent; constructor|].
  intros retention _.
  apply wbind_Forall; [rewrite legalHoldOverride_silent; constructor|].
  intros legalHold _.
  destruct (String.eqb (SourceAlias urls) (TargetAlias urls)) eqn:Halias.
  - apply String.eqb_eq in Halias.
    apply wbind_Forall; [apply metadataOrStat_calls, HS|]. intros md _.
    destruct (RetentionEnabled (SourceContent urls)) eqn:Hsr.
    + apply putTargetRetention_calls, HR.
    + apply copySourceToTargetURL_calls, (HC Halias eq_refl).
  - apply String.eqb_neq in Halias.
    destruct (RetentionEnabled (SourceContent urls)) eqn:Hsr.
    + apply wbind_Forall; [apply metadataOrStat_calls, HS|]. intros md _.
      apply putTargetRetention_calls, HR.
    + destruct (HGP Halias eq_refl) as [HG HP].
      apply wbind_Forall; [apply getSourceStream_calls; [exact HS|exact HG]|].
      intros stream _.
      apply wbind_Forall; [apply putTargetStream_calls, HP|].
      intros n _. apply wret_Forall.
Qed.

(** C4, as amended: with the same alias no read stream is opened and
    nothing is put, and when the source content has no retention enabled and
    the steps before it succeed, exactly one [Copy] is issued, after at most
    a [Stat]; with different aliases no [Copy] is issued, and when the
    source content has no retention enabled and the steps before it
    succeed, the source is opened with [Get] and, once the stream and its
    metadata are there, written to the target with one [Put]. *)
Theorem upload_copy_or_stream (E : Env) (urls : URLs)
    (encKeyDB : gmap string (list prefixSSEPair)) (preserve : bool) :
  let sc := SourceContent urls in
  let tc := TargetContent urls in
  let srcSSE := getSSE E (ToSlash E (filepathJoin E (SourceAlias urls) (Path (URL sc))))
                  (default [] (encKeyDB !! SourceAlias urls)) in
  let calls := (uploadSourceToTargetURL E urls encKeyDB preserve).1 in
  (SourceAlias urls = TargetAlias urls ->
     Forall (fun c => isGet c = false /\ isPut c = false) calls) /\
  (SourceAlias urls <> TargetAlias urls ->
     Forall (fun c => isCopy c = false) calls) /\
  (RetentionEnabled sc = false ->
   forall mode until legalHold,
   retentionOverrides E urls = ([], Ok (mode, until)) ->
   legalHoldOverride E urls = ([], Ok legalHold) ->
   (SourceAlias urls = TargetAlias urls ->
    forall stats metadata clnt,
    metadataOrStat E urls srcSSE preserve (sourceLayers E urls) = (stats, Ok metadata) ->
    newClientFromAlias E (TargetAlias urls) (URLString (URL tc)) = Ok clnt ->
    exists copy, calls = stats ++ [copy] /\
                 copyTo (TargetAlias urls) (URLString (URL tc)) copy /\
                 Forall (fun c => isStatCall c = true) stats /\
                 length (filter (fun c => isCopy c = true) calls) = 1%nat) /\
   (SourceAlias urls <> TargetAlias urls ->
    forall clnt, newClientFromAlias E (SourceAlias urls) (URLString (URL sc)) = Ok clnt ->
    (exists rest, calls = CallGet (SourceAlias urls) (URLString (URL sc)) srcSSE :: rest) /\
    (forall opened reader base tclnt,
       getSourceStream E (SourceAlias urls) (URLString (URL sc)) true srcSSE preserve
         = (opened, Ok (reader, base)) ->
       newClientFromAlias E (TargetAlias urls) (URLString (URL tc)) = Ok tclnt ->
       exists put, calls = opened ++ [put] /\
                   putTo (TargetAlias urls) (URLString (URL tc)) put /\
                   length (filter (fun c => isPut c = true) calls) = 1%nat))).
Proof.
  intros sc tc srcSSE calls. subst calls. split; [|split].
  - intros Halias. apply upload_calls; try (intros; split; reflexivity).
    intros Hne. contradiction.
  - intros Halias. apply upload_calls; try (intros; reflexivity).
    + intros Heq. contradiction.
    + intros _ _. split; intros; reflexivity.
  - intros Hsr mode until legalHold Hret Hlh. split.
    + intros Halias stats metadata clnt Hmeta Hclnt.
      assert (Hstats : Forall (fun c => isStatCall c = true) stats).
      { change stats with (stats, Ok metadata : result (gmap string string)).1.
        rewrite <- Hmeta. apply metadataOrStat_calls. reflexivity. }
      assert (Htrace : exists copy,
                (uploadSourceToTargetURL E urls encKeyDB preserve).1 = stats ++ [copy]
                /\ copyTo (TargetAlias urls) (URLString (URL tc)) copy).
      { rewrite upload_trace. unfold uploadSourceToTargetURL_body.
        rewrite Hret, Hlh. cbn [wbind app fst snd].
        rewrite Halias, String.eqb_refl.
        subst srcSSE sc. rewrite Halias in Hmeta. rewrite Hmeta. cbn [wbind].
        rewrite Hsr. unfold copySourceToTargetURL. subst tc. rewrite Hclnt.
        unfold wlift, wcall, wbind. eexists. split; [reflexivity|].
        unfold copyTo. repeat eexists. }
      destruct Htrace as (copy & Htrace & Hcopy).
      exists copy. split; [exact Htrace|split; [exact Hcopy|split; [exact Hstats|]]].
      rewrite Htrace.
      apply (filter_single_last isCopy isStatCall); [exact Hstats| |].
      2: { destruct Hcopy as (? & ? & ? & ? & ? & ? & ->). reflexivity. }
      intros [] Hc; try discriminate Hc; reflexivity.
    + intros Halias clnt Hclnt.
      assert (Hbody : (uploadSourceToTargetURL E urls encKeyDB preserve).1 =
                (wbind (getSourceStream E (SourceAlias urls) (URLString (URL sc)) true
                          srcSSE preserve)
                   (fun stream =>
                      wbind (putTargetStream E (TargetAlias urls) (URLString (URL tc))
                               mode until legalHold stream.1 (negb (isReadAt stream.1))
                               (Size sc)
                               (filterMetadata E
                                  (mergeCanonical E 7 (UserMetadata tc)
                                     (mergeCanonical E 6 (Metadata tc) stream.2)))
                               (getSSE E (ToSlash E (filepathJoin E (TargetAlias urls)
                                                       (Path (URL tc))))
                                  (default [] (encKeyDB !! TargetAlias urls)))
                               (MD5 urls) (DisableMultipart urls))
                        (fun _ => wret tt))).1).
      { rewrite upload_trace. unfold uploadSourceToTargetURL_body.
        rewrite Hret, wbind_pure, Hlh, wbind_pure.
        apply String.eqb_neq in Halias. rewrite Halias.
        subst sc. rewrite Hsr. reflexivity. }
      rewrite Hbody. split.
      * destruct (getSourceStream_opens E _ _ true srcSSE preserve _ Hclnt)
          as [rest Hrest].
        match goal with
        | |- exists r, (wbind ?m ?f).1 = _ =>
            destruct (wbind_calls m f) as [rest' Hrest']
        end.
        exists (rest ++ rest'). rewrite Hrest', Hrest. reflexivity.
      * intros opened reader base tclnt Hstream Htclnt.
        assert (Hopened : Forall (fun c => isStatCall c = true \/ isGet c = true) opened).
        { change opened with (opened, Ok (reader, base) : result (Reader * gmap string string)).1.
          rewrite <- Hstream. apply getSourceStream_calls; intros; auto. }
        assert (Hput : exists put,
                  (wbind (getSourceStream E (SourceAlias urls) (URLString (URL sc)) true
                            srcSSE preserve)
                     (fun stream =>
                        wbind (putTargetStream E (TargetAlias urls) (URLString (URL tc))
                                 mode until legalHold stream.1 (negb (isReadAt stream.1))
                                 (Size sc)
                                 (filterMetadata E
                                    (mergeCanonical E 7 (UserMetadata tc)
                                       (mergeCanonical E 6 (Metadata tc) stream.2)))
                                 (getSSE E (ToSlash E (filepathJoin E (TargetAlias urls)
                                                         (Path (URL tc))))
                                    (default [] (encKeyDB !! TargetAlias urls)))
                                 (MD5 urls) (DisableMultipart urls))
                          (fun _ => wret tt))).1 = opened ++ [put]
                  /\ putTo (TargetAlias urls) (URLString (URL tc)) put).
        { rewrite Hstream. cbn [wbind fst snd].
          unfold putTargetStream. rewrite Htclnt. unfold wlift, wcall, wbind, wret.
          destruct (Put tclnt _ _ _ _ _ _ _) as [n [e|]]; cbn [fst snd app];
            rewrite ?app_nil_r; (eexists; split; [reflexivity|]);
            unfold putTo; repeat eexists. }
        destruct Hput as (put & Hput & Hisput).
        exists put. split; [exact Hput|split; [exact Hisput|]].
        rewrite Hput.
        apply (filter_single_last isPut (fun c => isStatCall c || isGet c));
          [|intros [] Hc; try discriminate Hc; reflexivity|].
        2: { destruct Hisput as (? & ? & ? & ? & ? & ? & ->). reflexivity. }
        eapply Forall_impl; [exact Hopened|].
        intros c [-> | ->]; [reflexivity|apply orb_true_r].
Qed.

Lemma upload_copy_or_stream_witness :
  (exists copy,
     (uploadSourceToTargetURL plainEnv sameAliasURLs ∅ false).1 = [] ++ [copy] /\
     copyTo "fsA" "/dest.txt" copy) /\
  (exists opened put,
     (uploadSourceToTargetURL readableEnv crossAliasURLs ∅ false).1 = opened ++ [put] /\
     head opened = Some (CallGet "fsA" "/file.txt" None) /\
     putTo "fsB" "/dest.txt" put).
Proof.
  split.
  - destruct (upload_copy_or_stream plainEnv sameAliasURLs ∅ false) as (_ & _ & H).
    destruct (H eq_refl "" "" "" eq_refl eq_refl) as [Hsame _].
    destruct (Hsame eq_refl [] (sourceLayers plainEnv sameAliasURLs)
                (demoClient [] quietWorker (Fail notFound)) eq_refl eq_refl)
      as (copy & Hcalls & Hcopy & _).
    exists copy. split; [exact Hcalls|exact Hcopy].
  - destruct (upload_copy_or_stream readableEnv crossAliasURLs ∅ false) as (_ & _ & H).
    destruct (H eq_refl "" "" "" eq_refl eq_refl) as [_ Hcross].
    destruct (Hcross ltac:(discriminate) _ eq_refl) as [_ Hput].
    destruct (getSourceStream readableEnv "fsA" "/file.txt" true None false)
      as [opened r] eqn:Hstream.
    vm_compute in Hstream. injection Hstream as <- <-.
    edestruct Hput as (put & Hcalls & Hto & _); [reflexivity|reflexivity|].
    eexists _, put. split; [exact Hcalls|split; [reflexivity|exact Hto]].
Defined.

(** C4 fails as stated: with the same alias and retention enabled on the
    source content no [Copy] is issued, and with different aliases and
    retention enabled on the source content no read stream is opened and
    nothing is put; the only call is the retention update. *)
Lemma upload_retention_issues_no_copy_no_stream :
  SourceAlias retentionOnlyURLs = TargetAlias retentionOnlyURLs /\
  (uploadSourceToTargetURL plainEnv retentionOnlyURLs ∅ false).1
    = [CallPutObjectRetention "fsA" "/dest.txt" "" 0 false] /\
  SourceAlias crossRetentionURLs <> TargetAlias crossRetentionURLs /\
  (uploadSourceToTargetURL plainEnv crossRetentionURLs ∅ false).1
    = [CallPutObjectRetention "fsB" "/dest.txt" "" 0 false].
Proof. vm_compute. repeat split; try reflexivity. discriminate. Qed.


(** C5: when the source content has retention enabled, the function issues
    no [Copy], no [Get] and no [Put]; once the overrides are validated and
    the source metadata is there, its only call besides the [Stat] that
    fetches missing metadata is one [PutObjectRetention] on the target, the
    last call of the trace, whose outcome is the outcome of the function. *)
Theorem upload_retention_only (E : Env) (urls : URLs)
    (encKeyDB : gmap string (list prefixSSEPair)) (preserve : bool) :
  RetentionEnabled (SourceContent urls) = true ->
  let sc := SourceContent urls in
  let tc := TargetContent urls in
  let srcSSE := getSSE E (ToSlash E (filepathJoin E (SourceAlias urls) (Path (URL sc))))
                  (default [] (encKeyDB !! SourceAlias urls)) in
  let out := uploadSourceToTargetURL E urls encKeyDB preserve in
  Forall (fun c => isCopy c = false /\ isGet c = false /\ isPut c = false) out.1 /\
  (forall mode until legalHold stats metadata clnt,
     retentionOverrides E urls = ([], Ok (mode, until)) ->
     legalHoldOverride E urls = ([], Ok legalHold) ->
     metadataOrStat E urls srcSSE preserve (sourceLayers E urls) = (stats, Ok metadata) ->
     newClientFromAlias E (TargetAlias urls) (URLString (URL tc)) = Ok clnt ->
     exists lockMode retainUntilDate,
       out.1 = stats ++ [CallPutObjectRetention (TargetAlias urls) (URLString (URL tc))
                           lockMode retainUntilDate false] /\
       Forall (fun c => isStatCall c = true) stats /\
       length (filter (fun c => isRetentionUpdate c = true) out.1) = 1%nat /\
       Error out.2 = PutObjectRetention clnt lockMode retainUntilDate false).
Proof.
  intros Hsr sc tc srcSSE out. subst out. split.
  - apply upload_calls; try (intros; repeat split; reflexivity).
    + intros _ Hno. subst sc. rewrite Hsr in Hno. discriminate.
    + intros _ Hno. rewrite Hsr in Hno. discriminate.
  - intros mode until legalHold stats metadata clnt Hret Hlh Hmeta Hclnt.
    assert (Hstats : Forall (fun c => isStatCall c = true) stats).
    { change stats with (stats, Ok metadata : result (gmap string string)).1.
      rewrite <- Hmeta. apply metadataOrStat_calls. reflexivity. }
    assert (Hout : exists lockMode retainUntilDate,
              uploadSourceToTargetURL E urls encKeyDB preserve
              = (stats ++ [CallPutObjectRetention (TargetAlias urls) (URLString (URL tc))
                             lockMode retainUntilDate false],
                 WithError urls (PutObjectRetention clnt lockMode retainUntilDate false))).
    { unfold uploadSourceToTargetURL, uploadSourceToTargetURL_body.
      rewrite Hret, wbind_pure, Hlh, wbind_pure.
      subst srcSSE sc tc. rewrite Hmeta, Hsr.
      destruct (String.eqb (SourceAlias urls) (TargetAlias urls));
        cbn [wbind]; unfold putTargetRetention; rewrite Hclnt;
        unfold wlift; rewrite wbind_pure; unfold wcall, errOf;
        match goal with
        | |- context [PutObjectRetention clnt ?m ?t false] =>
            exists m, t; destruct (PutObjectRetention clnt m t false); reflexivity
        end. }
    destruct Hout as (lockMode & retainUntilDate & Hout).
    exists lockMode, retainUntilDate. rewrite Hout. cbn [fst snd].
    split; [reflexivity|split; [exact Hstats|split; [|reflexivity]]].
    apply (filter_single_last isRetentionUpdate isStatCall);
      [exact Hstats|intros [] Hc; try discriminate Hc; reflexivity|reflexivity].
Qed.

Lemma upload_retention_only_witness :
  RetentionEnabled (SourceContent retentionOnlyURLs) = true /\
  Forall (fun c => isCopy c = false /\ isGet c = false /\ isPut c = false)
         (uploadSourceToTargetURL plainEnv retentionOnlyURLs ∅ false).1.
Proof.
  split; [reflexivity|].
  exact (proj1 (upload_retention_only plainEnv retentionOnlyURLs ∅ false eq_refl)).
Defined.

(** ** The [rm] command *)

Example removeRecursive_scenario :
  let o := removeRecursive (scenarioEnv agedListing quietWorker)
             "s3/bucket/prefix/" false false false "90d" "" ∅ in
  map (fun c => Path (URL c)) (sentOf (events o))
  = ["/bucket/prefix/b"; "/bucket/prefix/c"] /\ ret o = RetNil.
Proof. vm_compute. split; reflexivity. Qed.

(** *** Reading the events *)

Lemma sentOf_app a b : sentOf (a ++ b) = sentOf a ++ sentOf b.
Proof. apply omap_app. Qed.

Lemma printedOf_app a b : printedOf (a ++ b) = printedOf a ++ printedOf b.
Proof. apply omap_app. Qed.

Lemma closes_app a b : closes (a ++ b) = (closes a + closes b)%nat.
Proof. unfold closes. rewrite List.filter_app, length_app. reflexivity. Qed.

Lemma closes_cons e l :
  closes (e :: l) = ((if isClose e then 1 else 0) + closes l)%nat.
Proof. unfold closes. simpl. destruct (isClose e); reflexivity. Qed.

Lemma afterFirstBad_app a b :
  afterFirstBad (a ++ b)
  = match afterFirstBad a with
    | Some post => Some (post ++ b)
    | None => afterFirstBad b
    end.
Proof.
  induction a as [|[e msg|m|i r y|c|] a IH]; simpl; try exact IH; [reflexivity|].
  destruct (isPathInsufficientPermission e); [exact IH|reflexivity].
Qed.

(** The [select]: its reports are permission failures, except the last one
    when it ends the function. *)
Lemma selectSend_events (urlString : string) (pending : list GoError) :
  forall logs r, selectSend urlString pending = (logs, r) ->
  sentOf logs = [] /\ printedOf logs = [] /\ closes logs = 0%nat /\
  afterFirstBad logs = match r with None => None | Some _ => Some [] end.
Proof.
  induction pending as [|e rest IH]; simpl; intros logs r H.
  - injection H as <- <-. repeat split; reflexivity.
  - destruct (isPathInsufficientPermission e) eqn:He.
    + destruct (selectSend urlString rest) as [evs r'].
      injection H as <- <-. destruct (IH evs r' eq_refl) as (Hs & Hp & Hc & Ha).
      simpl. rewrite He. repeat split; assumption.
    + injection H as <- <-. simpl. rewrite He. repeat split; reflexivity.
Qed.

(** The [select] takes the failures in order and stops at the first that is
    not a permission failure. *)
Lemma selectSend_pending (urlString : string) (pending : list GoError) :
  forall logs r, selectSend urlString pending = (logs, r) ->
  match r with
  | None => loggedOf logs = pending /\ Forall (fun e => isPathInsufficientPermission e = true) pending
  | Some remaining => exists e, pending = loggedOf logs ++ remaining
                                /\ last (loggedOf logs) = Some e
                                /\ isPathInsufficientPermission e = false
  end.
Proof.
  induction pending as [|e rest IH]; simpl; intros logs r H.
  - injection H as <- <-. split; [reflexivity|constructor].
  - destruct (isPathInsufficientPermission e) eqn:He.
    + destruct (selectSend urlString rest) as [evs r'].
      injection H as <- <-. specialize (IH evs r' eq_refl).
      destruct r' as [remaining|].
      * destruct IH as (e' & Hp & Hl & He'). exists e'. simpl.
        split; [f_equal; exact Hp|split; [|exact He']].
        destruct (loggedOf evs); [discriminate|exact Hl].
      * destruct IH as [Hl Hall]. simpl. split; [f_equal; exact Hl|].
        constructor; assumption.
    + injection H as <- <-. exists e. simpl. repeat split. exact He.
Qed.

(** *** The feed loop *)

Ltac feed_cases H :=
  simpl in H;
  repeat match type of H with
    | context [match Err ?c with _ => _ end] =>
        destruct (Err c) as [?err|] eqn:?
    | context [if isPathInsufficientPermission ?e then _ else _] =>
        destruct (isPathInsufficientPermission e) eqn:?
    | context [IsZero ?t] => destruct (IsZero t) eqn:?; simpl in H
    | context [match ageSkip ?E ?t ?o ?n with _ => _ end] =>
        destruct (ageSkip E t o n) as [[|]|] eqn:?
    | context [negb ?b] => destruct b eqn:?; simpl in H
    | context [match selectSend ?u ?p with _ => _ end] =>
        destruct (selectSend u p) as [?logs [?remaining|]] eqn:?
    | context [let '(_, _) := feedLoop ?E ?u ?a ?f ?o ?n ?w ?l ?s ?p in _] =>
        destruct (feedLoop E u a f o n w l s p) as [?evs ?r] eqn:?
    end;
  try (injection H as <- <-).

(** Bring in what is known of the [select] and of the rest of the loop. *)
Ltac feed_facts IH :=
  try match goal with
    | Hs : selectSend _ _ = _ |- _ =>
        destruct (selectSend_events _ _ _ _ Hs) as (?Hsent & ?Hprinted & ?Hcloses & ?Hbad)
    end;
  try match goal with
    | Hf : feedLoop _ _ _ _ _ _ _ _ _ _ = _ |- _ => specialize (IH _ _ _ _ Hf)
    end.

Section FeedLoop.

Variable E : Env.
Variables url targetAlias : string.
Variable isFake : bool.
Variables olderThan newerThan : string.
Variable worker : RemoveWorker.

Let feed := feedLoop E url targetAlias isFake olderThan newerThan worker.
Let cand := candidate E olderThan newerThan.
Let tgt := targeted E olderThan newerThan.

(** The descriptors the worker has taken are those sent. *)
Lemma feedLoop_sent (listing : list ClientContent) :
  forall sent pending evs r, feed listing sent pending = (evs, r) ->
  match r with
  | FeedDone sent' _ | FeedAbort sent' _ => sent' = sent ++ sentOf evs
  | FeedFatal => True
  end.
Proof.
  unfold feed.
  induction listing as [|c more IH]; intros sent pending evs r H.
  - injection H as <- <-. simpl. rewrite app_nil_r. reflexivity.
  - feed_cases H; feed_facts IH; simpl;
      rewrite ?sentOf_app; simpl; rewrite ?app_nil_r;
      try reflexivity; try exact IH; try exact I.
    + rewrite Hsent, app_nil_r. reflexivity.
    + rewrite Hsent. simpl.
      destruct r0; simpl in *; try exact I; rewrite IH, <- app_assoc; reflexivity.
Qed.

(** How the loop ends shows in its events: an early return follows the
    report of a failure that is not a permission failure and the closing
    of the feed channel; otherwise no such failure was reported and the
    channel is still open. *)
Lemma feedLoop_shape (listing : list ClientContent) :
  forall sent pending evs r, feed listing sent pending = (evs, r) ->
  match r with
  | FeedAbort _ _ => afterFirstBad evs = Some [RmClose] /\ closes evs = 1%nat
  | _ => afterFirstBad evs = None /\ closes evs = 0%nat
  end.
Proof.
  unfold feed.
  induction listing as [|c more IH]; intros sent pending evs r H.
  - injection H as <- <-. split; reflexivity.
  - feed_cases H; feed_facts IH; simpl;
      rewrite ?afterFirstBad_app, ?closes_cons, ?closes_app, ?closes_cons; simpl;
      repeat match goal with Hp : isPathInsufficientPermission _ = _ |- _ =>
               rewrite Hp; clear Hp end;
      try (split; reflexivity); try exact IH.
    + rewrite Hbad, Hcloses. split; reflexivity.
    + rewrite Hbad, Hcloses. simpl. destruct r0; exact IH.
Qed.

(** What is sent and what is printed are beginnings of what the run
    targets. *)
Lemma feedLoop_prefix (listing : list ClientContent) :
  forall sent pending evs r, feed listing sent pending = (evs, r) ->
  (isFake = true -> sentOf evs = []) /\
  (isFake = false -> sentOf evs `prefix_of` tgt listing) /\
  printedOf evs `prefix_of` map (msgOf targetAlias) (tgt listing).
Proof.
  unfold feed, tgt.
  induction listing as [|c more IH]; intros sent pending evs r H.
  - injection H as <- <-. repeat split; try reflexivity; intros; apply prefix_nil.
  - feed_cases H; feed_facts IH; simpl; rewrite ?sentOf_app, ?printedOf_app; simpl;
      repeat match goal with
        | Hx : isFake = _ |- _ => rewrite Hx in *; clear Hx
        | Hx : _ = _ |- _ => rewrite Hx; clear Hx
        end;
      simpl;
      try (repeat split; try reflexivity; intros; apply prefix_nil);
      try exact IH.
    + destruct IH as (Hf & _ & Hp).
      split; [exact Hf|split; [discriminate|apply prefix_cons, Hp]].
    + split; [discriminate|].
      split; [intros _; apply prefix_nil|apply prefix_cons, prefix_nil].
    + destruct IH as (_ & Hs & Hp). split; [discriminate|].
      split; [intros _; apply prefix_cons, Hs; reflexivity|apply prefix_cons, Hp].
Qed.

(** A loop that reaches the end of the listing has printed, and when not
    fake has sent, every entry that the filters let through. *)
Lemma feedLoop_done (listing : list ClientContent) :
  forall sent pending evs sent' pending',
  feed listing sent pending = (evs, FeedDone sent' pending') ->
  tgt listing = List.filter cand listing /\
  printedOf evs = map (msgOf targetAlias) (List.filter cand listing) /\
  (isFake = false -> sentOf evs = List.filter cand listing).
Proof.
  unfold feed, tgt.
  induction listing as [|c more IH]; intros sent pending evs sent' pending' H.
  - injection H as <- _ _. repeat split.
  - change (List.filter cand (c :: more))
      with (if cand c then c :: List.filter cand more else List.filter cand more).
    destruct (cand c) eqn:Hc; unfold cand, candidate in Hc;
      feed_cases H; try discriminate;
      try (injection H as <- Hr;
           match goal with Hr : ?r = FeedDone _ _ |- _ => subst r end);
      try match goal with
        | Hs : selectSend _ _ = _ |- _ =>
            destruct (selectSend_events _ _ _ _ Hs) as (Hsent & Hprinted & _)
        end;
      match goal with
      | Hf : feedLoop _ _ _ _ _ _ _ _ _ _ = _ |- _ =>
          destruct (IH _ _ _ _ _ Hf) as (Ht & Hp & Hs)
      end;
      cbn [targeted];
      repeat match goal with
        | Hx : isFake = _ |- _ => rewrite Hx in *; clear Hx
        | Hx : Err _ = _ |- _ => rewrite Hx in *; clear Hx
        | Hx : isPathInsufficientPermission _ = _ |- _ => rewrite Hx in *; clear Hx
        | Hx : IsZero _ = _ |- _ => rewrite Hx in *; clear Hx
        | Hx : ageSkip _ _ _ _ = _ |- _ => rewrite Hx in *; clear Hx
        end;
      try discriminate Hc;
      simpl; rewrite ?sentOf_app, ?printedOf_app; simpl;
      rewrite ?Hsent, ?Hprinted; simpl;
      rewrite ?Ht, ?Hp;
      (split; [reflexivity|split; [reflexivity|]]);
      intros Hno; try discriminate Hno;
      rewrite ?(Hs Hno); reflexivity.
Qed.

(** A fake run prints every entry that the run targets and sends
    nothing. *)
Lemma feedLoop_fake (listing : list ClientContent) :
  isFake = true ->
  forall sent pending evs r, feed listing sent pending = (evs, r) ->
  printedOf evs = map (msgOf targetAlias) (tgt listing).
Proof.
  unfold feed, tgt. intros Hfake.
  induction listing as [|c more IH]; intros sent pending evs r H.
  - injection H as <- <-. reflexivity.
  - feed_cases H; try congruence; feed_facts IH; cbn [targeted];
      repeat match goal with
        | Hx : Err _ = _ |- _ => rewrite Hx in *; clear Hx
        | Hx : isPathInsufficientPermission _ = _ |- _ => rewrite Hx in *; clear Hx
        | Hx : IsZero _ = _ |- _ => rewrite Hx in *; clear Hx
        | Hx : ageSkip _ _ _ _ = _ |- _ => rewrite Hx in *; clear Hx
        end;
      simpl; rewrite ?IH; reflexivity.
Qed.

(** With a worker whose failures all are permission failures, a run that
    is not fake sends and prints every entry that the run targets. *)
Lemma feedLoop_tolerant_worker (listing : list ClientContent) :
  isFake = false ->
  (forall sent c, Forall (fun e => isPathInsufficientPermission e = true)
                         (emit worker sent c)) ->
  forall sent pending evs r,
  Forall (fun e => isPathInsufficientPermission e = true) pending ->
  feed listing sent pending = (evs, r) ->
  sentOf evs = tgt listing /\
  printedOf evs = map (msgOf targetAlias) (tgt listing) /\
  match r with
  | FeedDone _ pending' =>
      Forall (fun e => isPathInsufficientPermission e = true) pending'
  | _ => True
  end.
Proof.
  unfold feed, tgt. intros Hfake Hworker.
  induction listing as [|c more IH]; intros sent pending evs r Hpending H.
  - injection H as <- <-. repeat split. exact Hpending.
  - feed_cases H; try congruence;
      try match goal with
        | Hs : selectSend _ _ = _ |- _ =>
            pose proof (selectSend_pending _ _ _ _ Hs) as Hsel;
            destruct (selectSend_events _ _ _ _ Hs) as (Hsent & Hprinted & _)
        end;
      try match goal with
        | Hf : feedLoop _ _ _ _ _ _ _ _ _ _ = _ |- _ =>
            apply IH in Hf; [destruct Hf as (Hs' & Hp' & Hr')|auto]
        end;
      cbn [targeted];
      repeat match goal with
        | Hx : Err _ = _ |- _ => rewrite Hx in *; clear Hx
        | Hx : isPathInsufficientPermission _ = _ |- _ => rewrite Hx in *; clear Hx
        | Hx : IsZero _ = _ |- _ => rewrite Hx in *; clear Hx
        | Hx : ageSkip _ _ _ _ = _ |- _ => rewrite Hx in *; clear Hx
        end;
      simpl; rewrite ?sentOf_app, ?printedOf_app; simpl;
      rewrite ?Hsent, ?Hprinted; simpl; rewrite ?Hs', ?Hp';
      try (repeat split; solve [reflexivity|assumption|exact I]).
    exfalso. destruct Hsel as (e & Hsplit & Hlast & Hbad).
    assert (Hin : e ∈ pending).
    { rewrite Hsplit. apply elem_of_app. left.
      apply last_Some_elem_of. exact Hlast. }
    rewrite Forall_forall in Hpending. rewrite (Hpending e Hin) in Hbad.
    discriminate.
Qed.

(** When neither the listing nor the worker reports a failure other than
    permission failures, the loop does not return early. *)
Lemma feedLoop_tolerant (listing : list ClientContent) :
  (forall c e, c ∈ listing -> Err c = Some e ->
               isPathInsufficientPermission e = true) ->
  (forall sent c, Forall (fun e => isPathInsufficientPermission e = true)
                         (emit worker sent c)) ->
  forall sent pending evs r,
  Forall (fun e => isPathInsufficientPermission e = true) pending ->
  feed listing sent pending = (evs, r) ->
  match r with
  | FeedDone _ pending' =>
      Forall (fun e => isPathInsufficientPermission e = true) pending'
  | FeedAbort _ _ => False
  | FeedFatal => True
  end.
Proof.
  unfold feed. intros Hlisting Hworker.
  induction listing as [|c more IH]; intros sent pending evs r Hpending H.
  - injection H as <- <-. exact Hpending.
  - assert (IH' := IH (fun c' e Hin => Hlisting c' e (proj2 (elem_of_cons _ _ _) (or_intror Hin)))).
    feed_cases H;
      try match goal with
        | Hs : selectSend _ _ = _ |- _ =>
            pose proof (selectSend_pending _ _ _ _ Hs) as Hsel
        end;
      try match goal with
        | Hf : feedLoop _ _ _ _ _ _ _ _ _ _ = _ |- _ =>
            apply IH' in Hf; [exact Hf|auto]
        end;
      try exact I.
    + match goal with
      | Hx : Err c = Some ?e, Hp : isPathInsufficientPermission ?e = false |- _ =>
          rewrite (Hlisting c e (proj2 (elem_of_cons _ _ _) (or_introl eq_refl)) Hx) in Hp; discriminate
      end.
    + destruct Hsel as (e & Hsplit & Hlast & Hbad).
      assert (Hin : e ∈ pending).
      { rewrite Hsplit. apply elem_of_app. left.
        apply last_Some_elem_of. exact Hlast. }
      rewrite Forall_forall in Hpending. rewrite (Hpending e Hin) in Hbad.
      discriminate.
Qed.

End FeedLoop.

(** *** Draining the error channel *)

Lemma drainErrors_events (E : Env) (msg : string) (errs : list GoError) :
  let o := drainErrors E msg errs in
  sentOf (events o) = [] /\ printedOf (events o) = [] /\ closes (events o) = 0%nat /\
  loggedOf (events o) ++ undrained o = errs /\
  ((ret o = RetNil /\ undrained o = [] /\ afterFirstBad (events o) = None /\
    Forall (fun e => isPathInsufficientPermission e = true) errs)
   \/ (ret o = RetExitStatus (globalErrorExitStatus E) /\
       afterFirstBad (events o) = Some [])).
Proof.
  induction errs as [|e rest IH]; simpl.
  - repeat split. left. repeat split. constructor.
  - destruct (isPathInsufficientPermission e) eqn:He; simpl.
    + destruct IH as (Hs & Hp & Hc & Hl & Hr). rewrite He.
      split; [exact Hs|split; [exact Hp|split; [exact Hc|split; [f_equal; exact Hl|]]]].
      destruct Hr as [(Hr & Hu & Ha & Hall)|(Hr & Ha)].
      * left. repeat split; try assumption. constructor; assumption.
      * right. split; assumption.
    + rewrite He. repeat split. right. split; reflexivity.
Qed.

(** *** Recursive removal *)

(** [removeRecursive], once the client is there, in terms of its feed
    loop. *)
Lemma removeRecursive_run (E : Env) (url : string) (isIncomplete isFake isBypass : bool)
    (olderThan newerThan : string) (encKeyDB : gmap string (list prefixSSEPair))
    (clnt : Client) (evs : list RmEvent) (r : FeedEnd) :
  newClientFromAlias E (mustExpandAlias E url).1 (mustExpandAlias E url).2 = Ok clnt ->
  feedLoop E url (mustExpandAlias E url).1 isFake olderThan newerThan
    (Remove clnt isIncomplete false isBypass)
    (List clnt true isIncomplete false DirNone) [] [] = (evs, r) ->
  removeRecursive E url isIncomplete isFake isBypass olderThan newerThan encKeyDB
  = match r with
    | FeedFatal =>
        {| events := RmRemoveCall isIncomplete false isBypass :: evs;
           ret := RetFatal; undrained := [] |}
    | FeedAbort sent remaining =>
        {| events := RmRemoveCall isIncomplete false isBypass :: evs;
           ret := RetExitStatus (globalErrorExitStatus E);
           undrained := remaining ++ flush (Remove clnt isIncomplete false isBypass) sent |}
    | FeedDone sent pending =>
        let o := drainErrors E ("Failed to remove `" +:+ url +:+ "` recursively.")
                   (pending ++ flush (Remove clnt isIncomplete false isBypass) sent) in
        {| events := RmRemoveCall isIncomplete false isBypass :: evs ++ RmClose :: events o;
           ret := ret o; undrained := undrained o |}
    end.
Proof.
  unfold removeRecursive. destruct (mustExpandAlias E url) as [targetAlias targetURL].
  simpl. intros -> ->. destruct r; reflexivity.
Qed.

Lemma uptoFirstBad_good (good rest : list GoError) :
  Forall permission good ->
  uptoFirstBad (good ++ rest) = good ++ uptoFirstBad rest.
Proof.
  induction 1 as [|e good He _ IH]; simpl; [reflexivity|].
  rewrite He, IH. reflexivity.
Qed.

Lemma uptoFirstBad_all (errs : list GoError) :
  Forall permission errs -> uptoFirstBad errs = errs.
Proof.
  intros H. rewrite <- (app_nil_r errs) at 1.
  rewrite (uptoFirstBad_good _ _ H). simpl. apply app_nil_r.
Qed.

Lemma uptoFirstBad_bad (good : list GoError) (bad : GoError) (rest : list GoError) :
  Forall permission good -> isPathInsufficientPermission bad = false ->
  uptoFirstBad (good ++ bad :: rest) = good ++ [bad].
Proof.
  intros Hgood Hbad. rewrite (uptoFirstBad_good _ _ Hgood). simpl.
  rewrite Hbad. reflexivity.
Qed.

(** The drain loop receives the failures in order, up to the first that is
    not a permission failure, and reports each. *)
Lemma drainErrors_receives (E : Env) (msg : string) (errs : list GoError) :
  let o := drainErrors E msg errs in
  events o = reports msg (uptoFirstBad errs) /\
  uptoFirstBad errs ++ undrained o = errs /\
  (ret o = RetNil <-> Forall permission errs) /\
  (ret o <> RetNil -> ret o = RetExitStatus (globalErrorExitStatus E)).
Proof.
  induction errs as [|e rest IH]; simpl.
  - repeat split; [constructor|contradiction].
  - destruct (isPathInsufficientPermission e) eqn:He; simpl.
    + destruct IH as (Hev & Hun & Hiff & Hret).
      rewrite Hev. split; [reflexivity|]. split; [f_equal; exact Hun|].
      split; [|exact Hret]. rewrite Hiff. split.
      * intros H. constructor; assumption.
      * intros H. apply Forall_cons in H as [_ H]. exact H.
    + repeat split; try discriminate.
      intros H. apply Forall_cons in H as [H _]. rewrite He in H. discriminate.
Qed.

Lemma loggedOf_reports (msg : string) (errs : list GoError) :
  loggedOf (reports msg errs) = errs.
Proof. induction errs as [|e errs IH]; simpl; [reflexivity|f_equal; exact IH]. Qed.

Lemma loggedOf_app (a b : list RmEvent) : loggedOf (a ++ b) = loggedOf a ++ loggedOf b.
Proof. apply omap_app. Qed.

(** The [select] receives the failures that the worker holds in order, up to
    the first that is not a permission failure, and reports each; it sends
    when all of them are permission failures. *)
Lemma selectSend_receives (urlString : string) (pending : list GoError) :
  forall logs r, selectSend urlString pending = (logs, r) ->
  logs = reports ("Failed to remove `" +:+ urlString +:+ "`.") (uptoFirstBad pending) /\
  match r with
  | None => Forall permission pending
  | Some remaining =>
      uptoFirstBad pending ++ remaining = pending /\ ~ Forall permission pending
  end.
Proof.
  induction pending as [|e rest IH]; simpl; intros logs r H.
  - injection H as <- <-. split; [reflexivity|constructor].
  - destruct (isPathInsufficientPermission e) eqn:He.
    + destruct (selectSend urlString rest) as [evs r'].
      injection H as <- <-. destruct (IH evs r' eq_refl) as [Hl Hr].
      split; [rewrite Hl; reflexivity|].
      destruct r' as [remaining|].
      * destruct Hr as [Heq Hnot]. split; [simpl; f_equal; exact Heq|].
        intros H. apply Forall_cons in H as [_ H]. exact (Hnot H).
      * constructor; assumption.
    + injection H as <- <-. split; [reflexivity|]. split; [reflexivity|].
      intros H. apply Forall_cons in H as [H _]. rewrite He in H. discriminate.
Qed.

Lemma uptoFirstBad_cut (errs rest : list GoError) :
  ~ Forall permission errs -> uptoFirstBad (errs ++ rest) = uptoFirstBad errs.
Proof.
  induction errs as [|e errs IH]; intros Hnot; [exfalso; apply Hnot; constructor|].
  simpl. destruct (isPathInsufficientPermission e) eqn:He; [|reflexivity].
  f_equal. apply IH. intros H. apply Hnot. constructor; assumption.
Qed.

Lemma not_Forall_app_l (errs rest : list GoError) :
  ~ Forall permission errs -> ~ Forall permission (errs ++ rest).
Proof. intros Hnot H. apply Forall_app in H as [H _]. exact (Hnot H). Qed.

Lemma not_Forall_app_r (errs rest : list GoError) :
  ~ Forall permission rest -> ~ Forall permission (errs ++ rest).
Proof. intros Hnot H. apply Forall_app in H as [_ H]. exact (Hnot H). Qed.

Lemma sentOf_reports (msg : string) (errs : list GoError) :
  sentOf (reports msg errs) = [].
Proof. induction errs as [|e errs IH]; simpl; [reflexivity|exact IH]. Qed.

Section FeedFailures.

Variable E : Env.
Variables url targetAlias : string.
Variable isFake : bool.
Variables olderThan newerThan : string.
Variable worker : RemoveWorker.

(** The feed loop receives the failures in the order of [deliveries]: all
    those that precede what the worker holds at the end when it reaches the
    end of the listing, all of them permission failures; up to and
    including the first that is not a permission failure when it returns
    early. *)
Lemma feedLoop_receives (listing : list ClientContent) :
  forall sent pending evs r,
  feedLoop E url targetAlias isFake olderThan newerThan worker listing sent pending
  = (evs, r) ->
  let D := deliveries E isFake olderThan newerThan worker listing sent pending in
  match r with
  | FeedDone sent' pending' =>
      Forall permission (loggedOf evs) /\
      D = loggedOf evs ++ pending' ++ flush worker sent'
  | FeedAbort _ _ =>
      loggedOf evs = uptoFirstBad D /\ ~ Forall permission D
  | FeedFatal => True
  end.
Proof.
  induction listing as [|c more IH]; intros sent pending evs r H.
  - injection H as <- <-. split; [constructor|reflexivity].
  - cbn [deliveries]. unfold candidate.
    feed_cases H;
      try match goal with
        | Hs : selectSend _ _ = _ |- _ =>
            destruct (selectSend_receives _ _ _ _ Hs) as [Hlogs Hsel]
        end;
      try match goal with
        | Hf : feedLoop _ _ _ _ _ _ _ _ _ _ = _ |- _ => specialize (IH _ _ _ _ Hf)
        end;
      cbv zeta in *; cbn [negb andb];
      try exact IH; try exact I.
    + match goal with
      | |- context [loggedOf (RmErrorIf ?e ?m :: ?l)] =>
          change (loggedOf (RmErrorIf e m :: l)) with (e :: loggedOf l)
      end.
      destruct r0 as [sent' pending'|sent' remaining|]; [| |exact I].
      * destruct IH as [Hall HD]. split; [constructor; assumption|].
        rewrite HD. reflexivity.
      * destruct IH as [Hlog Hnot]. split.
        -- cbn [uptoFirstBad]. rewrite Heqb, Hlog. reflexivity.
        -- apply (not_Forall_app_r [err]). exact Hnot.
    + split.
      * cbn [uptoFirstBad]. rewrite Heqb. reflexivity.
      * intros H. apply Forall_cons in H as [H _]. rewrite Heqb in H. discriminate.
    + destruct Hsel as [Hcut Hnot]. split.
      * rewrite (uptoFirstBad_cut _ _ Hnot), Hlogs.
        change (loggedOf (reports ("Failed to remove `" +:+ Path (URL c) +:+ "`.")
                            (uptoFirstBad pending) ++ [RmClose])
                = uptoFirstBad pending).
        rewrite loggedOf_app, loggedOf_reports. apply app_nil_r.
      * apply not_Forall_app_l. exact Hnot.
    + assert (Hlog : forall rest,
                loggedOf (RmPrintMsg {| Status := ""; Key := targetAlias +:+ Path (URL c);
                                        MsgSize := Size c |}
                          :: logs ++ RmSend c :: rest)
                = pending ++ loggedOf rest).
      { intros rest.
        change (loggedOf (logs ++ RmSend c :: rest) = pending ++ loggedOf rest).
        rewrite loggedOf_app, Hlogs, loggedOf_reports, (uptoFirstBad_all _ Hsel).
        reflexivity. }
      rewrite Hlog.
      destruct r0 as [sent' pending'|sent' remaining|]; [| |exact I].
      * destruct IH as [Hall HD]. split; [apply Forall_app; split; assumption|].
        rewrite HD, <- app_assoc. reflexivity.
      * destruct IH as [Hl Hnot]. split.
        -- rewrite (uptoFirstBad_good _ _ Hsel), Hl. reflexivity.
        -- apply not_Forall_app_r. exact Hnot.
Qed.

(** No failure is lost in the loop: what it has received and what the
    worker holds when it ends are the errors of the listing that it has
    come to, what the worker held at the start, and what the worker has
    reported for the descriptors that it has taken. *)
Lemma feedLoop_conserves (listing : list ClientContent) :
  forall sent pending evs r,
  feedLoop E url targetAlias isFake olderThan newerThan worker listing sent pending
  = (evs, r) ->
  exists fromListing : list GoError,
    (fromListing `prefix_of` listedErrors listing) /\
    match r with
    | FeedDone _ held =>
        fromListing = listedErrors listing /\
        (loggedOf evs ++ held
         ≡ₚ fromListing ++ pending ++ emitted worker sent (sentOf evs))
    | FeedAbort _ held =>
        (loggedOf evs ++ held
         ≡ₚ fromListing ++ pending ++ emitted worker sent (sentOf evs))
    | FeedFatal => True
    end.
Proof.
  induction listing as [|c more IH]; intros sent pending evs r H.
  - injection H as <- <-. exists []. split; [reflexivity|].
    split; [reflexivity|]. simpl. rewrite app_nil_r. reflexivity.
  - unfold listedErrors. cbn [omap list_omap]. fold (listedErrors more).
    feed_cases H;
      try match goal with
        | Hs : selectSend _ _ = _ |- _ =>
            destruct (selectSend_receives _ _ _ _ Hs) as [Hlogs Hsel]
        end;
      try match goal with
        | Hf : feedLoop _ _ _ _ _ _ _ _ _ _ = _ |- _ =>
            destruct (IH _ _ _ _ Hf) as (fromListing & Hpre & Hrest)
        end;
      repeat match goal with
        | Hx : Err c = _ |- _ => rewrite Hx; clear Hx
        end;
      try (exists fromListing; split; [exact Hpre|exact Hrest]);
      try (exists []; split; [apply prefix_nil|exact I]).
    + exists (err :: fromListing). split; [apply prefix_cons, Hpre|].
      match goal with
      | |- context [loggedOf (RmErrorIf ?e ?m :: ?l)] =>
          change (loggedOf (RmErrorIf e m :: l)) with (e :: loggedOf l);
          change (sentOf (RmErrorIf e m :: l)) with (sentOf l)
      end.
      destruct r0 as [sent' held|sent' held|]; [| |exact I].
      * destruct Hrest as [-> Hperm]. split; [reflexivity|].
        simpl. constructor. exact Hperm.
      * simpl. constructor. exact Hrest.
    + exists [err]. split; [apply prefix_cons, prefix_nil|].
      simpl. rewrite app_nil_r. reflexivity.
    + exists []. split; [apply prefix_nil|].
      match goal with
      | |- context [loggedOf (RmPrintMsg ?m :: ?l)] =>
          change (loggedOf (RmPrintMsg m :: l)) with (loggedOf l);
          change (sentOf (RmPrintMsg m :: l)) with (sentOf l)
      end.
      rewrite loggedOf_app, sentOf_app, Hlogs, loggedOf_reports, sentOf_reports.
      simpl. rewrite !app_nil_r. destruct Hsel as [Hcut _]. rewrite Hcut. reflexivity.
    + exists fromListing. split; [exact Hpre|].
      match goal with
      | |- context [loggedOf (RmPrintMsg ?m :: ?l ++ RmSend ?d :: ?l')] =>
          change (loggedOf (RmPrintMsg m :: l ++ RmSend d :: l'))
            with (loggedOf (l ++ RmSend d :: l'));
          change (sentOf (RmPrintMsg m :: l ++ RmSend d :: l'))
            with (sentOf (l ++ RmSend d :: l'))
      end.
      rewrite loggedOf_app, sentOf_app, Hlogs, loggedOf_reports, sentOf_reports,
        (uptoFirstBad_all _ Hsel).
      change (loggedOf (RmSend c :: evs0)) with (loggedOf evs0).
      change (sentOf (RmSend c :: evs0)) with (c :: sentOf evs0).
      cbn [app emitted].
      assert (Hgoal : forall held,
                loggedOf evs0 ++ held
                ≡ₚ fromListing ++ emit worker sent c
                   ++ emitted worker (sent ++ [c]) (sentOf evs0) ->
                (pending ++ loggedOf evs0) ++ held
                ≡ₚ fromListing ++ pending
                   ++ emit worker sent c ++ emitted worker (sent ++ [c]) (sentOf evs0)).
      { intros held Hperm. rewrite <- app_assoc, Hperm.
        rewrite !app_assoc. apply Permutation_app_tail, Permutation_app_tail.
        apply Permutation_app_comm. }
      destruct r0 as [sent' held|sent' held|]; [| |exact I].
      * destruct Hrest as [Heq Hperm]. split; [exact Heq|apply Hgoal, Hperm].
      * apply Hgoal, Hrest.
Qed.

End FeedFailures.

(** *** The failures of a recursive removal *)

(** A recursive removal receives the failures in the order of
    [deliveries], up to and including the first that is not a permission
    failure, and returns nil exactly when there is none such. *)
Lemma removeRecursive_receives (E : Env) (url : string)
    (isIncomplete isFake isBypass : bool) (olderThan newerThan : string)
    (encKeyDB : gmap string (list prefixSSEPair)) (clnt : Client) :
  newClientFromAlias E (mustExpandAlias E url).1 (mustExpandAlias E url).2 = Ok clnt ->
  let o := removeRecursive E url isIncomplete isFake isBypass olderThan newerThan encKeyDB in
  let D := deliveries E isFake olderThan newerThan (Remove clnt isIncomplete false isBypass)
             (List clnt true isIncomplete false DirNone) [] [] in
  ret o <> RetFatal ->
  loggedOf (events o) = uptoFirstBad D /\
  (ret o = RetNil <-> Forall permission D) /\
  (ret o <> RetNil -> ret o = RetExitStatus (globalErrorExitStatus E)).
Proof.
  intros Hclnt o D. subst o D.
  destruct (feedLoop E url (mustExpandAlias E url).1 isFake olderThan newerThan
              (Remove clnt isIncomplete false isBypass)
              (List clnt true isIncomplete false DirNone) [] []) as [evs r] eqn:Hfeed.
  rewrite (removeRecursive_run _ _ _ _ _ _ _ _ _ _ _ Hclnt Hfeed).
  pose proof (feedLoop_receives _ _ _ _ _ _ _ _ _ _ _ _ Hfeed) as Hrec.
  cbv zeta in Hrec.
  destruct r as [sent pending|sent remaining|]; cbn [events ret undrained].
  - destruct Hrec as [Hgood HD].
    destruct (drainErrors_receives E ("Failed to remove `" +:+ url +:+ "` recursively.")
                (pending ++ flush (Remove clnt isIncomplete false isBypass) sent))
      as (Hev & _ & Hiff & Hret).
    intros _. rewrite HD, (uptoFirstBad_good _ _ Hgood).
    split; [|split; [|exact Hret]].
    + change (loggedOf (evs ++ RmClose :: events (drainErrors E
                ("Failed to remove `" +:+ url +:+ "` recursively.")
                (pending ++ flush (Remove clnt isIncomplete false isBypass) sent)))
              = loggedOf evs ++ uptoFirstBad
                  (pending ++ flush (Remove clnt isIncomplete false isBypass) sent)).
      rewrite loggedOf_app, Hev. f_equal. apply loggedOf_reports.
    + rewrite Hiff. split.
      * intros H. apply Forall_app. split; assumption.
      * intros H. apply Forall_app in H as [_ H]. exact H.
  - destruct Hrec as [Hlog Hnot]. intros _. split; [exact Hlog|].
    split; [|reflexivity]. split; [discriminate|]. intros H. contradiction.
  - intros H. contradiction.
Qed.

(** A run in which only permission failures are reported processes every
    listed entry that the filters let through and returns nil, and this is
    the case whenever the listing and the removal worker report only
    permission failures; the report of any other failure is the last thing
    the run does, apart from closing the feed channel. *)
Lemma removeRecursive_tolerant_run (E : Env) (url : string)
    (isIncomplete isFake isBypass : bool) (olderThan newerThan : string)
    (encKeyDB : gmap string (list prefixSSEPair)) (clnt : Client) :
  newClientFromAlias E (mustExpandAlias E url).1 (mustExpandAlias E url).2 = Ok clnt ->
  let o := removeRecursive E url isIncomplete isFake isBypass olderThan newerThan encKeyDB in
  let listing := List clnt true isIncomplete false DirNone in
  let worker := Remove clnt isIncomplete false isBypass in
  let cand := candidate E olderThan newerThan in
  (afterFirstBad (events o) = None -> ret o <> RetFatal ->
     ret o = RetNil /\ undrained o = [] /\ closes (events o) = 1%nat /\
     printedOf (events o)
       = map (msgOf (mustExpandAlias E url).1) (List.filter cand listing) /\
     (isFake = false -> sentOf (events o) = List.filter cand listing)) /\
  ((forall c e, c ∈ listing -> Err c = Some e ->
                isPathInsufficientPermission e = true) ->
   (forall sent c, Forall (fun e => isPathInsufficientPermission e = true)
                          (emit worker sent c)) ->
   (forall sent, Forall (fun e => isPathInsufficientPermission e = true)
                        (flush worker sent)) ->
   afterFirstBad (events o) = None) /\
  (forall post, afterFirstBad (events o) = Some post ->
     ret o = RetExitStatus (globalErrorExitStatus E) /\
     closes (events o) = 1%nat /\
     (post = [] \/ post = [RmClose])).
Proof.
  intros Hclnt o listing worker cand. subst o listing worker cand.
  destruct (feedLoop E url (mustExpandAlias E url).1 isFake olderThan newerThan
              (Remove clnt isIncomplete false isBypass)
              (List clnt true isIncomplete false DirNone) [] []) as [evs r] eqn:Hfeed.
  rewrite (removeRecursive_run _ _ _ _ _ _ _ _ _ _ _ Hclnt Hfeed).
  pose proof (feedLoop_shape _ _ _ _ _ _ _ _ _ _ _ _ Hfeed) as Hshape.
  destruct r as [sent pending|sent remaining|]; cbn [events ret undrained].
  - destruct Hshape as [Hbad Hcl].
    destruct (feedLoop_done _ _ _ _ _ _ _ _ _ _ _ _ _ Hfeed) as (_ & Hprinted & Hsent).
    pose proof (drainErrors_events E ("Failed to remove `" +:+ url +:+ "` recursively.")
                  (pending ++ flush (Remove clnt isIncomplete false isBypass) sent)) as Hdrain.
    cbv zeta in Hdrain |- *.
    set (d := drainErrors E ("Failed to remove `" +:+ url +:+ "` recursively.")
                (pending ++ flush (Remove clnt isIncomplete false isBypass) sent)) in *.
    destruct Hdrain as (Hds & Hdp & Hdc & Hdl & Hdr).
    assert (Hafter : afterFirstBad (RmRemoveCall isIncomplete false isBypass
                                    :: evs ++ RmClose :: events d)
                     = afterFirstBad (events d)).
    { simpl. rewrite afterFirstBad_app, Hbad. reflexivity. }
    assert (Hcloses : closes (RmRemoveCall isIncomplete false isBypass
                               :: evs ++ RmClose :: events d) = 1%nat).
    { rewrite closes_cons, closes_app, closes_cons, Hcl, Hdc. reflexivity. }
    rewrite Hafter. split; [|split].
    + intros Hnone _.
      destruct Hdr as [(Hr & Hu & _ & _)|(_ & Ha)]; [|rewrite Ha in Hnone; discriminate].
      split; [exact Hr|split; [exact Hu|split; [exact Hcloses|]]].
      simpl. rewrite printedOf_app, sentOf_app. simpl. rewrite Hdp, Hds, !app_nil_r.
      split; [exact Hprinted|exact Hsent].
    + intros Hlisting Hemit Hflush.
      pose proof (feedLoop_tolerant _ _ _ _ _ _ _ _ Hlisting Hemit _ _ _ _
                    (Forall_nil_2 _) Hfeed) as Hpending. simpl in Hpending.
      destruct Hdr as [(_ & _ & Ha & _)|(Hr & Ha)]; [exact Ha|].
      exfalso. clear Hafter.
      assert (Hall : Forall (fun e => isPathInsufficientPermission e = true)
                            (pending ++ flush (Remove clnt isIncomplete false isBypass) sent))
        by (apply Forall_app; split; [exact Hpending|apply Hflush]).
      clear -Ha Hall. subst d. revert Ha.
      induction Hall as [|e rest He _ IH]; simpl; [discriminate|].
      rewrite He. simpl. rewrite He. exact IH.
    + intros post Hpost.
      destruct Hdr as [(_ & _ & Ha & _)|(Hr & Ha)];
        [rewrite Ha in Hpost; discriminate|].
      rewrite Ha in Hpost. injection Hpost as <-.
      split; [exact Hr|split; [exact Hcloses|left; reflexivity]].
  - destruct Hshape as [Hbad Hcl]. simpl. rewrite Hbad, closes_cons, Hcl.
    split; [|split].
    + intros Hnone. discriminate.
    + intros Hlisting Hemit Hflush. exfalso.
      exact (feedLoop_tolerant _ _ _ _ _ _ _ _ Hlisting Hemit _ _ _ _
               (Forall_nil_2 _) Hfeed).
    + intros post [= <-]. split; [reflexivity|split; [reflexivity|right; reflexivity]].
  - destruct Hshape as [Hbad Hcl]. simpl. rewrite Hbad.
    split; [|split].
    + intros _ Hno. contradiction.
    + intros _ _ _. reflexivity.
    + intros post Hpost. discriminate.
Qed.

(** C2: a recursive removal receives the failures in the order in which
    they are delivered, errors of the listing and failures of the removal
    worker alike, and reports each; a permission failure is passed over, and
    a run that meets no other failure returns nil having processed every
    listed entry that the filters let through; the first failure that is
    not a permission failure is the last one received: nothing follows its
    report but the closing of the feed channel, the channel is closed once
    and the error exit status is returned. *)
Theorem removeRecursive_permission_tolerant (E : Env) (url : string)
    (isIncomplete isFake isBypass : bool) (olderThan newerThan : string)
    (encKeyDB : gmap string (list prefixSSEPair)) (clnt : Client) :
  newClientFromAlias E (mustExpandAlias E url).1 (mustExpandAlias E url).2 = Ok clnt ->
  let o := removeRecursive E url isIncomplete isFake isBypass olderThan newerThan encKeyDB in
  let listing := List clnt true isIncomplete false DirNone in
  let worker := Remove clnt isIncomplete false isBypass in
  let cand := candidate E olderThan newerThan in
  let D := deliveries E isFake olderThan newerThan worker listing [] [] in
  (afterFirstBad (events o) = None -> ret o <> RetFatal ->
     ret o = RetNil /\ undrained o = [] /\ closes (events o) = 1%nat /\
     printedOf (events o)
       = map (msgOf (mustExpandAlias E url).1) (List.filter cand listing) /\
     (isFake = false -> sentOf (events o) = List.filter cand listing)) /\
  ((forall c e, c ∈ listing -> Err c = Some e ->
                isPathInsufficientPermission e = true) ->
   (forall sent c, Forall (fun e => isPathInsufficientPermission e = true)
                          (emit worker sent c)) ->
   (forall sent, Forall (fun e => isPathInsufficientPermission e = true)
                        (flush worker sent)) ->
   afterFirstBad (events o) = None) /\
  (forall post, afterFirstBad (events o) = Some post ->
     ret o = RetExitStatus (globalErrorExitStatus E) /\
     closes (events o) = 1%nat /\
     (post = [] \/ post = [RmClose])) /\
  (ret o <> RetFatal ->
     loggedOf (events o) = uptoFirstBad D /\
     (ret o = RetNil <-> Forall permission D) /\
     (ret o <> RetNil -> ret o = RetExitStatus (globalErrorExitStatus E))).
Proof.
  intros Hclnt o listing worker cand D.
  destruct (removeRecursive_tolerant_run E url isIncomplete isFake isBypass olderThan
              newerThan encKeyDB clnt Hclnt) as (Hnil & Htolerant & Hbad).
  split; [exact Hnil|split; [exact Htolerant|split; [exact Hbad|]]].
  exact (removeRecursive_receives E url isIncomplete isFake isBypass olderThan newerThan
           encKeyDB clnt Hclnt).
Qed.

Lemma removeRecursive_permission_tolerant_witness :
  let E := scenarioEnv
             (failing "/bucket/prefix/x" (PathInsufficientPermission "/bucket/prefix/x")
              :: agedListing)
             (failingWorker (PathInsufficientPermission "/bucket/prefix/b")) in
  let o := removeRecursive E "s3/bucket/prefix/" false false false "90d" "" ∅ in
  ret o = RetNil /\ undrained o = [] /\
  sentOf (events o) = [aged someDay 95 "/bucket/prefix/b"; aged someDay 200 "/bucket/prefix/c"].
Proof.
  intros E o.
  destruct (removeRecursive_permission_tolerant E "s3/bucket/prefix/" false false false
              "90d" "" ∅
              (demoClient
                 (failing "/bucket/prefix/x" (PathInsufficientPermission "/bucket/prefix/x")
                  :: agedListing)
                 (failingWorker (PathInsufficientPermission "/bucket/prefix/b"))
                 (Fail notFound))
              eq_refl) as (Hall & _ & _).
  destruct Hall as (Hret & Hun & _ & _ & Hsent).
  - vm_compute. reflexivity.
  - vm_compute. discriminate.
  - split; [exact Hret|split; [exact Hun|]].
    unfold o. rewrite (Hsent eq_refl). vm_compute. reflexivity.
Defined.

(** What [removeRecursive] sends and prints is what its feed loop sends and
    prints. *)
Lemma removeRecursive_sent_printed (E : Env) (url : string)
    (isIncomplete isFake isBypass : bool) (olderThan newerThan : string)
    (encKeyDB : gmap string (list prefixSSEPair)) (clnt : Client)
    (evs : list RmEvent) (r : FeedEnd) :
  newClientFromAlias E (mustExpandAlias E url).1 (mustExpandAlias E url).2 = Ok clnt ->
  feedLoop E url (mustExpandAlias E url).1 isFake olderThan newerThan
    (Remove clnt isIncomplete false isBypass)
    (List clnt true isIncomplete false DirNone) [] [] = (evs, r) ->
  let o := removeRecursive E url isIncomplete isFake isBypass olderThan newerThan encKeyDB in
  sentOf (events o) = sentOf evs /\ printedOf (events o) = printedOf evs.
Proof.
  intros Hclnt Hfeed o. subst o.
  rewrite (removeRecursive_run _ _ _ _ _ _ _ _ _ _ _ Hclnt Hfeed).
  destruct r as [sent pending|sent remaining|]; cbn [events]; try (split; reflexivity).
  destruct (drainErrors_events E ("Failed to remove `" +:+ url +:+ "` recursively.")
              (pending ++ flush (Remove clnt isIncomplete false isBypass) sent))
    as (Hds & Hdp & _).
  simpl. rewrite sentOf_app, printedOf_app. simpl. rewrite Hds, Hdp, !app_nil_r.
  split; reflexivity.
Qed.

(** Without a client nothing is sent and nothing is printed. *)
Lemma removeRecursive_no_client (E : Env) (url : string)
    (isIncomplete isFake isBypass : bool) (olderThan newerThan : string)
    (encKeyDB : gmap string (list prefixSSEPair)) (e : GoError) :
  newClientFromAlias E (mustExpandAlias E url).1 (mustExpandAlias E url).2 = Fail e ->
  let o := removeRecursive E url isIncomplete isFake isBypass olderThan newerThan encKeyDB in
  sentOf (events o) = [] /\ printedOf (events o) = [].
Proof.
  unfold removeRecursive. destruct (mustExpandAlias E url) as [a u]. simpl.
  intros ->. split; reflexivity.
Qed.

(** What a recursive removal has received and what it leaves unreceived
    are errors of the listing, from its start, and all that the worker
    reports for the descriptors that it was sent. *)
Lemma removeRecursive_conserves (E : Env) (url : string)
    (isIncomplete isFake isBypass : bool) (olderThan newerThan : string)
    (encKeyDB : gmap string (list prefixSSEPair)) (clnt : Client) :
  newClientFromAlias E (mustExpandAlias E url).1 (mustExpandAlias E url).2 = Ok clnt ->
  let o := removeRecursive E url isIncomplete isFake isBypass olderThan newerThan encKeyDB in
  ret o <> RetFatal ->
  exists fromListing : list GoError,
    (fromListing `prefix_of` listedErrors (List clnt true isIncomplete false DirNone)) /\
    (loggedOf (events o) ++ undrained o
     ≡ₚ fromListing ++ workerFailures (Remove clnt isIncomplete false isBypass)
                         (sentOf (events o))).
Proof.
  intros Hclnt o.
  destruct (feedLoop E url (mustExpandAlias E url).1 isFake olderThan newerThan
              (Remove clnt isIncomplete false isBypass)
              (List clnt true isIncomplete false DirNone) [] []) as [evs r] eqn:Hfeed.
  destruct (removeRecursive_sent_printed E url isIncomplete isFake isBypass olderThan
              newerThan encKeyDB clnt evs r Hclnt Hfeed) as [Hs _].
  fold o in Hs. rewrite Hs. subst o.
  rewrite (removeRecursive_run _ _ _ _ _ _ _ _ _ _ _ Hclnt Hfeed).
  destruct (feedLoop_conserves _ _ _ _ _ _ _ _ _ _ _ _ Hfeed)
    as (fromListing & Hpre & Hperm).
  pose proof (feedLoop_sent _ _ _ _ _ _ _ _ _ _ _ _ Hfeed) as Hsent.
  unfold workerFailures.
  destruct r as [sent held|sent held|]; cbn [events ret undrained].
  - destruct Hperm as [_ Hperm]. simpl in Hsent. subst sent.
    destruct (drainErrors_receives E ("Failed to remove `" +:+ url +:+ "` recursively.")
                (held ++ flush (Remove clnt isIncomplete false isBypass) (sentOf evs)))
      as (Hev & Hun & _).
    intros _. exists fromListing. split; [exact Hpre|].
    change (loggedOf (evs ++ RmClose :: events (drainErrors E
              ("Failed to remove `" +:+ url +:+ "` recursively.")
              (held ++ flush (Remove clnt isIncomplete false isBypass) (sentOf evs))))
            ++ undrained (drainErrors E
              ("Failed to remove `" +:+ url +:+ "` recursively.")
              (held ++ flush (Remove clnt isIncomplete false isBypass) (sentOf evs)))
            ≡ₚ fromListing ++ emitted (Remove clnt isIncomplete false isBypass) []
                                 (sentOf evs)
               ++ flush (Remove clnt isIncomplete false isBypass) (sentOf evs)).
    rewrite loggedOf_app, Hev. cbn [loggedOf omap list_omap].
    fold (loggedOf (reports ("Failed to remove `" +:+ url +:+ "` recursively.")
                      (uptoFirstBad (held ++ flush (Remove clnt isIncomplete false isBypass)
                                               (sentOf evs))))).
    rewrite loggedOf_reports, <- app_assoc, Hun.
    rewrite !app_assoc. apply Permutation_app_tail.
    rewrite Hperm. reflexivity.
  - simpl in Hsent. subst sent. intros _. exists fromListing. split; [exact Hpre|].
    change (loggedOf evs ++ held ++ flush (Remove clnt isIncomplete false isBypass) (sentOf evs)
            ≡ₚ fromListing ++ emitted (Remove clnt isIncomplete false isBypass) []
                                 (sentOf evs)
               ++ flush (Remove clnt isIncomplete false isBypass) (sentOf evs)).
    rewrite !app_assoc. apply Permutation_app_tail. rewrite Hperm. reflexivity.
  - intros H. contradiction.
Qed.

(** When the feed loop reaches the end of the listing, the function closes
    the feed channel and then receives what the worker holds and what it
    reports at the close, in order, up to and including the first failure
    that is not a permission failure, reporting each. *)
Lemma removeRecursive_drains (E : Env) (url : string)
    (isIncomplete isFake isBypass : bool) (olderThan newerThan : string)
    (encKeyDB : gmap string (list prefixSSEPair)) (clnt : Client)
    (evs : list RmEvent) (sent : list ClientContent) (pending : list GoError) :
  newClientFromAlias E (mustExpandAlias E url).1 (mustExpandAlias E url).2 = Ok clnt ->
  feedLoop E url (mustExpandAlias E url).1 isFake olderThan newerThan
    (Remove clnt isIncomplete false isBypass)
    (List clnt true isIncomplete false DirNone) [] [] = (evs, FeedDone sent pending) ->
  let o := removeRecursive E url isIncomplete isFake isBypass olderThan newerThan encKeyDB in
  let worker := Remove clnt isIncomplete false isBypass in
  let held := pending ++ flush worker sent in
  sent = sentOf evs /\
  deliveries E isFake olderThan newerThan worker
    (List clnt true isIncomplete false DirNone) [] [] = loggedOf evs ++ held /\
  events o = RmRemoveCall isIncomplete false isBypass :: evs ++ RmClose
             :: reports ("Failed to remove `" +:+ url +:+ "` recursively.")
                  (uptoFirstBad held) /\
  uptoFirstBad held ++ undrained o = held /\
  (ret o = RetNil <-> Forall permission held).
Proof.
  intros Hclnt Hfeed o worker held. subst o worker held.
  rewrite (removeRecursive_run _ _ _ _ _ _ _ _ _ _ _ Hclnt Hfeed).
  destruct (feedLoop_receives _ _ _ _ _ _ _ _ _ _ _ _ Hfeed) as [_ HD].
  pose proof (feedLoop_sent _ _ _ _ _ _ _ _ _ _ _ _ Hfeed) as Hsent. simpl in Hsent.
  destruct (drainErrors_receives E ("Failed to remove `" +:+ url +:+ "` recursively.")
              (pending ++ flush (Remove clnt isIncomplete false isBypass) sent))
    as (Hev & Hun & Hiff & _).
  cbn [events ret undrained]. rewrite Hev.
  split; [exact Hsent|split; [exact HD|split; [reflexivity|split; [exact Hun|exact Hiff]]]].
Qed.

(** On every path that returns with a client the feed channel is closed
    exactly once, and a return of nil leaves no failure behind; on the early
    returns the channel is closed and the function returns at once. *)
Lemma removeRecursive_closes_once (E : Env) (url : string)
    (isIncomplete isFake isBypass : bool) (olderThan newerThan : string)
    (encKeyDB : gmap string (list prefixSSEPair)) (clnt : Client) :
  newClientFromAlias E (mustExpandAlias E url).1 (mustExpandAlias E url).2 = Ok clnt ->
  let o := removeRecursive E url isIncomplete isFake isBypass olderThan newerThan encKeyDB in
  let worker := Remove clnt isIncomplete false isBypass in
  let loop := feedLoop E url (mustExpandAlias E url).1 isFake olderThan newerThan
                worker (List clnt true isIncomplete false DirNone) [] [] in
  (ret o <> RetFatal -> closes (events o) = 1%nat) /\
  (ret o = RetNil -> undrained o = []) /\
  (forall sent pending, loop.2 = FeedDone sent pending ->
     exists drained,
       loggedOf (events o) = loggedOf loop.1 ++ drained /\
       drained ++ undrained o = pending ++ flush worker sent) /\
  (forall sent remaining, loop.2 = FeedAbort sent remaining ->
     events o = RmRemoveCall isIncomplete false isBypass :: loop.1 /\
     afterFirstBad loop.1 = Some [RmClose] /\
     ret o = RetExitStatus (globalErrorExitStatus E) /\
     undrained o = remaining ++ flush worker sent).
Proof.
  intros Hclnt o worker loop. subst o worker loop.
  destruct (feedLoop E url (mustExpandAlias E url).1 isFake olderThan newerThan
              (Remove clnt isIncomplete false isBypass)
              (List clnt true isIncomplete false DirNone) [] []) as [evs r] eqn:Hfeed.
  rewrite (removeRecursive_run _ _ _ _ _ _ _ _ _ _ _ Hclnt Hfeed).
  pose proof (feedLoop_shape _ _ _ _ _ _ _ _ _ _ _ _ Hfeed) as Hshape.
  destruct r as [sent pending|sent remaining|]; cbn [events ret undrained fst snd].
  - destruct Hshape as [Hbad Hcl].
    pose proof (drainErrors_events E ("Failed to remove `" +:+ url +:+ "` recursively.")
                  (pending ++ flush (Remove clnt isIncomplete false isBypass) sent))
      as Hdrain.
    cbv zeta in Hdrain |- *.
    set (d := drainErrors E ("Failed to remove `" +:+ url +:+ "` recursively.")
                (pending ++ flush (Remove clnt isIncomplete false isBypass) sent)) in *.
    destruct Hdrain as (Hds & Hdp & Hdc & Hdl & Hdr).
    split; [|split; [|split]].
    + intros _. rewrite closes_cons, closes_app, closes_cons, Hcl, Hdc. reflexivity.
    + intros Hnil. destruct Hdr as [(_ & Hu & _)|(Hr & _)]; [exact Hu|].
      rewrite Hr in Hnil. discriminate.
    + intros sent' pending' [= <- <-]. exists (loggedOf (events d)).
      split; [|exact Hdl].
      unfold loggedOf. simpl. rewrite omap_app. reflexivity.
    + intros sent' remaining' Hno. discriminate.
  - destruct Hshape as [Hbad Hcl]. split; [|split; [|split]].
    + intros _. rewrite closes_cons, Hcl. reflexivity.
    + intros Hno. discriminate.
    + intros sent' pending' Hno. discriminate.
    + intros sent' remaining' [= <- <-]. repeat split. exact Hbad.
  - split; [|split; [|split]].
    + intros Hno. contradiction.
    + intros Hno. discriminate.
    + intros sent' pending' Hno. discriminate.
    + intros sent' remaining' Hno. discriminate.
Qed.

(** C3, as amended: on every path that returns with a client the feed
    channel is closed exactly once, and a return of nil leaves no failure
    behind.  When the feed loop reaches the end of the listing, the function
    closes the channel and then receives, reporting each, what the worker
    holds and what it reports at the close, in order, up to and including
    the first failure that is not a permission failure; what follows that
    one stays unreceived.  On the early returns the channel is closed and
    the function returns the error status at once: the failures received
    are those delivered up to the one that ended the loop, and the failures
    of the worker for the descriptors it was sent that were not received
    stay unreceived.  No failure of the worker is lost: each is received or
    left unreceived. *)
Theorem removeRecursive_close_and_drain (E : Env) (url : string)
    (isIncomplete isFake isBypass : bool) (olderThan newerThan : string)
    (encKeyDB : gmap string (list prefixSSEPair)) (clnt : Client) :
  newClientFromAlias E (mustExpandAlias E url).1 (mustExpandAlias E url).2 = Ok clnt ->
  let o := removeRecursive E url isIncomplete isFake isBypass olderThan newerThan encKeyDB in
  let listing := List clnt true isIncomplete false DirNone in
  let worker := Remove clnt isIncomplete false isBypass in
  let loop := feedLoop E url (mustExpandAlias E url).1 isFake olderThan newerThan
                worker listing [] [] in
  let D := deliveries E isFake olderThan newerThan worker listing [] [] in
  (ret o <> RetFatal -> closes (events o) = 1%nat) /\
  (ret o = RetNil -> undrained o = []) /\
  (forall sent pending, loop.2 = FeedDone sent pending ->
     exists drained,
       loggedOf (events o) = loggedOf loop.1 ++ drained /\
       drained ++ undrained o = pending ++ flush worker sent) /\
  (forall sent remaining, loop.2 = FeedAbort sent remaining ->
     events o = RmRemoveCall isIncomplete false isBypass :: loop.1 /\
     afterFirstBad loop.1 = Some [RmClose] /\
     ret o = RetExitStatus (globalErrorExitStatus E) /\
     undrained o = remaining ++ flush worker sent) /\
  (forall sent pending, loop.2 = FeedDone sent pending ->
     let held := pending ++ flush worker sent in
     sent = sentOf loop.1 /\
     D = loggedOf loop.1 ++ held /\
     events o = RmRemoveCall isIncomplete false isBypass :: loop.1 ++ RmClose
                :: reports ("Failed to remove `" +:+ url +:+ "` recursively.")
                     (uptoFirstBad held) /\
     uptoFirstBad held ++ undrained o = held /\
     (ret o = RetNil <-> Forall permission held)) /\
  (ret o <> RetFatal ->
     loggedOf (events o) = uptoFirstBad D /\
     (ret o = RetNil <-> Forall permission D) /\
     (ret o <> RetNil -> ret o = RetExitStatus (globalErrorExitStatus E))) /\
  (ret o <> RetFatal ->
     exists fromListing : list GoError,
       (fromListing `prefix_of` listedErrors listing) /\
       (loggedOf (events o) ++ undrained o
        ≡ₚ fromListing ++ workerFailures worker (sentOf (events o)))).
Proof.
  intros Hclnt o listing worker loop D.
  destruct (removeRecursive_closes_once E url isIncomplete isFake isBypass olderThan
              newerThan encKeyDB clnt Hclnt) as (Hclose & Hnil & Hdone & Habort).
  split; [exact Hclose|split; [exact Hnil|split; [exact Hdone|split; [exact Habort|]]]].
  split; [|split].
  - intros sent pending Hloop.
    apply (removeRecursive_drains E url isIncomplete isFake isBypass olderThan newerThan
             encKeyDB clnt loop.1 sent pending Hclnt).
    rewrite <- Hloop. subst loop. apply surjective_pairing.
  - exact (removeRecursive_receives E url isIncomplete isFake isBypass olderThan newerThan
             encKeyDB clnt Hclnt).
  - exact (removeRecursive_conserves E url isIncomplete isFake isBypass olderThan newerThan
             encKeyDB clnt Hclnt).
Qed.

Lemma removeRecursive_close_and_drain_witness :
  let E := scenarioEnv agedListing
             (failingWorker (PathInsufficientPermission "/bucket/prefix/b")) in
  let o := removeRecursive E "s3/bucket/prefix/" false false false "90d" "" ∅ in
  ret o = RetNil /\ closes (events o) = 1%nat /\ undrained o = [].
Proof.
  intros E o.
  destruct (removeRecursive_close_and_drain E "s3/bucket/prefix/" false false false
              "90d" "" ∅
              (demoClient agedListing
                 (failingWorker (PathInsufficientPermission "/bucket/prefix/b"))
                 (Fail notFound))
              eq_refl) as (Hclose & Hnil & _).
  assert (Hret : ret o = RetNil) by (vm_compute; reflexivity).
  split; [exact Hret|split].
  - apply Hclose. fold o. rewrite Hret. discriminate.
  - apply Hnil. exact Hret.
Defined.

(** C3 fails as stated: the listing reports, after an entry that was sent
    and whose removal fails for lack of permission, a failure that is not a
    permission failure; the function closes the feed channel and returns
    the error status while the failure of the worker is still to be
    received. *)
Lemma removeRecursive_early_return_leaves_failures :
  let E := scenarioEnv
             [aged someDay 95 "/bucket/prefix/b";
              failing "/bucket/prefix/x" (ErrorString "listing failed")]
             (failingWorker (PathInsufficientPermission "/bucket/prefix/b")) in
  let o := removeRecursive E "s3/bucket/prefix/" false false false "90d" "" ∅ in
  sentOf (events o) = [aged someDay 95 "/bucket/prefix/b"] /\
  closes (events o) = 1%nat /\
  ret o = RetExitStatus 1 /\
  loggedOf (events o) = [ErrorString "listing failed"] /\
  undrained o = [PathInsufficientPermission "/bucket/prefix/b"] /\
  workerFailures (failingWorker (PathInsufficientPermission "/bucket/prefix/b"))
    (sentOf (events o))
  = [PathInsufficientPermission "/bucket/prefix/b"].
Proof. vm_compute. repeat split; reflexivity. Qed.

(** *** Age filters *)

Lemma Sub_age (clock d : Z) :
  (0 <= d <= maxDuration)%Z -> Sub clock (clock - d) = d.
Proof.
  intros Hd. unfold Sub. replace (clock - (clock - d))%Z with d by lia.
  destruct (Z.ltb_spec maxDuration d); [lia|].
  destruct (Z.ltb_spec d minDuration); [|reflexivity].
  unfold minDuration in *. lia.
Qed.

Lemma ParseDuration_nonempty (s : string) (d : Z) :
  ParseDuration s = Some d -> String.eqb s "" = false.
Proof. unfold ParseDuration. destruct (String.eqb s ""); [discriminate|reflexivity]. Qed.

(** With an [older-than] duration, an entry whose age is below the duration
    is skipped. *)
Lemma ageSkip_young (E : Env) (t : Z) (olderThan newerThan : string) (d : Z) :
  ParseDuration olderThan = Some d -> (Sub (now E) t < d)%Z ->
  ageSkip E t olderThan newerThan = Some true.
Proof.
  intros Hd Hage. unfold ageSkip, isOlder.
  rewrite (ParseDuration_nonempty _ _ Hd), Hd.
  apply Z.ltb_lt in Hage. rewrite Hage. reflexivity.
Qed.

(** With an [older-than] duration and no [newer-than] duration, an entry
    whose age has reached the duration is kept. *)
Lemma ageSkip_old (E : Env) (t : Z) (olderThan : string) (d : Z) :
  ParseDuration olderThan = Some d -> (d <= Sub (now E) t)%Z ->
  ageSkip E t olderThan "" = Some false.
Proof.
  intros Hd Hage. unfold ageSkip, isOlder.
  rewrite (ParseDuration_nonempty _ _ Hd), Hd.
  apply Z.ltb_ge in Hage. rewrite Hage. reflexivity.
Qed.

Lemma targeted_candidate (E : Env) (olderThan newerThan : string)
    (listing : list ClientContent) (c : ClientContent) :
  c ∈ targeted E olderThan newerThan listing ->
  c ∈ listing /\ candidate E olderThan newerThan c = true.
Proof.
  induction listing as [|x more IH]; simpl; intros Hin.
  - inversion Hin.
  - assert (Hmore : c ∈ targeted E olderThan newerThan more ->
                    c ∈ x :: more /\ candidate E olderThan newerThan c = true).
    { intros H. destruct (IH H) as [H1 H2]. split; [right; exact H1|exact H2]. }
    destruct (Err x) as [e|] eqn:Hx.
    + destruct (isPathInsufficientPermission e); [auto|inversion Hin].
    + destruct (IsZero (Time x)) eqn:Hz; [auto|].
      destruct (ageSkip E (Time x) olderThan newerThan) as [[|]|] eqn:Ha;
        [auto| |inversion Hin].
      apply elem_of_cons in Hin as [->|Hin]; [|auto].
      split; [left|]. unfold candidate. rewrite Hx, Hz, Ha. reflexivity.
Qed.

(** When the listing reports only permission failures and the durations
    parse, the run targets every entry that the filters let through. *)
Lemma targeted_all (E : Env) (olderThan newerThan : string)
    (listing : list ClientContent) :
  (forall c e, c ∈ listing -> Err c = Some e ->
               isPathInsufficientPermission e = true) ->
  (forall t, ageSkip E t olderThan newerThan <> None) ->
  targeted E olderThan newerThan listing
  = List.filter (candidate E olderThan newerThan) listing.
Proof.
  intros Hlisting Hparse.
  induction listing as [|x more IH]; simpl; [reflexivity|].
  rewrite IH by (intros c e Hin; apply Hlisting; right; exact Hin).
  assert (Hc : candidate E olderThan newerThan x =
               match Err x with
               | Some _ => false
               | None =>
                   negb (IsZero (Time x)) &&
                   match ageSkip E (Time x) olderThan newerThan with
                   | Some false => true
                   | _ => false
                   end
               end) by reflexivity.
  rewrite Hc. clear Hc.
  destruct (Err x) as [e|] eqn:Hx.
  - rewrite (Hlisting x e (proj2 (elem_of_cons _ _ _) (or_introl eq_refl)) Hx).
    reflexivity.
  - destruct (IsZero (Time x)); [reflexivity|]. simpl.
    destruct (ageSkip E (Time x) olderThan newerThan) as [[|]|] eqn:Ha;
      try reflexivity.
    exfalso. exact (Hparse _ Ha).
Qed.

Lemma ageSkip_parses (E : Env) (olderThan : string) (d : Z) (t : Z) :
  ParseDuration olderThan = Some d -> ageSkip E t olderThan "" <> None.
Proof.
  intros Hd. unfold ageSkip, isOlder.
  rewrite (ParseDuration_nonempty _ _ Hd), Hd.
  destruct (Sub (now E) t <? d)%Z; discriminate.
Qed.

(** C6: of the entries aged 10, 95 and 200 days that the listing of
    [s3/bucket/prefix/] holds, a recursive removal with [older-than="90d"]
    sends the two entries aged 95 and 200 days to the removal worker, and
    only these. *)
Theorem removeRecursive_older_than_90d (E : Env) (clnt : Client)
    (c10 c95 c200 : ClientContent) (isIncomplete isBypass : bool)
    (encKeyDB : gmap string (list prefixSSEPair)) :
  newClientFromAlias E (mustExpandAlias E "s3/bucket/prefix/").1
    (mustExpandAlias E "s3/bucket/prefix/").2 = Ok clnt ->
  List clnt true isIncomplete false DirNone = [c10; c95; c200] ->
  Time c10 = (now E - 10 * nsPerDay)%Z ->
  Time c95 = (now E - 95 * nsPerDay)%Z ->
  Time c200 = (now E - 200 * nsPerDay)%Z ->
  Forall (fun c => Err c = None /\ IsZero (Time c) = false) [c10; c95; c200] ->
  (forall sent c, Forall (fun e => isPathInsufficientPermission e = true)
                         (emit (Remove clnt isIncomplete false isBypass) sent c)) ->
  sentOf (events (removeRecursive E "s3/bucket/prefix/" isIncomplete false isBypass
                    "90d" "" encKeyDB))
  = [c95; c200].
Proof.
  intros Hclnt Hlist H10 H95 H200 Hok Hworker.
  destruct (feedLoop E "s3/bucket/prefix/" (mustExpandAlias E "s3/bucket/prefix/").1
              false "90d" "" (Remove clnt isIncomplete false isBypass)
              (List clnt true isIncomplete false DirNone) [] []) as [evs r] eqn:Hfeed.
  destruct (removeRecursive_sent_printed _ _ _ _ _ _ _ encKeyDB _ _ _ Hclnt Hfeed)
    as [Hsent _].
  rewrite Hsent.
  destruct (feedLoop_tolerant_worker _ _ _ _ _ _ _ _ eq_refl Hworker _ _ _ _
              (Forall_nil_2 _) Hfeed) as (-> & _).
  rewrite Hlist.
  inversion Hok as [|? ? [He10 Hz10] Hok1]; subst.
  inversion Hok1 as [|? ? [He95 Hz95] Hok2]; subst.
  inversion Hok2 as [|? ? [He200 Hz200] _]; subst.
  assert (Hd : ParseDuration "90d" = Some (90 * nsPerDay)%Z) by reflexivity.
  cbn [targeted]. rewrite He10, He95, He200, Hz10, Hz95, Hz200.
  rewrite (ageSkip_young E (Time c10) "90d" "" _ Hd).
  2: { rewrite H10, Sub_age; unfold nsPerDay, nsPerMinute, maxDuration; lia. }
  rewrite (ageSkip_old E (Time c95) "90d" _ Hd).
  2: { rewrite H95, Sub_age; unfold nsPerDay, nsPerMinute, maxDuration; lia. }
  rewrite (ageSkip_old E (Time c200) "90d" _ Hd).
  2: { rewrite H200, Sub_age; unfold nsPerDay, nsPerMinute, maxDuration; lia. }
  reflexivity.
Qed.

Lemma removeRecursive_older_than_90d_witness :
  sentOf (events (removeRecursive (scenarioEnv agedListing quietWorker)
                    "s3/bucket/prefix/" false false false "90d" "" ∅))
  = [aged someDay 95 "/bucket/prefix/b"; aged someDay 200 "/bucket/prefix/c"].
Proof.
  apply (removeRecursive_older_than_90d (scenarioEnv agedListing quietWorker)
           (demoClient agedListing quietWorker (Fail notFound))
           (aged someDay 10 "/bucket/prefix/a")).
  - reflexivity.
  - reflexivity.
  - reflexivity.
  - reflexivity.
  - reflexivity.
  - repeat constructor.
  - intros sent c. constructor.
Defined.

(** *** Single removal *)

(** What [removeSingle] prints does not depend on the run being fake, and a
    run that is not fake sends one descriptor for the message it prints
    when the client is there, none otherwise. *)
Lemma removeSingle_sent_printed (E : Env) (url : string)
    (isIncomplete isFake isForce isBypass : bool) (olderThan newerThan : string)
    (encKeyDB : gmap string (list prefixSSEPair)) :
  let o := removeSingle E url isIncomplete isFake isForce isBypass olderThan newerThan
             encKeyDB in
  let fake := removeSingle E url isIncomplete true isForce isBypass olderThan newerThan
                encKeyDB in
  printedOf (events o) = printedOf (events fake) /\
  sentOf (events fake) = [] /\
  (length (sentOf (events o)) <= length (printedOf (events fake)))%nat /\
  (isFake = false ->
   forall clnt,
   newClientFromAlias E (mustExpandAlias E url).1 (mustExpandAlias E url).2 = Ok clnt ->
   length (sentOf (events o)) = length (printedOf (events fake))).
Proof.
  unfold removeSingle.
  destruct (statURL E url isIncomplete false encKeyDB) as [[|content rest]|e];
    try solve [destruct isForce; simpl; repeat split; auto].
  destruct (ageSkip E (Time content) olderThan newerThan) as [[|]|];
    try solve [simpl; repeat split; auto].
  destruct isFake; [simpl; repeat split; auto; intros; discriminate|].
  destruct (mustExpandAlias E url) as [targetAlias targetURL]. cbn [negb fst snd].
  destruct (newClientFromAlias E targetAlias targetURL) as [clnt|e].
  - match goal with
    | |- context [drainErrors E ?msg ?errs] =>
        destruct (drainErrors_events E msg errs) as (Hds & Hdp & _);
        cbv zeta in Hds, Hdp;
        remember (drainErrors E msg errs) as d
    end.
    cbn [events].
    match goal with
    | |- context [?a :: ?b :: ?c :: ?e :: events d] =>
        change (a :: b :: c :: e :: events d) with ([a; b; c; e] ++ events d)
    end.
    rewrite !sentOf_app, !printedOf_app, Hds, Hdp. simpl.
    repeat split; auto.
  - simpl. repeat split; auto. intros _ clnt Hno. discriminate.
Qed.

(** C7, as amended: with an [older-than] duration, an entry whose age is
    below the duration (its time stamp is newer than the cutoff) is never
    sent to the removal worker, neither by [removeRecursive] nor by
    [removeSingle]; a time-stamped entry whose age has reached the duration
    is sent, when no [newer-than] duration is given, the run is not fake,
    the client is there and only permission failures are reported. *)
Theorem older_than_keeps_newer_entries (E : Env) (url : string)
    (isIncomplete isFake isForce isBypass : bool) (olderThan newerThan : string)
    (encKeyDB : gmap string (list prefixSSEPair)) (d : Z) :
  ParseDuration olderThan = Some d ->
  let rec := removeRecursive E url isIncomplete isFake isBypass olderThan newerThan
               encKeyDB in
  let single := removeSingle E url isIncomplete isFake isForce isBypass olderThan
                  newerThan encKeyDB in
  (forall c, (Sub (now E) (Time c) < d)%Z -> c ∉ sentOf (events rec)) /\
  (forall content rest,
     statURL E url isIncomplete false encKeyDB = Ok (content :: rest) ->
     (Sub (now E) (Time content) < d)%Z ->
     events single = [] /\ ret single = RetNil) /\
  (forall clnt c,
     newClientFromAlias E (mustExpandAlias E url).1 (mustExpandAlias E url).2 = Ok clnt ->
     isFake = false -> newerThan = "" ->
     (forall c' e, c' ∈ List clnt true isIncomplete false DirNone -> Err c' = Some e ->
                   isPathInsufficientPermission e = true) ->
     (forall sent c', Forall (fun e => isPathInsufficientPermission e = true)
                             (emit (Remove clnt isIncomplete false isBypass) sent c')) ->
     c ∈ List clnt true isIncomplete false DirNone ->
     Err c = None -> IsZero (Time c) = false ->
     (d <= Sub (now E) (Time c))%Z ->
     c ∈ sentOf (events rec)) /\
  (forall content rest clnt,
     statURL E url isIncomplete false encKeyDB = Ok (content :: rest) ->
     (d <= Sub (now E) (Time content))%Z ->
     isFake = false -> newerThan = "" ->
     newClientFromAlias E (mustExpandAlias E url).1 (mustExpandAlias E url).2 = Ok clnt ->
     length (sentOf (events single)) = 1%nat).
Proof.
  intros Hd rec single. subst rec single. split; [|split; [|split]].
  - intros c Hage Hin.
    destruct (newClientFromAlias E (mustExpandAlias E url).1 (mustExpandAlias E url).2)
      as [clnt|e] eqn:Hclnt.
    + destruct (feedLoop E url (mustExpandAlias E url).1 isFake olderThan newerThan
                  (Remove clnt isIncomplete false isBypass)
                  (List clnt true isIncomplete false DirNone) [] []) as [evs r] eqn:Hfeed.
      destruct (removeRecursive_sent_printed _ _ _ _ _ _ _ encKeyDB _ _ _ Hclnt Hfeed)
        as [Hsent _].
      rewrite Hsent in Hin.
      destruct (feedLoop_prefix _ _ _ _ _ _ _ _ _ _ _ _ Hfeed) as (Hfake & Hreal & _).
      destruct isFake.
      * rewrite (Hfake eq_refl) in Hin. inversion Hin.
      * destruct (Hreal eq_refl) as [k Hk].
        assert (Hc : c ∈ targeted E olderThan newerThan
                           (List clnt true isIncomplete false DirNone))
          by (rewrite Hk; apply elem_of_app; left; exact Hin).
        apply targeted_candidate in Hc as [_ Hc].
        unfold candidate in Hc. rewrite (ageSkip_young _ _ _ _ _ Hd Hage) in Hc.
        destruct (Err c); [discriminate|].
        rewrite andb_false_r in Hc. discriminate.
    + destruct (removeRecursive_no_client E url isIncomplete isFake isBypass olderThan
                  newerThan encKeyDB e Hclnt) as [Hsent _].
      rewrite Hsent in Hin. inversion Hin.
  - intros content rest Hstat Hage. unfold removeSingle.
    rewrite Hstat, (ageSkip_young _ _ _ _ _ Hd Hage). split; reflexivity.
  - intros clnt c Hclnt -> -> Hlisting Hworker Hin Herr Hzero Hage.
    destruct (feedLoop E url (mustExpandAlias E url).1 false olderThan ""
                (Remove clnt isIncomplete false isBypass)
                (List clnt true isIncomplete false DirNone) [] []) as [evs r] eqn:Hfeed.
    destruct (removeRecursive_sent_printed _ _ _ _ _ _ _ encKeyDB _ _ _ Hclnt Hfeed)
      as [Hsent _].
    rewrite Hsent.
    destruct (feedLoop_tolerant_worker _ _ _ _ _ _ _ _ eq_refl Hworker _ _ _ _
                (Forall_nil_2 _) Hfeed) as (-> & _).
    rewrite (targeted_all _ _ _ _ Hlisting (fun t => ageSkip_parses E _ _ t Hd)).
    apply list_elem_of_In, filter_In. split; [apply list_elem_of_In; exact Hin|].
    unfold candidate. rewrite Herr, Hzero, (ageSkip_old _ _ _ _ Hd Hage). reflexivity.
  - intros content rest clnt Hstat Hage -> -> Hclnt.
    unfold removeSingle. rewrite Hstat, (ageSkip_old _ _ _ _ Hd Hage).
    destruct (mustExpandAlias E url) as [targetAlias targetURL]. cbn [negb fst snd] in *.
    rewrite Hclnt.
    match goal with
    | |- context [drainErrors E ?msg ?errs] =>
        destruct (drainErrors_events E msg errs) as (Hds & _);
        cbv zeta in Hds;
        remember (drainErrors E msg errs) as dr
    end.
    cbn [events].
    match goal with
    | |- context [?a :: ?b :: ?c :: ?e :: events dr] =>
        change (a :: b :: c :: e :: events dr) with ([a; b; c; e] ++ events dr)
    end.
    rewrite sentOf_app, Hds. reflexivity.
Qed.

Lemma older_than_keeps_newer_entries_witness :
  aged someDay 10 "/bucket/prefix/a"
  ∉ sentOf (events (removeRecursive (scenarioEnv agedListing quietWorker)
                      "s3/bucket/prefix/" false false false "90d" "" ∅)).
Proof.
  apply (proj1 (older_than_keeps_newer_entries (scenarioEnv agedListing quietWorker)
                  "s3/bucket/prefix/" false false false false "90d" "" ∅
                  (90 * nsPerDay)%Z eq_refl)).
  vm_compute. reflexivity.
Defined.

(** C7 fails as stated: with [older-than="90d"], the entries aged 95 and
    200 days, whose time stamps are strictly older than the cutoff, are the
    ones sent to the removal worker, and the entry aged 10 days, whose time
    stamp is strictly newer, is not sent; single removal sends the entry
    aged 95 days as well. *)
Lemma older_than_sends_the_older_entries :
  let E := scenarioEnv agedListing quietWorker in
  let cutoff := (now E - 90 * nsPerDay)%Z in
  (Time (aged someDay 95 "/bucket/prefix/b") < cutoff)%Z /\
  (Time (aged someDay 200 "/bucket/prefix/c") < cutoff)%Z /\
  (cutoff < Time (aged someDay 10 "/bucket/prefix/a"))%Z /\
  sentOf (events (removeRecursive E "s3/bucket/prefix/" false false false "90d" "" ∅))
  = [aged someDay 95 "/bucket/prefix/b"; aged someDay 200 "/bucket/prefix/c"] /\
  length (sentOf (events (removeSingle E "s3/bucket/prefix/b" false false false false
                            "90d" "" ∅))) = 1%nat.
Proof. vm_compute. repeat split; reflexivity. Qed.

(** *** Fake runs *)

(** C10, as amended: a fake run sends no descriptor to the removal worker;
    it prints the entries that the run targets, a run that is not fake
    prints and sends a beginning of that list, and sends and prints all of
    it when the removal worker reports only permission failures.  A single
    removal prints the same message whether fake or not and, when not fake,
    sends one descriptor for it when the client is there. *)
Theorem fake_run_targets (E : Env) (url : string)
    (isIncomplete isForce isBypass : bool) (olderThan newerThan : string)
    (encKeyDB : gmap string (list prefixSSEPair)) :
  let fake := removeRecursive E url isIncomplete true isBypass olderThan newerThan
                encKeyDB in
  let real := removeRecursive E url isIncomplete false isBypass olderThan newerThan
                encKeyDB in
  let fake1 := removeSingle E url isIncomplete true isForce isBypass olderThan newerThan
                 encKeyDB in
  let real1 := removeSingle E url isIncomplete false isForce isBypass olderThan
                 newerThan encKeyDB in
  sentOf (events fake) = [] /\
  sentOf (events fake1) = [] /\
  (forall clnt,
     newClientFromAlias E (mustExpandAlias E url).1 (mustExpandAlias E url).2 = Ok clnt ->
     let goal := targeted E olderThan newerThan
                   (List clnt true isIncomplete false DirNone) in
     printedOf (events fake) = map (msgOf (mustExpandAlias E url).1) goal /\
     sentOf (events real) `prefix_of` goal /\
     printedOf (events real) `prefix_of` printedOf (events fake) /\
     ((forall sent c, Forall (fun e => isPathInsufficientPermission e = true)
                             (emit (Remove clnt isIncomplete false isBypass) sent c)) ->
      sentOf (events real) = goal /\
      printedOf (events real) = printedOf (events fake))) /\
  printedOf (events real1) = printedOf (events fake1) /\
  (length (sentOf (events real1)) <= length (printedOf (events fake1)))%nat /\
  (forall clnt,
     newClientFromAlias E (mustExpandAlias E url).1 (mustExpandAlias E url).2 = Ok clnt ->
     length (sentOf (events real1)) = length (printedOf (events fake1))).
Proof.
  intros fake real fake1 real1. subst fake real fake1 real1.
  destruct (removeSingle_sent_printed E url isIncomplete false isForce isBypass
              olderThan newerThan encKeyDB) as (Hp1 & Hs1 & Hle1 & Heq1).
  split; [|split; [exact Hs1|split; [|split; [exact Hp1|split; [exact Hle1|]]]]].
  - destruct (newClientFromAlias E (mustExpandAlias E url).1 (mustExpandAlias E url).2)
      as [clnt|e] eqn:Hclnt.
    + destruct (feedLoop E url (mustExpandAlias E url).1 true olderThan newerThan
                  (Remove clnt isIncomplete false isBypass)
                  (List clnt true isIncomplete false DirNone) [] []) as [evs r] eqn:Hfeed.
      destruct (removeRecursive_sent_printed _ _ _ _ _ _ _ encKeyDB _ _ _ Hclnt Hfeed)
        as [-> _].
      exact (proj1 (feedLoop_prefix _ _ _ _ _ _ _ _ _ _ _ _ Hfeed) eq_refl).
    + exact (proj1 (removeRecursive_no_client E url isIncomplete true isBypass olderThan
                      newerThan encKeyDB e Hclnt)).
  - intros clnt Hclnt goal. subst goal.
    destruct (feedLoop E url (mustExpandAlias E url).1 true olderThan newerThan
                (Remove clnt isIncomplete false isBypass)
                (List clnt true isIncomplete false DirNone) [] []) as [fevs fr] eqn:Hfake.
    destruct (feedLoop E url (mustExpandAlias E url).1 false olderThan newerThan
                (Remove clnt isIncomplete false isBypass)
                (List clnt true isIncomplete false DirNone) [] []) as [revs rr] eqn:Hreal.
    destruct (removeRecursive_sent_printed _ _ _ _ _ _ _ encKeyDB _ _ _ Hclnt Hfake)
      as [_ ->].
    destruct (removeRecursive_sent_printed _ _ _ _ _ _ _ encKeyDB _ _ _ Hclnt Hreal)
      as [-> ->].
    rewrite (feedLoop_fake _ _ _ _ _ _ _ _ eq_refl _ _ _ _ Hfake).
    destruct (feedLoop_prefix _ _ _ _ _ _ _ _ _ _ _ _ Hreal) as (_ & Hs & Hp).
    split; [reflexivity|split; [exact (Hs eq_refl)|split; [exact Hp|]]].
    intros Hworker.
    destruct (feedLoop_tolerant_worker _ _ _ _ _ _ _ _ eq_refl Hworker _ _ _ _
                (Forall_nil_2 _) Hreal) as (Hs' & Hp' & _).
    split; assumption.
  - intros clnt Hclnt. exact (Heq1 eq_refl clnt Hclnt).
Qed.

Lemma fake_run_targets_witness :
  let E := scenarioEnv agedListing quietWorker in
  map (msgOf "s3") (sentOf (events (removeRecursive E "s3/bucket/prefix/" false false
                                      false "90d" "" ∅)))
  = printedOf (events (removeRecursive E "s3/bucket/prefix/" false true false "90d" "" ∅)).
Proof.
  intros E.
  destruct (fake_run_targets E "s3/bucket/prefix/" false false false "90d" "" ∅)
    as (_ & _ & Hrec & _).
  destruct (Hrec (demoClient agedListing quietWorker (Fail notFound)) eq_refl)
    as (Hfake & _ & _ & Hall).
  destruct Hall as [Hsent _]; [intros sent c; constructor|].
  rewrite Hsent, Hfake. reflexivity.
Defined.

(** C10 fails as stated: with a removal worker that fails on the first
    descriptor with a failure that is not a permission failure, the fake run
    prints the two entries aged 95 and 200 days while the run that is not
    fake sends the first of them only. *)
Lemma fake_run_prints_more_than_sent :
  let E := scenarioEnv agedListing (failingWorker (ErrorString "remove failed")) in
  sentOf (events (removeRecursive E "s3/bucket/prefix/" false true false "90d" "" ∅)) = [] /\
  map Key (printedOf (events (removeRecursive E "s3/bucket/prefix/" false true false
                                "90d" "" ∅)))
  = ["s3/bucket/prefix/b"; "s3/bucket/prefix/c"] /\
  map (fun c => Path (URL c))
      (sentOf (events (removeRecursive E "s3/bucket/prefix/" false false false
                         "90d" "" ∅)))
  = ["/bucket/prefix/b"].
Proof. vm_compute. repeat split; reflexivity. Qed.

(** * Further properties *)

(** ** Encryption keys *)

Lemma Cut_Some (sep : ascii) (s a b : string) :
  Strings.Cut sep s = Some (a, b) ->
  s = a +:+ String sep b /\ noByte sep a = true.
Proof.
  revert a. induction s as [|c r IH]; simpl; intros a H; [discriminate|].
  destruct (Ascii.eqb c sep) eqn:Hc.
  - injection H as <- <-. apply Ascii.eqb_eq in Hc. subst c. split; reflexivity.
  - destruct (Strings.Cut sep r) as [[a' b']|]; [|discriminate].
    injection H as <- <-. destruct (IH a' eq_refl) as [-> Hn].
    split; [reflexivity|]. simpl. rewrite Hc. exact Hn.
Qed.

Lemma parseKey_plain_key (prefix key : string) :
  noByte "=" prefix = true -> String.length key = 32%nat ->
  parseKey (prefix +:+ "=" +:+ key) = Ok (prefix +:+ "=" +:+ key).
Proof.
  intros Hp Hk. unfold parseKey, Strings.SplitN2.
  change ("=" +:+ key) with (String "=" key).
  rewrite (Cut_append _ _ _ Hp). apply Nat.eqb_eq in Hk. rewrite Hk. reflexivity.
Qed.

(** X1: whatever [parseKey] accepts, what it returns has the form
    [prefix=key] with a key of exactly 32 bytes and no ['='] in the
    prefix. *)
Theorem parseKey_returns_32_byte_key (entry r : string) :
  parseKey entry = Ok r ->
  exists prefix key,
    r = prefix +:+ "=" +:+ key /\ noByte "=" prefix = true /\
    String.length key = 32%nat.
Proof.
  unfold parseKey, Strings.SplitN2.
  destruct (Strings.Cut "=" entry) as [[prefix secret]|] eqn:Hcut; [|discriminate].
  destruct (Cut_Some _ _ _ _ Hcut) as [-> Hp].
  destruct (String.length secret =? 32)%nat eqn:Hlen.
  - intros [= <-]. exists prefix, secret. apply Nat.eqb_eq in Hlen. auto.
  - destruct (Base64.DecodeString secret) as [d|]; [|discriminate].
    destruct (String.length d =? 32)%nat eqn:Hd; [|discriminate].
    intros [= <-]. exists prefix, d. apply Nat.eqb_eq in Hd. auto.
Qed.

Lemma parseKey_returns_32_byte_key_witness :
  exists prefix key,
    "p=0123456789abcdef0123456789abcdef" = prefix +:+ "=" +:+ key /\
    noByte "=" prefix = true /\ String.length key = 32%nat.
Proof.
  apply (parseKey_returns_32_byte_key "p=MDEyMzQ1Njc4OWFiY2RlZjAxMjM0NTY3ODlhYmNkZWY=").
  vm_compute. reflexivity.
Defined.

(** X2: [parseKey] leaves its own results unchanged: a decoded entry parses
    to itself. *)
Theorem parseKey_idempotent (entry r : string) :
  parseKey entry = Ok r -> parseKey r = Ok r.
Proof.
  unfold parseKey at 1. unfold Strings.SplitN2.
  destruct (Strings.Cut "=" entry) as [[prefix secret]|] eqn:Hcut; [|discriminate].
  destruct (Cut_Some _ _ _ _ Hcut) as [-> Hp].
  destruct (String.length secret =? 32)%nat eqn:Hlen.
  - intros [= <-]. apply Nat.eqb_eq in Hlen. exact (parseKey_plain_key _ _ Hp Hlen).
  - destruct (Base64.DecodeString secret) as [d|]; [|discriminate].
    destruct (String.length d =? 32)%nat eqn:Hd; [|discriminate].
    intros [= <-]. apply Nat.eqb_eq in Hd. exact (parseKey_plain_key _ _ Hp Hd).
Qed.

Lemma parseKey_idempotent_witness :
  parseKey "p=0123456789abcdef0123456789abcdef"
  = Ok "p=0123456789abcdef0123456789abcdef".
Proof.
  apply (parseKey_idempotent "p=MDEyMzQ1Njc4OWFiY2RlZjAxMjM0NTY3ODlhYmNkZWY=").
  vm_compute. reflexivity.
Defined.

Lemma append_cons (x : ascii) (a b : string) :
  String x a +:+ b = String x (a +:+ b).
Proof. reflexivity. Qed.

Lemma append_assoc_string (a b c : string) : (a +:+ b) +:+ c = a +:+ (b +:+ c).
Proof.
  induction a as [|x a IH]; [reflexivity|].
  rewrite !append_cons, IH. reflexivity.
Qed.

Lemma append_empty_r (a : string) : a +:+ "" = a.
Proof.
  induction a as [|x a IH]; [reflexivity|]. rewrite append_cons, IH. reflexivity.
Qed.

Lemma joinComma_commaTail (p : string) (rest : list string) :
  joinComma (p :: rest) = p +:+ commaTail rest.
Proof.
  revert p. induction rest as [|q rest IH]; intros p.
  - simpl. rewrite append_empty_r. reflexivity.
  - change (joinComma (p :: q :: rest)) with (p +:+ "," +:+ joinComma (q :: rest)).
    rewrite IH. reflexivity.
Qed.

Lemma getDecodedKey_loop_later (i : nat) (keyString : string) (parts rs : list string) :
  Forall2 (fun e r => parseKey e = Ok r) parts rs ->
  getDecodedKey_loop (S i) keyString parts = Ok (keyString +:+ commaTail rs).
Proof.
  intros H. revert i keyString.
  induction H as [|e r parts rs He _ IH]; intros i keyString; simpl.
  - rewrite append_empty_r. reflexivity.
  - rewrite He, IH. rewrite !append_assoc_string. reflexivity.
Qed.

Lemma getDecodedKey_loop_first (e r : string) (parts rs : list string) :
  parseKey e = Ok r ->
  Forall2 (fun e r => parseKey e = Ok r) parts rs ->
  getDecodedKey_loop 0 "" (e :: parts) = Ok (joinComma (r :: rs)).
Proof.
  intros He Hrest.
  change (getDecodedKey_loop 0 "" (e :: parts))
    with (match parseKey e with
          | Fail err => Fail err
          | Ok sseString => getDecodedKey_loop 1 ("" +:+ sseString) parts
          end).
  rewrite He, (getDecodedKey_loop_later _ _ _ _ Hrest), joinComma_commaTail.
  reflexivity.
Qed.

Lemma getDecodedKey_loop_later_fail (i : nat) (keyString : string)
    (pre rs : list string) (bad : string) (post : list string) (err : GoError) :
  Forall2 (fun e r => parseKey e = Ok r) pre rs ->
  parseKey bad = Fail err ->
  getDecodedKey_loop (S i) keyString (pre ++ bad :: post) = Fail err.
Proof.
  intros H Hbad. revert i keyString.
  induction H as [|e r parts rs' He _ IH]; intros i keyString; simpl.
  - rewrite Hbad. reflexivity.
  - rewrite He. apply IH.
Qed.

(** X3: [getDecodedKey] parses the comma-separated entries in order: when
    all of them parse, it returns the parsed entries joined by commas; when
    one does not, it returns the error of the first such entry. *)
Theorem getDecodedKey_all_or_first_error (sseKeys : string) :
  (forall rs,
     Forall2 (fun e r => parseKey e = Ok r) (Strings.Split sseKeys ",") rs ->
     getDecodedKey sseKeys = Ok (joinComma rs)) /\
  (forall pre rs bad post err,
     Strings.Split sseKeys "," = pre ++ bad :: post ->
     Forall2 (fun e r => parseKey e = Ok r) pre rs ->
     parseKey bad = Fail err ->
     getDecodedKey sseKeys = Fail err).
Proof.
  unfold getDecodedKey. split.
  - intros rs H. destruct H as [|e r parts rs He Hrest]; [reflexivity|].
    exact (getDecodedKey_loop_first _ _ _ _ He Hrest).
  - intros pre rs bad post err -> Hpre Hbad.
    destruct Hpre as [|e r parts rs He Hrest]; simpl.
    + rewrite Hbad. reflexivity.
    + rewrite He. exact (getDecodedKey_loop_later_fail _ _ _ _ _ _ _ Hrest Hbad).
Qed.

Lemma getDecodedKey_all_or_first_error_witness :
  getDecodedKey "a=AAAAAAAAAAAAAAAAAAAAAAAAAAAAAAAA,b=short,c"
  = Fail errKeyLength.
Proof.
  apply (proj2 (getDecodedKey_all_or_first_error
                  "a=AAAAAAAAAAAAAAAAAAAAAAAAAAAAAAAA,b=short,c")
           ["a=AAAAAAAAAAAAAAAAAAAAAAAAAAAAAAAA"] ["a=AAAAAAAAAAAAAAAAAAAAAAAAAAAAAAAA"]
           "b=short" ["c"]).
  - reflexivity.
  - repeat constructor.
  - vm_compute. reflexivity.
Defined.

Lemma Split_nonempty (s : string) (sep : ascii) : Strings.Split s sep <> [].
Proof.
  induction s as [|c r IH]; simpl; [discriminate|].
  destruct (Ascii.eqb c sep); [discriminate|].
  destruct (Strings.Split r sep); discriminate.
Qed.

(** Splitting at the commas and joining with commas gives the text back. *)
Lemma joinComma_Split (s : string) : joinComma (Strings.Split s ",") = s.
Proof.
  induction s as [|c r IH]; [reflexivity|]. simpl.
  destruct (Ascii.eqb c ",") eqn:Hc.
  - apply Ascii.eqb_eq in Hc. subst c.
    destruct (Strings.Split r ",") as [|f fs] eqn:Hs;
      [exfalso; exact (Split_nonempty _ _ Hs)|].
    change (joinComma ("" :: f :: fs)) with ("" +:+ "," +:+ joinComma (f :: fs)).
    rewrite IH. reflexivity.
  - destruct (Strings.Split r ",") as [|f fs] eqn:Hs;
      [exfalso; exact (Split_nonempty _ _ Hs)|].
    rewrite joinComma_commaTail. rewrite joinComma_commaTail in IH.
    rewrite append_cons, IH. reflexivity.
Qed.

(** X4: a key list whose every entry is already in decoded form (each entry
    parses to itself, as every [prefix=key] with a 32-byte key does) is
    returned unchanged by [getDecodedKey]. *)
Theorem getDecodedKey_decoded_unchanged (sseKeys : string) :
  Forall (fun e => parseKey e = Ok e) (Strings.Split sseKeys ",") ->
  getDecodedKey sseKeys = Ok sseKeys.
Proof.
  intros H. unfold getDecodedKey.
  rewrite <- (joinComma_Split sseKeys) at 2.
  destruct (Strings.Split sseKeys ",") as [|e parts]; [reflexivity|].
  apply Forall_cons in H as [He Hrest].
  apply getDecodedKey_loop_first; [exact He|].
  clear He. induction Hrest; constructor; assumption.
Qed.

Lemma getDecodedKey_decoded_unchanged_witness :
  getDecodedKey "a=AAAAAAAAAAAAAAAAAAAAAAAAAAAAAAAA,b=0123456789abcdef0123456789abcdef"
  = Ok "a=AAAAAAAAAAAAAAAAAAAAAAAAAAAAAAAA,b=0123456789abcdef0123456789abcdef".
Proof.
  apply getDecodedKey_decoded_unchanged. vm_compute. repeat constructor.
Defined.

(** ** Metadata filtering *)

Lemma rangeMap_NoDup (E : Env) (site : nat) (m : gmap string string) :
  RangeOK E -> NoDup (rangeMap E site m).*1.
Proof. intros HE. rewrite (HE site m). apply NoDup_fst_map_to_list. Qed.

Lemma rangeMap_keys (E : Env) (site : nat) (m : gmap string string) (k : string) :
  RangeOK E -> k ∈ (rangeMap E site m).*1 <-> is_Some (m !! k).
Proof.
  intros HE. rewrite list_elem_of_fmap. split.
  - intros ([k' v] & -> & Hin). apply (rangeMap_elem E site m k' v HE) in Hin.
    exists v. exact Hin.
  - intros [v Hv]. exists (k, v). split; [reflexivity|].
    apply (rangeMap_elem E site m k v HE). exact Hv.
Qed.

(** The copying loop over pairs with distinct keys. *)
Lemma foldl_copyValid_lookup (l : list (string * string)) :
  NoDup l.*1 ->
  forall (md : gmap string string) (k : string),
  foldl (fun md kv =>
           if Header.ValidHeaderFieldName kv.1 && Header.ValidHeaderFieldValue kv.2
           then <[kv.1 := kv.2]> md else md) md l !! k
  = match (list_to_map l : gmap string string) !! k with
    | Some v =>
        if Header.ValidHeaderFieldName k && Header.ValidHeaderFieldValue v
        then Some v else md !! k
    | None => md !! k
    end.
Proof.
  induction l as [|[k1 v1] r IH]; intros Hnd md k; [reflexivity|].
  apply NoDup_cons in Hnd as [Hk1 Hnd]. cbn [foldl fst snd].
  rewrite (IH Hnd). cbn [list_to_map foldr fst snd uncurry].
  destruct (decide (k1 = k)) as [<-|Hne].
  - rewrite lookup_insert_eq.
    rewrite (proj1 (not_elem_of_list_to_map r k1) Hk1).
    destruct (_ && _); [apply lookup_insert_eq|reflexivity].
  - rewrite lookup_insert_ne by exact Hne.
    destruct (list_to_map r !! k) as [v|]; [destruct (_ && _); [reflexivity|]|];
      (destruct (Header.ValidHeaderFieldName k1 && Header.ValidHeaderFieldValue v1);
       [apply lookup_insert_ne; exact Hne|reflexivity]).
Qed.

Lemma list_to_map_rangeMap (E : Env) (site : nat) (m : gmap string string) :
  RangeOK E -> list_to_map (rangeMap E site m) = m.
Proof.
  intros HE. rewrite <- (list_to_map_to_list m) at 2.
  apply list_to_map_proper; [apply rangeMap_NoDup; exact HE|apply HE].
Qed.

Lemma copyValid_lookup (E : Env) (site : nat) (src md : gmap string string) (k : string) :
  RangeOK E ->
  copyValid E site src md !! k
  = match src !! k with
    | Some v =>
        if Header.ValidHeaderFieldName k && Header.ValidHeaderFieldValue v
        then Some v else md !! k
    | None => md !! k
    end.
Proof.
  intros HE. unfold copyValid.
  rewrite (foldl_copyValid_lookup _ (rangeMap_NoDup E site src HE)).
  rewrite (list_to_map_rangeMap E site src HE). reflexivity.
Qed.

(** The deleting loop. *)
Lemma foldl_delete_lookup (p : string -> bool) (l : list (string * string)) :
  forall (md : gmap string string) (k : string),
  foldl (fun md kv => if p kv.1 then delete kv.1 md else md) md l !! k
  = if bool_decide (k ∈ l.*1) && p k then None else md !! k.
Proof.
  induction l as [|[k1 v1] r IH]; intros md k; [reflexivity|].
  cbn [foldl fst snd]. rewrite IH. cbn [fmap list_fmap fst].
  destruct (decide (k1 = k)) as [<-|Hne].
  - rewrite (bool_decide_eq_true_2 (k1 ∈ k1 :: r.*1)) by (left).
    destruct (p k1) eqn:Hp; cbn [andb].
    + rewrite andb_true_r. destruct (bool_decide _); [reflexivity|].
      apply lookup_delete_eq.
    + rewrite andb_false_r. reflexivity.
  - assert (Hin : bool_decide (k ∈ k1 :: r.*1) = bool_decide (k ∈ r.*1)).
    { apply bool_decide_ext. rewrite elem_of_cons. split; [|auto].
      intros [->|H]; [contradiction|exact H]. }
    rewrite Hin. destruct (bool_decide (k ∈ r.*1) && p k); [reflexivity|].
    destruct (p k1); [apply lookup_delete_ne; exact Hne|reflexivity].
Qed.

(** What [filterMetadata] leaves at a key. *)
Lemma filterMetadata_at (E : Env) (metadata : gmap string string) (k : string) :
  RangeOK E ->
  filterMetadata E metadata !! k
  = match metadata !! k with
    | Some v => if transmissible E k v then Some v else None
    | None => None
    end.
Proof.
  intros HE. unfold filterMetadata.
  rewrite (foldl_delete_lookup
             (fun k => Strings.HasPrefix (Header.CanonicalHeaderKey k)
                         (Header.CanonicalHeaderKey (serverEncryptionKeyPrefix E)))).
  rewrite (copyValid_lookup E 10 metadata ∅ k HE), lookup_empty.
  unfold transmissible.
  destruct (metadata !! k) as [v|] eqn:Hk.
  - rewrite (bool_decide_eq_true_2 _ (proj2 (rangeMap_keys E 11 metadata k HE)
                                        (ex_intro _ v Hk))).
    cbn [andb].
    destruct (Strings.HasPrefix _ _); cbn [negb];
      [rewrite andb_false_r; reflexivity|rewrite andb_true_r; reflexivity].
  - destruct (_ && _); reflexivity.
Qed.

(** X5: [filterMetadata] keeps exactly the entries whose name and value are
    valid in a header and whose name is not an encryption key header, with
    their values; it adds nothing. *)
Theorem filterMetadata_keeps_transmissible (E : Env) (metadata : gmap string string)
    (k v : string) :
  RangeOK E ->
  filterMetadata E metadata !! k = Some v
  <-> metadata !! k = Some v /\ transmissible E k v = true.
Proof.
  intros HE. rewrite (filterMetadata_at E metadata k HE).
  destruct (metadata !! k) as [w|].
  - destruct (transmissible E k w) eqn:Ht.
    + split; [intros [= <-]; auto|intros [[= <-] _]; reflexivity].
    + split; [discriminate|]. intros [[= <-] Hv]. rewrite Hv in Ht. discriminate.
  - split; [discriminate|intros [Hno _]; discriminate].
Qed.

Lemma filterMetadata_keeps_transmissible_witness :
  filterMetadata plainEnv
    (<["X-Amz-Server-Side-Encryption-Customer-Key" := "secret"]>
       {["Content-Type" := "text/plain"]})
  !! "Content-Type" = Some "text/plain".
Proof.
  apply (filterMetadata_keeps_transmissible plainEnv _ _ _ (RangeOK_demoEnv _ _ _)).
  vm_compute. split; reflexivity.
Defined.

(** X6: filtering twice is filtering once, and the filtered map is a part
    of the given map. *)
Theorem filterMetadata_idempotent (E : Env) (metadata : gmap string string) :
  RangeOK E ->
  filterMetadata E (filterMetadata E metadata) = filterMetadata E metadata /\
  filterMetadata E metadata ⊆ metadata.
Proof.
  intros HE. split.
  - apply map_eq. intros k.
    rewrite (filterMetadata_at E (filterMetadata E metadata) k HE).
    rewrite (filterMetadata_at E metadata k HE).
    destruct (metadata !! k) as [v|]; [|reflexivity].
    destruct (transmissible E k v) eqn:Ht; [rewrite Ht|]; reflexivity.
  - apply map_subseteq_spec. intros k v.
    rewrite (filterMetadata_at E metadata k HE).
    destruct (metadata !! k) as [w|]; [|discriminate].
    destruct (transmissible E k w); [auto|discriminate].
Qed.

Lemma filterMetadata_idempotent_witness :
  filterMetadata plainEnv
    (filterMetadata plainEnv {["Content-Type" := "text/plain"]})
  = filterMetadata plainEnv {["Content-Type" := "text/plain"]}.
Proof.
  exact (proj1 (filterMetadata_idempotent plainEnv _ (RangeOK_demoEnv _ _ _))).
Defined.

(** ** What is transmitted *)

Lemma copySourceToTargetURL_hands (E : Env) alias urlStr source mode until lh size
    s1 s2 md dm (P : Call -> Prop) :
  P (CallCopy alias urlStr source size s1 s2 (withLockHeaders E mode until lh md) dm) ->
  Forall P (copySourceToTargetURL E alias urlStr source mode until lh size s1 s2 md dm).1.
Proof.
  intros HP. unfold copySourceToTargetURL.
  apply wbind_Forall; [apply wlift_Forall|]. intros clnt _. apply wcall_Forall, HP.
Qed.

Lemma putTargetStream_hands (E : Env) alias urlStr mode until lh reader limited size
    md sse md5 dm (P : Call -> Prop) :
  P (CallPut alias urlStr limited size (withGivenLockHeaders E mode until lh md) sse md5 dm) ->
  Forall P (putTargetStream E alias urlStr mode until lh reader limited size md sse md5 dm).1.
Proof.
  intros HP. unfold putTargetStream.
  apply wbind_Forall; [apply wlift_Forall|]. intros clnt _.
  destruct (Put clnt _ _ _ _ _ _ _) as [n err]. apply wcall_Forall, HP.
Qed.

(** Every map that [uploadSourceToTargetURL] hands to [Copy] or [Put] is a
    filtered map with lock headers set on it. *)
Lemma upload_hands_filtered (E : Env) urls encKeyDB preserve (P : Call -> Prop) :
  (forall a u i p s, P (CallStat a u i p s)) ->
  (forall a u m t b, P (CallPutObjectRetention a u m t b)) ->
  (forall a u s, P (CallGet a u s)) ->
  (forall a u s z x y d mode until lh m,
     P (CallCopy a u s z x y (withLockHeaders E mode until lh (filterMetadata E m)) d)) ->
  (forall a u l z s x d mode until lh m,
     P (CallPut a u l z (withGivenLockHeaders E mode until lh (filterMetadata E m)) s x d)) ->
  Forall P (uploadSourceToTargetURL E urls encKeyDB preserve).1.
Proof.
  intros HS HR HG HC HP. rewrite upload_trace.
  unfold uploadSourceToTargetURL_body.
  apply wbind_Forall; [rewrite retentionOverrides_silent; constructor|].
  intros retention _.
  apply wbind_Forall; [rewrite legalHoldOverride_silent; constructor|].
  intros legalHold _.
  destruct (String.eqb (SourceAlias urls) (TargetAlias urls)).
  - apply wbind_Forall; [apply metadataOrStat_calls, HS|]. intros md _.
    destruct (RetentionEnabled (SourceContent urls)).
    + apply putTargetRetention_calls, HR.
    + apply copySourceToTargetURL_hands, HC.
  - destruct (RetentionEnabled (SourceContent urls)).
    + apply wbind_Forall; [apply metadataOrStat_calls, HS|]. intros md _.
      apply putTargetRetention_calls, HR.
    + apply wbind_Forall; [apply getSourceStream_calls; [exact HS|exact HG]|].
      intros stream _.
      apply wbind_Forall; [apply putTargetStream_hands, HP|].
      intros n _. apply wret_Forall.
Qed.

Lemma withLockHeaders_lookup (E : Env) mode until lh (md : gmap string string) k v :
  withLockHeaders E mode until lh md !! k = Some v ->
  isLockHeader E k \/ md !! k = Some v.
Proof.
  unfold withLockHeaders, isLockHeader. intros H.
  apply lookup_insert_Some in H as [[<- _]|[_ H]]; [auto|].
  apply lookup_insert_Some in H as [[<- _]|[_ H]]; [auto|].
  apply lookup_insert_Some in H as [[<- _]|[_ H]]; auto.
Qed.

Lemma withGivenLockHeaders_lookup (E : Env) mode until lh (md : gmap string string) k v :
  withGivenLockHeaders E mode until lh md !! k = Some v ->
  isLockHeader E k \/ md !! k = Some v.
Proof.
  unfold withGivenLockHeaders, isLockHeader. intros H.
  destruct (String.eqb lh "");
    [|apply lookup_insert_Some in H as [[<- _]|[_ H]]; [auto|]];
    (destruct (String.eqb until "");
     [|apply lookup_insert_Some in H as [[<- _]|[_ H]]; [auto|]]);
    (destruct (String.eqb mode "");
     [|apply lookup_insert_Some in H as [[<- _]|[_ H]]; [auto|]]); auto.
Qed.

Lemma filterMetadata_transmissible (E : Env) (m : gmap string string) (k v : string) :
  RangeOK E -> filterMetadata E m !! k = Some v -> transmissible E k v = true.
Proof.
  intros HE. rewrite (filterMetadata_at E m k HE).
  destruct (m !! k) as [w|]; [|discriminate].
  destruct (transmissible E k w) eqn:Ht; [|discriminate].
  intros [= <-]. exact Ht.
Qed.

(** X7: whatever the inputs, every entry of a map that
    [uploadSourceToTargetURL] hands to [Copy] or [Put] is either one of the
    three object lock headers or an entry with a header-valid name and
    value that is not an encryption key header. *)
Theorem upload_transmits_filtered_metadata (E : Env) (urls : URLs)
    (encKeyDB : gmap string (list prefixSSEPair)) (preserve : bool) :
  RangeOK E ->
  forall c md k v,
  c ∈ (uploadSourceToTargetURL E urls encKeyDB preserve).1 ->
  callMetadata c = Some md -> md !! k = Some v ->
  isLockHeader E k \/ transmissible E k v = true.
Proof.
  intros HE c md k v Hin.
  assert (Hall := upload_hands_filtered E urls encKeyDB preserve
    (fun c => forall md k v, callMetadata c = Some md -> md !! k = Some v ->
                             isLockHeader E k \/ transmissible E k v = true)).
  rewrite Forall_forall in Hall. revert md k v. apply Hall; [| | | | |exact Hin];
    try (intros; discriminate).
  - intros a u s z x y d mode until lh m md k v [= <-] Hk.
    apply withLockHeaders_lookup in Hk as [Hk|Hk]; [left; exact Hk|right].
    exact (filterMetadata_transmissible E m k v HE Hk).
  - intros a u l z s x d mode until lh m md k v [= <-] Hk.
    apply withGivenLockHeaders_lookup in Hk as [Hk|Hk]; [left; exact Hk|right].
    exact (filterMetadata_transmissible E m k v HE Hk).
Qed.

Lemma upload_transmits_filtered_metadata_witness :
  Forall (fun c => forall md k v,
            callMetadata c = Some md -> md !! k = Some v ->
            isLockHeader plainEnv k \/ transmissible plainEnv k v = true)
         (uploadSourceToTargetURL plainEnv sameAliasURLs ∅ false).1.
Proof.
  apply Forall_forall. intros c Hin md k v.
  exact (upload_transmits_filtered_metadata plainEnv sameAliasURLs ∅ false
           (RangeOK_demoEnv _ _ _) c md k v Hin).
Defined.

(** ** Lock headers *)

(** X8: [copySourceToTargetURL] always sets the three object lock headers
    to the overrides it is given, also when these are empty, whatever the
    metadata held under these names, and leaves every other entry as it
    is; [putTargetStream] given no override hands the metadata on
    unchanged. *)
Theorem copy_overwrites_lock_headers (E : Env) (alias urlStr source mode until
    legalHold : string) (size : Z) (srcSSE tgtSSE sse : ServerSide)
    (metadata : gmap string string) (md5 disableMultipart limited : bool)
    (reader : Reader) (clnt : Client) :
  newClientFromAlias E alias urlStr = Ok clnt ->
  (exists handed,
     (copySourceToTargetURL E alias urlStr source mode until legalHold size srcSSE
        tgtSSE metadata disableMultipart).1
     = [CallCopy alias urlStr source size srcSSE tgtSSE handed disableMultipart] /\
     handed !! AmzObjectLockLegalHold E = Some legalHold /\
     (AmzObjectLockRetainUntilDate E <> AmzObjectLockLegalHold E ->
      handed !! AmzObjectLockRetainUntilDate E = Some until) /\
     (AmzObjectLockMode E <> AmzObjectLockRetainUntilDate E ->
      AmzObjectLockMode E <> AmzObjectLockLegalHold E ->
      handed !! AmzObjectLockMode E = Some mode) /\
     (forall k, ~ isLockHeader E k -> handed !! k = metadata !! k)) /\
  (putTargetStream E alias urlStr "" "" "" reader limited size metadata sse md5
     disableMultipart).1
  = [CallPut alias urlStr limited size metadata sse md5 disableMultipart].
Proof.
  intros Hclnt. split.
  - exists (withLockHeaders E mode until legalHold metadata). split; [|split; [|split; [|split]]].
    + unfold copySourceToTargetURL. rewrite Hclnt. unfold wlift.
      rewrite wbind_pure. reflexivity.
    + unfold withLockHeaders. apply lookup_insert_eq.
    + intros Hne. unfold withLockHeaders.
      rewrite lookup_insert_ne by (intros Heq; apply Hne; symmetry; exact Heq).
      apply lookup_insert_eq.
    + intros Hne1 Hne2. unfold withLockHeaders.
      rewrite lookup_insert_ne by (intros Heq; apply Hne2; symmetry; exact Heq).
      rewrite lookup_insert_ne by (intros Heq; apply Hne1; symmetry; exact Heq).
      apply lookup_insert_eq.
    + intros k Hk. unfold withLockHeaders, isLockHeader in *.
      rewrite !lookup_insert_ne; [reflexivity| | |]; intros Heq; apply Hk; auto.
  - unfold putTargetStream. rewrite Hclnt. unfold wlift. rewrite wbind_pure.
    cbn [String.eqb]. destruct (Put clnt _ _ _ _ _ _ _) as [n err]. reflexivity.
Qed.

Lemma copy_overwrites_lock_headers_witness :
  exists handed,
    (copySourceToTargetURL plainEnv "fsA" "/dest.txt" "/file.txt" "" "" "" 1 None None
       {["X-Amz-Object-Lock-Mode" := "GOVERNANCE"]} false).1
    = [CallCopy "fsA" "/dest.txt" "/file.txt" 1 None None handed false] /\
    handed !! "X-Amz-Object-Lock-Mode" = Some "".
Proof.
  destruct (copy_overwrites_lock_headers plainEnv "fsA" "/dest.txt" "/file.txt" "" "" ""
              1 None None None {["X-Amz-Object-Lock-Mode" := "GOVERNANCE"]} false false
              false demoReader (demoClient [] quietWorker (Fail notFound)) eq_refl)
    as [(handed & Hcalls & _ & _ & Hmode & _) _].
  exists handed. split; [exact Hcalls|].
  apply Hmode; discriminate.
Defined.

(** ** Source streams *)

(** X9: the metadata that [getSourceStream] returns holds, apart from
    [Content-Type], only entries with a header-valid name and value; when no
    stat is asked for it is empty and the only call is the [Get]. *)
Theorem getSourceStream_metadata_valid (E : Env) (alias urlStr : string)
    (fetchStat : bool) (sse : ServerSide) (preserve : bool) (calls : list Call)
    (reader : Reader) (metadata : gmap string string) :
  RangeOK E ->
  getSourceStream E alias urlStr fetchStat sse preserve = (calls, Ok (reader, metadata)) ->
  (forall k v, metadata !! k = Some v ->
     k = "Content-Type" \/
     (Header.ValidHeaderFieldName k = true /\ Header.ValidHeaderFieldValue v = true)) /\
  (fetchStat = false -> metadata = ∅ /\ calls = [CallGet alias urlStr sse]).
Proof.
  intros HE. unfold getSourceStream.
  destruct (newClientFromAlias E alias urlStr) as [clnt|e]; [|discriminate].
  unfold wlift. rewrite wbind_pure. unfold wcall.
  destruct (Get clnt sse) as [rd|e]; [|discriminate]. cbn [wbind].
  destruct fetchStat.
  - assert (Hvalid : forall st k v, copyValid E 20 st ∅ !! k = Some v ->
              Header.ValidHeaderFieldName k = true /\
              Header.ValidHeaderFieldValue v = true).
    { intros st k v. rewrite (copyValid_lookup E 20 st ∅ k HE), lookup_empty.
      destruct (st !! k) as [w|]; [|discriminate].
      destruct (Header.ValidHeaderFieldName k && Header.ValidHeaderFieldValue w) eqn:Hv;
        [|discriminate].
      intros [= <-]. apply andb_true_iff in Hv. exact Hv. }
    assert (Hmeta : forall st r,
              (if match copyValid E 20 st ∅ !! "Content-Type" with
                  | Some ctype => String.eqb ctype "application/octet-stream"
                  | None => false
                  end && negb (bool_decide (is_Some (minioObject rd)))
               then match probeContentType E rd with
                    | (_, Some err) => wlift (Fail err)
                    | (ctype, None) =>
                        wret (rd, <["Content-Type" := ctype]> (copyValid E 20 st ∅))
                    end
               else wret (rd, copyValid E 20 st ∅)) = r ->
              forall t, r = (t, Ok (reader, metadata)) ->
              forall k v, metadata !! k = Some v ->
                k = "Content-Type" \/
                (Header.ValidHeaderFieldName k = true /\
                 Header.ValidHeaderFieldValue v = true)).
    { intros st r Hr t Ht k v Hk. subst r.
      destruct (_ && _).
      - destruct (probeContentType E rd) as [ctype [err|]]; [discriminate|].
        injection Ht as _ _ <-.
        apply lookup_insert_Some in Hk as [[<- _]|[_ Hk]]; [left; reflexivity|].
        right. exact (Hvalid _ _ _ Hk).
      - injection Ht as _ _ <-. right. exact (Hvalid _ _ _ Hk). }
    destruct (minioObject rd) as [[h|e]|] eqn:Hmo.
    + unfold wret at 1. rewrite wbind_pure. rewrite <- Hmo.
      intros H. split; [|discriminate].
      match type of H with
      | (let '(t', r) := ?m in _) = _ =>
          destruct m as [t' r'] eqn:Hm; injection H as <- Hr; subst r'
      end.
      rewrite Hmo in Hm. exact (Hmeta _ _ Hm _ eq_refl).
    + unfold wlift. cbn [wbind]. discriminate.
    + destruct (Stat clnt false preserve sse) as [st|e]; [|discriminate].
      cbn [wbind wret app]. rewrite <- Hmo.
      intros H. split; [|discriminate].
      match type of H with
      | (let '(t', r) := (let '(t2, r2) := ?m in _) in _) = _ =>
          destruct m as [t2 r2] eqn:Hm; injection H as <- Hr; subst r2
      end.
      rewrite Hmo in Hm. exact (Hmeta _ _ Hm _ eq_refl).
  - unfold wret. intros [= <- <- <-]. split.
    + intros k v Hk. rewrite lookup_empty in Hk. discriminate.
    + intros _. split; reflexivity.
Qed.

Lemma getSourceStream_metadata_valid_witness :
  match getSourceStream readableEnv "fsA" "/file.txt" true None false with
  | (_, Ok (_, metadata)) =>
      forall k v, metadata !! k = Some v ->
        k = "Content-Type" \/
        (Header.ValidHeaderFieldName k = true /\ Header.ValidHeaderFieldValue v = true)
  | (_, Fail _) => False
  end.
Proof.
  destruct (getSourceStream readableEnv "fsA" "/file.txt" true None false)
    as [calls [[reader metadata]|e]] eqn:H.
  - exact (proj1 (getSourceStream_metadata_valid readableEnv "fsA" "/file.txt" true None
                    false calls reader metadata (RangeOK_demoEnv _ _ _) H)).
  - vm_compute in H. discriminate.
Defined.

(** X10: [probeContentType] never yields an empty content type; for a
    reader that cannot seek, or that has nothing to read, it yields the
    generic type without an error, and whenever it reports an error it
    yields the generic type. *)
Theorem probeContentType_never_empty (E : Env) (reader : Reader) :
  (probeContentType E reader).1 <> "" /\
  (seeker reader = false \/ head512 reader = "" ->
   probeContentType E reader = ("application/octet-stream", None)) /\
  ((probeContentType E reader).2 <> None ->
   (probeContentType E reader).1 = "application/octet-stream").
Proof.
  unfold probeContentType. split; [|split].
  - destruct (seeker reader); [|discriminate].
    destruct (String.length (head512 reader) <=? 0)%nat; [discriminate|].
    destruct (filetypeMatch E (head512 reader)) as [mime|e]; [|discriminate].
    destruct (seekErr reader); [discriminate|]. simpl.
    destruct (String.eqb mime "") eqn:Hm; [discriminate|].
    apply String.eqb_neq in Hm. exact Hm.
  - intros [->| ->]; [reflexivity|]. destruct (seeker reader); reflexivity.
  - destruct (seeker reader); [|intros H; reflexivity].
    destruct (String.length (head512 reader) <=? 0)%nat; [reflexivity|].
    destruct (filetypeMatch E (head512 reader)) as [mime|e]; [|reflexivity].
    destruct (seekErr reader); [reflexivity|]. simpl. intros H. contradiction.
Qed.

(** X11: [getSourceStreamFromURL] asks for no stat and probes no content
    type: when the alias does not expand or the client cannot be built it
    issues no call and returns the error; otherwise it issues exactly one
    call, the [Get] of the expanded address with the key of the address,
    and returns what the [Get] returns. *)
Theorem getSourceStreamFromURL_only_gets (E : Env) (urlStr : string)
    (encKeyDB : gmap string (list prefixSSEPair)) :
  (forall e, expandAlias E urlStr = Fail e ->
     getSourceStreamFromURL E urlStr encKeyDB = ([], Fail e)) /\
  (forall alias urlStrFull hostCfg,
     expandAlias E urlStr = Ok (alias, urlStrFull, hostCfg) ->
     let sse := getSSE E urlStr (default [] (encKeyDB !! alias)) in
     (forall e, newClientFromAlias E alias urlStrFull = Fail e ->
        getSourceStreamFromURL E urlStr encKeyDB = ([], Fail e)) /\
     (forall clnt, newClientFromAlias E alias urlStrFull = Ok clnt ->
        getSourceStreamFromURL E urlStr encKeyDB
        = ([CallGet alias urlStrFull sse], Get clnt sse))).
Proof.
  unfold getSourceStreamFromURL. split.
  - intros e ->. reflexivity.
  - intros alias urlStrFull hostCfg Hexp. rewrite Hexp. cbv zeta.
    unfold getSourceStream. split.
    + intros e ->. reflexivity.
    + intros clnt ->. unfold wlift. rewrite wbind_pure. unfold wcall.
      destruct (Get clnt _) as [rd|e]; reflexivity.
Qed.

Lemma getSourceStreamFromURL_only_gets_witness :
  getSourceStreamFromURL readableEnv "/file.txt" ∅
  = ([CallGet "" "/file.txt" None], Ok demoReader).
Proof.
  destruct (getSourceStreamFromURL_only_gets readableEnv "/file.txt" ∅) as [_ H].
  destruct (H "" "/file.txt" None eq_refl) as [_ Hget].
  exact (Hget (demoClient [] quietWorker
                 (Ok (demoContent "/file.txt" 0 420 {["Content-Type" := "text/plain"]} ∅)))
              eq_refl).
Defined.

(** X12: [putTargetStreamWithURL] puts the content type guessed from the
    address into [Content-Type], over one the caller may have given,
    leaves the other entries of the caller as they are, and adds no lock
    header. *)
Theorem putTargetStreamWithURL_sets_content_type (E : Env) (X : Aux) (urlStr : string)
    (reader : Reader) (size : Z) (sse : ServerSide) (md5 disableMultipart : bool)
    (metadata : option (gmap string string)) (alias urlStrFull : string)
    (hostCfg : option string) (clnt : Client) :
  expandAlias E urlStr = Ok (alias, urlStrFull, hostCfg) ->
  newClientFromAlias E alias urlStrFull = Ok clnt ->
  exists handed,
    (putTargetStreamWithURL E X urlStr reader size sse md5 disableMultipart metadata).1
    = [CallPut alias urlStrFull false size handed sse md5 disableMultipart] /\
    handed !! "Content-Type" = Some (guessURLContentType X urlStr) /\
    (forall k, k <> "Content-Type" -> handed !! k = default ∅ metadata !! k).
Proof.
  intros Hexp Hclnt. unfold putTargetStreamWithURL. rewrite Hexp.
  exists (<["Content-Type" := guessURLContentType X urlStr]> (default ∅ metadata)).
  split; [|split].
  - unfold putTargetStream. rewrite Hclnt. unfold wlift. rewrite wbind_pure.
    cbn [String.eqb]. destruct (Put clnt _ _ _ _ _ _ _) as [n err]. reflexivity.
  - apply lookup_insert_eq.
  - intros k Hk. apply lookup_insert_ne. congruence.
Qed.

Lemma putTargetStreamWithURL_sets_content_type_witness :
  exists handed,
    (putTargetStreamWithURL plainEnv demoAux "/tmp/a.txt" demoReader 5 None false false
       (Some {["Content-Type" := "application/json"]})).1
    = [CallPut "" "/tmp/a.txt" false 5 handed None false false] /\
    handed !! "Content-Type" = Some "text/plain".
Proof.
  destruct (putTargetStreamWithURL_sets_content_type plainEnv demoAux "/tmp/a.txt"
              demoReader 5 None false false
              (Some {["Content-Type" := "application/json"]}) "" "/tmp/a.txt" None
              (demoClient [] quietWorker (Fail notFound)) eq_refl eq_refl)
    as (handed & Hcalls & Hct & _).
  exists handed. split; assumption.
Defined.

(** ** Clients *)

Lemma HasPrefix_append (p r : string) : Strings.HasPrefix (p +:+ r) p = true.
Proof.
  induction p as [|c p IH].
  - change ("" +:+ r) with r. destruct r; reflexivity.
  - rewrite append_cons. simpl. rewrite Ascii.eqb_refl. exact IH.
Qed.

(** X13: given an address that starts with [http://] or [https://] and
    belongs to no alias, [newClient] builds no client and fails with the
    invalid-aliased-URL error. *)
Theorem newClient_rejects_plain_urls (E : Env) (X : Aux) (aliasedURL rest alias
    urlStrFull : string) :
  aliasedURL = "http://" +:+ rest \/ aliasedURL = "https://" +:+ rest ->
  expandAlias E aliasedURL = Ok (alias, urlStrFull, None) ->
  newClient E X aliasedURL = Fail (errInvalidAliasedURL X aliasedURL).
Proof.
  intros Hurl Hexp. unfold newClient. rewrite Hexp.
  assert (Hm : urlRgxMatch aliasedURL = true).
  { unfold urlRgxMatch. destruct Hurl as [-> | ->]; rewrite HasPrefix_append;
      [reflexivity|apply orb_true_r]. }
  rewrite Hm. reflexivity.
Qed.

Lemma newClient_rejects_plain_urls_witness :
  newClient plainEnv demoAux "https://play.min.io/bucket"
  = Fail (errInvalidAliasedURL demoAux "https://play.min.io/bucket").
Proof.
  apply (newClient_rejects_plain_urls plainEnv demoAux "https://play.min.io/bucket"
           "play.min.io/bucket" "" "https://play.min.io/bucket").
  - right. reflexivity.
  - reflexivity.
Defined.

(** ** Validation before any call *)

(** X14: when the target asks for a legal hold whose value is neither [ON]
    nor [OFF], or for a retention whose validity does not parse,
    [uploadSourceToTargetURL] issues no backend call and returns the error:
    the invalid-argument error for the legal hold (once the retention, if
    asked for, is validated), the parse error for the retention. *)
Theorem upload_validates_before_any_call (E : Env) (urls : URLs)
    (encKeyDB : gmap string (list prefixSSEPair)) (preserve : bool) :
  let tc := TargetContent urls in
  (LegalHoldEnabled tc = true -> LegalHold tc <> "ON" -> LegalHold tc <> "OFF" ->
   (uploadSourceToTargetURL E urls encKeyDB preserve).1 = [] /\
   Error (uploadSourceToTargetURL E urls encKeyDB preserve).2 <> None /\
   (forall retention, retentionOverrides E urls = ([], Ok retention) ->
      Error (uploadSourceToTargetURL E urls encKeyDB preserve).2
      = Some (errInvalidArgument E))) /\
  (forall err, RetentionEnabled tc = true ->
     parseRetentionValidity E (RetentionDuration tc) (ToUpper (RetentionMode tc))
       = Fail err ->
     uploadSourceToTargetURL E urls encKeyDB preserve
     = ([], WithError urls (Some err))).
Proof.
  intros tc. subst tc. split.
  - intros Hen Hon Hoff.
    assert (Hlh : legalHoldOverride E urls = ([], Fail (errInvalidArgument E))).
    { unfold legalHoldOverride. rewrite Hen.
      apply String.eqb_neq in Hon, Hoff.
      unfold LegalHoldStatusDisabled, LegalHoldStatusEnabled. rewrite Hon, Hoff.
      reflexivity. }
    unfold uploadSourceToTargetURL, uploadSourceToTargetURL_body.
    pose proof (retentionOverrides_silent E urls) as Hsilent.
    destruct (retentionOverrides E urls) as [t [retention|e]]. simpl in Hsilent. subst t.
    + rewrite wbind_pure, Hlh. cbn [wbind fst snd Error WithError].
      split; [reflexivity|split; [discriminate|]]. intros; reflexivity.
    + simpl in Hsilent. subst t. cbn [wbind fst snd Error WithError].
      split; [reflexivity|split; [discriminate|]]. intros r Hno. discriminate.
  - intros err Hen Hparse.
    unfold uploadSourceToTargetURL, uploadSourceToTargetURL_body, retentionOverrides.
    rewrite Hen, Hparse. reflexivity.
Qed.

Lemma upload_validates_before_any_call_witness :
  let urls := demoURLs "fsA" "fsB"
                (demoContent "/file.txt" 0 420 ∅ ∅)
                {| URL := demoURL "/dest.txt"; Time := 0; Size := 1; Type_ := 420;
                   StorageClass := ""; Metadata := ∅; UserMetadata := ∅; ETag := "";
                   Expires := zeroTime; RetentionEnabled := false; RetentionMode := "";
                   RetentionDuration := ""; BypassGovernance := false;
                   LegalHoldEnabled := true; LegalHold := "maybe"; Err := None |} in
  (uploadSourceToTargetURL readableEnv urls ∅ false).1 = [] /\
  Error (uploadSourceToTargetURL readableEnv urls ∅ false).2
  = Some (errInvalidArgument readableEnv).
Proof.
  intros urls.
  destruct (upload_validates_before_any_call readableEnv urls ∅ false) as [H _].
  destruct H as (Hcalls & _ & Herr); [reflexivity|discriminate|discriminate|].
  split; [exact Hcalls|]. apply (Herr ("", "")). reflexivity.
Defined.
(** ** Removal: what is printed and what is sent *)

(** In a run that is not fake every descriptor sent has been printed just
    before; an early return may leave the last printed entry unsent. *)
Lemma feedLoop_printed_sent (E : Env) (url targetAlias olderThan newerThan : string)
    (worker : RemoveWorker) (listing : list ClientContent) :
  forall sent pending evs r,
  feedLoop E url targetAlias false olderThan newerThan worker listing sent pending
  = (evs, r) ->
  exists extra,
    printedOf evs = map (msgOf targetAlias) (sentOf evs) ++ extra /\
    (length extra <= 1)%nat /\
    match r with FeedAbort _ _ => True | _ => extra = [] end.
Proof.
  induction listing as [|c more IH]; intros sent pending evs r H.
  - injection H as <- <-. exists []. repeat split. apply Nat.le_0_l.
  - feed_cases H; try discriminate; feed_facts IH;
      simpl; rewrite ?sentOf_app, ?printedOf_app; simpl;
      try (rewrite Hsent, Hprinted; simpl);
      try exact IH;
      try (exists []; repeat split; apply Nat.le_0_l).
    + exists [msgOf targetAlias c]. repeat split. apply le_n.
    + destruct IH as (extra & Hp & Hlen & Hr). exists extra.
      rewrite Hp. repeat split; assumption.
Qed.

Lemma targeted_sublist (E : Env) (olderThan newerThan : string)
    (listing : list ClientContent) :
  targeted E olderThan newerThan listing `sublist_of` listing.
Proof.
  induction listing as [|x more IH]; simpl; [constructor|].
  destruct (Err x) as [e|].
  - destruct (isPathInsufficientPermission e);
      [apply sublist_cons, IH|apply sublist_nil_l].
  - destruct (IsZero (Time x)); [apply sublist_cons, IH|].
    destruct (ageSkip E (Time x) olderThan newerThan) as [[|]|];
      [apply sublist_cons, IH|apply sublist_skip, IH|apply sublist_nil_l].
Qed.

Lemma candidate_true (E : Env) (olderThan newerThan : string) (c : ClientContent) :
  candidate E olderThan newerThan c = true ->
  Err c = None /\ IsZero (Time c) = false /\
  ageSkip E (Time c) olderThan newerThan = Some false.
Proof.
  unfold candidate. destruct (Err c); [discriminate|].
  destruct (IsZero (Time c)); [discriminate|].
  destruct (ageSkip E (Time c) olderThan newerThan) as [[|]|]; try discriminate.
  repeat split.
Qed.

(** X15: in a recursive removal that is not fake, the messages printed are
    those of the descriptors sent, in the same order, followed by at most
    one message more: that of an entry whose sending a failure cut short.
    When the run returns nil there is no such message. *)
Theorem removeRecursive_prints_what_it_sends (E : Env) (url : string)
    (isIncomplete isBypass : bool) (olderThan newerThan : string)
    (encKeyDB : gmap string (list prefixSSEPair)) (clnt : Client) :
  newClientFromAlias E (mustExpandAlias E url).1 (mustExpandAlias E url).2 = Ok clnt ->
  let o := removeRecursive E url isIncomplete false isBypass olderThan newerThan encKeyDB in
  exists extra,
    printedOf (events o)
    = map (msgOf (mustExpandAlias E url).1) (sentOf (events o)) ++ extra /\
    (length extra <= 1)%nat /\
    (ret o = RetNil -> extra = []).
Proof.
  intros Hclnt o.
  destruct (feedLoop E url (mustExpandAlias E url).1 false olderThan newerThan
              (Remove clnt isIncomplete false isBypass)
              (List clnt true isIncomplete false DirNone) [] []) as [evs r] eqn:Hfeed.
  destruct (removeRecursive_sent_printed E url isIncomplete false isBypass olderThan
              newerThan encKeyDB clnt evs r Hclnt Hfeed) as [Hs Hp].
  destruct (feedLoop_printed_sent _ _ _ _ _ _ _ _ _ _ _ Hfeed) as (extra & He & Hlen & Hr).
  exists extra. subst o. rewrite Hs, Hp. split; [exact He|split; [exact Hlen|]].
  rewrite (removeRecursive_run _ _ _ _ _ _ _ _ _ _ _ Hclnt Hfeed).
  destruct r; cbn [ret]; intros Hret; try discriminate Hret. exact Hr.
Qed.

Lemma removeRecursive_prints_what_it_sends_witness :
  let o := removeRecursive (scenarioEnv agedListing (failingWorker notFound))
             "s3/bucket/prefix/" false false false "90d" "" ∅ in
  exists extra,
    printedOf (events o) = map (msgOf "s3") (sentOf (events o)) ++ extra /\
    (length extra <= 1)%nat.
Proof.
  intros o.
  destruct (removeRecursive_prints_what_it_sends
              (scenarioEnv agedListing (failingWorker notFound))
              "s3/bucket/prefix/" false false "90d" "" ∅
              (demoClient agedListing (failingWorker notFound) (Fail notFound))
              eq_refl) as (extra & He & Hlen & _).
  exists extra. split; [exact He|exact Hlen].
Defined.

(** X16: whatever a recursive removal sends to the removal worker are
    entries of the listing, in the order of the listing and none more often
    than listed; each of them was listed without an error and with a time
    stamp, and passed the age filters. *)
Theorem removeRecursive_sends_listed_entries (E : Env) (url : string)
    (isIncomplete isFake isBypass : bool) (olderThan newerThan : string)
    (encKeyDB : gmap string (list prefixSSEPair)) (clnt : Client) :
  newClientFromAlias E (mustExpandAlias E url).1 (mustExpandAlias E url).2 = Ok clnt ->
  let o := removeRecursive E url isIncomplete isFake isBypass olderThan newerThan
             encKeyDB in
  sentOf (events o) `sublist_of` List clnt true isIncomplete false DirNone /\
  (forall c, c ∈ sentOf (events o) ->
     Err c = None /\ IsZero (Time c) = false /\
     ageSkip E (Time c) olderThan newerThan = Some false).
Proof.
  intros Hclnt o.
  destruct (feedLoop E url (mustExpandAlias E url).1 isFake olderThan newerThan
              (Remove clnt isIncomplete false isBypass)
              (List clnt true isIncomplete false DirNone) [] []) as [evs r] eqn:Hfeed.
  destruct (removeRecursive_sent_printed E url isIncomplete isFake isBypass olderThan
              newerThan encKeyDB clnt evs r Hclnt Hfeed) as [Hs _].
  destruct (feedLoop_prefix _ _ _ _ _ _ _ _ _ _ _ _ Hfeed) as (Hfake & Hreal & _).
  assert (Hsub : sentOf evs
                 `sublist_of` targeted E olderThan newerThan
                                (List clnt true isIncomplete false DirNone)).
  { destruct isFake.
    - rewrite (Hfake eq_refl). apply sublist_nil_l.
    - destruct (Hreal eq_refl) as [k ->]. apply sublist_inserts_r. reflexivity. }
  subst o. rewrite Hs. split.
  - etransitivity; [exact Hsub|apply targeted_sublist].
  - intros c Hin. apply (candidate_true E olderThan newerThan).
    apply (targeted_candidate E olderThan newerThan
             (List clnt true isIncomplete false DirNone)).
    exact (elem_of_sublist _ _ _ Hin Hsub).
Qed.

Lemma removeRecursive_sends_listed_entries_witness :
  sentOf (events (removeRecursive (scenarioEnv agedListing quietWorker)
                    "s3/bucket/prefix/" false false false "90d" "" ∅))
  `sublist_of` agedListing.
Proof.
  exact (proj1 (removeRecursive_sends_listed_entries
                  (scenarioEnv agedListing quietWorker) "s3/bucket/prefix/" false false
                  false "90d" "" ∅ (demoClient agedListing quietWorker (Fail notFound))
                  eq_refl)).
Defined.

(** ** Single removal *)

Lemma drainErrors_nil_iff (E : Env) (msg : string) (errs : list GoError) :
  ret (drainErrors E msg errs) = RetNil
  <-> Forall (fun e => isPathInsufficientPermission e = true) errs.
Proof.
  induction errs as [|e rest IH]; simpl.
  - split; [constructor|reflexivity].
  - destruct (isPathInsufficientPermission e) eqn:He; simpl.
    + rewrite IH. split; [intros H; constructor; assumption|].
      intros H. apply Forall_cons in H as [_ H]. exact H.
    + split; [discriminate|]. intros H. apply Forall_cons in H as [H _].
      rewrite He in H. discriminate.
Qed.

(** [removeSingle] once the target is found, passes the filters, the run is
    not fake and the client is there. *)
Lemma removeSingle_run (E : Env) (url : string) (isIncomplete isForce isBypass : bool)
    (olderThan newerThan : string) (encKeyDB : gmap string (list prefixSSEPair))
    (content : ClientContent) (rest : list ClientContent) (clnt : Client) :
  statURL E url isIncomplete false encKeyDB = Ok (content :: rest) ->
  ageSkip E (Time content) olderThan newerThan = Some false ->
  newClientFromAlias E (mustExpandAlias E url).1 (mustExpandAlias E url).2 = Ok clnt ->
  let sep := String (Separator (GetURL clnt)) EmptyString in
  let target :=
    if negb (Strings.HasSuffix (mustExpandAlias E url).2 sep) && IsDir (Type_ content)
    then (mustExpandAlias E url).2 +:+ sep else (mustExpandAlias E url).2 in
  let sent := clientContentOfURL (newClientURL E target) in
  let worker := Remove clnt isIncomplete false isBypass in
  let d := drainErrors E ("Failed to remove `" +:+ url +:+ "`.")
             (emit worker [] sent ++ flush worker [sent]) in
  removeSingle E url isIncomplete false isForce isBypass olderThan newerThan encKeyDB
  = {| events := [RmPrintMsg {| Status := ""; Key := url; MsgSize := Size content |};
                  RmSend sent; RmClose; RmRemoveCall isIncomplete false isBypass]
                 ++ events d;
       ret := ret d; undrained := undrained d |}.
Proof.
  intros Hstat Hage. unfold removeSingle. rewrite Hstat, Hage.
  destruct (mustExpandAlias E url) as [targetAlias targetURL]. cbn [negb fst snd].
  intros ->. reflexivity.
Qed.

(** X17: the force flag matters to a single removal only when the target is
    not found: then the run with force returns nil and does nothing, the run
    without it reports the failure and returns the error exit status,
    printing and sending nothing. *)
Theorem removeSingle_force_only_when_missing (E : Env) (url : string)
    (isIncomplete isFake isBypass : bool) (olderThan newerThan : string)
    (encKeyDB : gmap string (list prefixSSEPair)) :
  let run isForce := removeSingle E url isIncomplete isFake isForce isBypass olderThan
                       newerThan encKeyDB in
  (statURL E url isIncomplete false encKeyDB <> Ok [] -> run true = run false) /\
  (statURL E url isIncomplete false encKeyDB = Ok [] ->
   run true = {| events := []; ret := RetNil; undrained := [] |} /\
   ret (run false) = RetExitStatus (globalErrorExitStatus E) /\
   loggedOf (events (run false)) = [errDummy E] /\
   sentOf (events (run false)) = [] /\ printedOf (events (run false)) = []).
Proof.
  intros run. subst run. cbv beta. unfold removeSingle. split.
  - intros Hstat.
    destruct (statURL E url isIncomplete false encKeyDB) as [[|content rest]|e];
      [contradiction|reflexivity|reflexivity].
  - intros ->. simpl. repeat split.
Qed.

Lemma removeSingle_force_only_when_missing_witness :
  removeSingle (scenarioEnv [] quietWorker) "s3/bucket/a" false false true false "" "" ∅
  = removeSingle (scenarioEnv [] quietWorker) "s3/bucket/a" false false false false "" "" ∅.
Proof.
  apply (proj1 (removeSingle_force_only_when_missing (scenarioEnv [] quietWorker)
                  "s3/bucket/a" false false false "" "" ∅)).
  discriminate.
Defined.

(** X18: a single removal that is not fake sends exactly one descriptor,
    made of the address of the target alone; for a directory the address
    ends with the separator of the client, which is appended when it is
    missing, and for anything else the address is the expanded one. *)
Theorem removeSingle_directory_separator (E : Env) (url : string)
    (isIncomplete isForce isBypass : bool) (olderThan newerThan : string)
    (encKeyDB : gmap string (list prefixSSEPair))
    (content : ClientContent) (rest : list ClientContent) (clnt : Client) :
  statURL E url isIncomplete false encKeyDB = Ok (content :: rest) ->
  ageSkip E (Time content) olderThan newerThan = Some false ->
  newClientFromAlias E (mustExpandAlias E url).1 (mustExpandAlias E url).2 = Ok clnt ->
  let o := removeSingle E url isIncomplete false isForce isBypass olderThan newerThan
             encKeyDB in
  let sep := String (Separator (GetURL clnt)) EmptyString in
  exists target,
    sentOf (events o) = [clientContentOfURL (newClientURL E target)] /\
    (IsDir (Type_ content) = true -> Strings.HasSuffix target sep = true) /\
    (IsDir (Type_ content) = false -> target = (mustExpandAlias E url).2) /\
    (target = (mustExpandAlias E url).2 \/ target = (mustExpandAlias E url).2 +:+ sep).
Proof.
  intros Hstat Hage Hclnt o sep. subst o.
  rewrite (removeSingle_run E url isIncomplete isForce isBypass olderThan newerThan
             encKeyDB content rest clnt Hstat Hage Hclnt).
  cbv zeta. fold sep.
  match goal with
  | |- context [drainErrors E ?msg ?errs] =>
      destruct (drainErrors_events E msg errs) as (Hds & _);
      cbv zeta in Hds; remember (drainErrors E msg errs) as d
  end.
  cbn [events]. rewrite sentOf_app, Hds.
  destruct (Strings.HasSuffix (mustExpandAlias E url).2 sep) eqn:Hsuf;
    destruct (IsDir (Type_ content)) eqn:Hdir; cbn [negb andb].
  - exists (mustExpandAlias E url).2. repeat split; auto; intros; discriminate.
  - exists (mustExpandAlias E url).2. repeat split; auto; intros; discriminate.
  - exists ((mustExpandAlias E url).2 +:+ sep). repeat split; auto.
    + intros _. apply HasSuffix_spec. exists (mustExpandAlias E url).2. reflexivity.
    + intros; discriminate.
  - exists (mustExpandAlias E url).2. repeat split; auto; intros; discriminate.
Qed.

Lemma removeSingle_directory_separator_witness :
  sentOf (events (removeSingle (dirEnv quietWorker) "s3/bucket/dir" false false false
                    false "" "" ∅))
  = [clientContentOfURL (demoURL "https://s3.amazonaws.com/bucket/dir/")].
Proof.
  destruct (removeSingle_directory_separator (dirEnv quietWorker) "s3/bucket/dir" false
              false false "" "" ∅ (demoContent "s3/bucket/dir" 1 (2 ^ 31) ∅ ∅) []
              (demoClient [] quietWorker (Fail notFound)) eq_refl eq_refl eq_refl)
    as (target & Hsent & Hdir & _ & [Ht|Ht]).
  - specialize (Hdir eq_refl). rewrite Ht in Hdir. vm_compute in Hdir. discriminate.
  - rewrite Hsent, Ht. reflexivity.
Defined.

(** X19: a single removal that reaches the removal worker hands it one
    descriptor, closes the feed channel once and then receives the failures
    of the worker in order, up to and including the first that is not a
    permission failure, reporting each and nothing else; what follows that
    failure stays unreceived.  It returns nil exactly when all the failures
    are permission failures, leaving none behind, and the error exit status
    otherwise. *)
Theorem removeSingle_permission_tolerant (E : Env) (url : string)
    (isIncomplete isForce isBypass : bool) (olderThan newerThan : string)
    (encKeyDB : gmap string (list prefixSSEPair))
    (content : ClientContent) (rest : list ClientContent) (clnt : Client) :
  statURL E url isIncomplete false encKeyDB = Ok (content :: rest) ->
  ageSkip E (Time content) olderThan newerThan = Some false ->
  newClientFromAlias E (mustExpandAlias E url).1 (mustExpandAlias E url).2 = Ok clnt ->
  let o := removeSingle E url isIncomplete false isForce isBypass olderThan newerThan
             encKeyDB in
  let worker := Remove clnt isIncomplete false isBypass in
  exists sent,
    sentOf (events o) = [sent] /\
    loggedOf (events o) ++ undrained o = emit worker [] sent ++ flush worker [sent] /\
    (ret o = RetNil <->
     Forall (fun e => isPathInsufficientPermission e = true)
            (emit worker [] sent ++ flush worker [sent])) /\
    (ret o = RetNil -> undrained o = []) /\
    (ret o <> RetNil -> ret o = RetExitStatus (globalErrorExitStatus E)) /\
    closes (events o) = 1%nat /\
    events o
    = [RmPrintMsg {| Status := ""; Key := url; MsgSize := Size content |};
       RmSend sent; RmClose; RmRemoveCall isIncomplete false isBypass]
      ++ reports ("Failed to remove `" +:+ url +:+ "`.")
           (uptoFirstBad (emit worker [] sent ++ flush worker [sent])) /\
    loggedOf (events o) = uptoFirstBad (emit worker [] sent ++ flush worker [sent]) /\
    uptoFirstBad (emit worker [] sent ++ flush worker [sent]) ++ undrained o
    = emit worker [] sent ++ flush worker [sent].
Proof.
  intros Hstat Hage Hclnt o worker. subst o.
  rewrite (removeSingle_run E url isIncomplete isForce isBypass olderThan newerThan
             encKeyDB content rest clnt Hstat Hage Hclnt).
  cbv zeta. fold worker.
  match goal with
  | |- context [drainErrors E ?msg (emit worker [] ?s ++ flush worker [?s])] =>
      exists s;
      destruct (drainErrors_events E msg (emit worker [] s ++ flush worker [s]))
        as (Hds & _ & Hdc & Hdl & Hdr);
      destruct (drainErrors_receives E msg (emit worker [] s ++ flush worker [s]))
        as (Hev & Hun & Hiff & _);
      cbv zeta in Hds, Hdc, Hdl, Hdr, Hev, Hun, Hiff;
      remember (drainErrors E msg (emit worker [] s ++ flush worker [s])) as d
  end.
  cbn [events ret undrained]. rewrite sentOf_app, closes_app, Hds, Hdc.
  split; [reflexivity|]. split; [exact Hdl|]. split; [exact Hiff|].
  split; [|split; [|split; [reflexivity|]]].
  - intros Hret. destruct Hdr as [(_ & Hu & _)|(Hr & _)]; [exact Hu|congruence].
  - intros Hret. destruct Hdr as [(Hr & _)|(Hr & _)]; [contradiction|exact Hr].
  - rewrite Hev. split; [reflexivity|]. split; [|exact Hun].
    rewrite loggedOf_app. apply loggedOf_reports.
Qed.

Lemma removeSingle_permission_tolerant_witness :
  ret (removeSingle (dirEnv (failingWorker (PathInsufficientPermission "/bucket/dir")))
         "s3/bucket/dir" false false false false "" "" ∅) = RetNil.
Proof.
  destruct (removeSingle_permission_tolerant
              (dirEnv (failingWorker (PathInsufficientPermission "/bucket/dir")))
              "s3/bucket/dir" false false false "" "" ∅
              (demoContent "s3/bucket/dir" 1 (2 ^ 31) ∅ ∅) []
              (demoClient [] (failingWorker (PathInsufficientPermission "/bucket/dir"))
                 (Fail notFound)) eq_refl eq_refl eq_refl)
    as (sent & _ & _ & Hiff & _).
  apply Hiff. repeat constructor.
Defined.

(** ** Validation of the [rm] command line *)

(** The loop over the arguments stops at the first one that is not a
    directory. *)
Lemma checkTargets_stops (E : Env) (X : Aux) (isRecursive isForce : bool)
    (encKeyDB : gmap string (list prefixSSEPair)) (pre : list string) (u : string)
    (r1 r2 : list string) :
  isAliasURLDir E (ToSlash E (filepathClean X u)) encKeyDB = false ->
  checkTargets E X isRecursive isForce encKeyDB (pre ++ u :: r1)
  = checkTargets E X isRecursive isForce encKeyDB (pre ++ u :: r2).
Proof.
  intros Hu. induction pre as [|p pre IH]; simpl.
  - rewrite Hu. reflexivity.
  - rewrite IH. reflexivity.
Qed.

(** Leading directories are passed over when the removal is recursive and
    forced. *)
Lemma checkTargets_dirs (E : Env) (X : Aux) (isForce : bool)
    (encKeyDB : gmap string (list prefixSSEPair)) (dirs more : list string) :
  Forall (fun d => isAliasURLDir E (ToSlash E (filepathClean X d)) encKeyDB = true) dirs ->
  checkTargets E X true isForce encKeyDB (dirs ++ more)
  = match dirs with
    | [] => checkTargets E X true isForce encKeyDB more
    | _ :: _ => if isForce then checkTargets E X true true encKeyDB more
                else inl msgRequiresForce
    end.
Proof.
  intros Hdirs. induction Hdirs as [|d dirs Hd Hdirs IH]; [reflexivity|].
  simpl. rewrite Hd. simpl. destruct isForce; simpl; [|reflexivity].
  rewrite IH. destruct dirs; reflexivity.
Qed.

(** A validation that returns has seen the force flag whenever the removal
    is recursive or driven by the standard input. *)
Lemma checkRmSyntax_ok_requires_force (E : Env) (X : Aux) (I : Invocation)
    (encKeyDB : gmap string (list prefixSSEPair)) :
  checkRmSyntax E X I encKeyDB = SyntaxOK ->
  flagRecursive I || flagStdin I = true -> flagForce I = true.
Proof.
  unfold checkRmSyntax. intros H Hor.
  destruct (checkTargets E X (flagRecursive I) (flagForce I) encKeyDB (cliArgs I))
    as [msg|ns]; [discriminate|].
  rewrite Hor in H. destruct (flagForce I); [reflexivity|].
  destruct (match cliArgs I with [] => true | _ => false end && negb (flagStdin I));
    [discriminate|]. simpl in H. destruct ns; discriminate.
Qed.

(** What a validation that returns has checked. *)
Lemma checkRmSyntax_returns (E : Env) (X : Aux) (I : Invocation)
    (encKeyDB : gmap string (list prefixSSEPair)) :
  checkRmSyntax E X I encKeyDB = SyntaxOK ->
  (cliArgs I <> [] \/ flagStdin I = true) /\
  (flagRecursive I = true \/ flagStdin I = true -> flagForce I = true) /\
  (flagRecursive I = false ->
   forall u rest, cliArgs I = u :: rest ->
     isAliasURLDir E (ToSlash E (filepathClean X u)) encKeyDB = false).
Proof.
  intros H0. pose proof H0 as H. unfold checkRmSyntax in H.
  destruct (checkTargets E X (flagRecursive I) (flagForce I) encKeyDB (cliArgs I))
    as [msg|ns] eqn:Hloop; [discriminate|].
  split; [|split].
  - destruct (cliArgs I); [|left; discriminate].
    destruct (flagStdin I); [right; reflexivity|discriminate].
  - intros Hrs.
    assert (Hor : flagRecursive I || flagStdin I = true)
      by (destruct Hrs as [-> | ->]; [reflexivity|apply orb_true_r]).
    exact (checkRmSyntax_ok_requires_force E X I encKeyDB H0 Hor).
  - intros Hrec u rest Hargs. rewrite Hargs, Hrec in Hloop. simpl in Hloop.
    destruct (isAliasURLDir E (ToSlash E (filepathClean X u)) encKeyDB);
      [simpl in Hloop; discriminate|reflexivity].
Qed.

(** X20: when [checkRmSyntax] returns, there is a target or the standard
    input is read; a recursive removal and one driven by the standard input
    have the force flag; and without the recursive flag the first target is
    not a directory. *)
Theorem checkRmSyntax_ok_requires (E : Env) (X : Aux) (I : Invocation)
    (encKeyDB : gmap string (list prefixSSEPair)) :
  checkRmSyntax E X I encKeyDB = SyntaxOK ->
  (cliArgs I <> [] \/ flagStdin I = true) /\
  (flagRecursive I = true \/ flagStdin I = true -> flagForce I = true) /\
  (flagRecursive I = false ->
   forall u rest, cliArgs I = u :: rest ->
     isAliasURLDir E (ToSlash E (filepathClean X u)) encKeyDB = false).
Proof.
  exact (checkRmSyntax_returns E X I encKeyDB).
Qed.

(** X21: when the first target that is not a directory is a bare alias,
    directories alone preceding it, a recursive removal and one driven by
    the standard input pass the validation only with both the force and the
    dangerous flag; a recursive removal with both flags passes; and when the
    bare alias comes first, a missing flag ends the run with the site-wide
    removal message. *)
Theorem checkRmSyntax_site_wide (E : Env) (X : Aux) (I : Invocation)
    (encKeyDB : gmap string (list prefixSSEPair)) (dirs : list string) (u : string)
    (rest : list string) :
  cliArgs I = dirs ++ u :: rest ->
  Forall (fun d => isAliasURLDir E (ToSlash E (filepathClean X d)) encKeyDB = true) dirs ->
  isAliasURLDir E (ToSlash E (filepathClean X u)) encKeyDB = false ->
  (url2Alias X (ToSlash E (filepathClean X u))).2 = "" ->
  flagRecursive I = true \/ flagStdin I = true ->
  (checkRmSyntax E X I encKeyDB = SyntaxOK ->
   flagForce I = true /\ flagDangerous I = true) /\
  (flagRecursive I = true -> flagForce I = true -> flagDangerous I = true ->
   checkRmSyntax E X I encKeyDB = SyntaxOK) /\
  (dirs = [] -> flagForce I = false \/ flagDangerous I = false ->
   checkRmSyntax E X I encKeyDB = SyntaxFatal msgSiteWide).
Proof.
  intros Hargs Hdirs Hu Hpath Hrs.
  assert (Hor : flagRecursive I || flagStdin I = true)
    by (destruct Hrs as [-> | ->]; [reflexivity|apply orb_true_r]).
  assert (Hlast : forall r f, checkTargets E X r f encKeyDB (u :: rest) = inr true).
  { intros r f. simpl. rewrite Hu, Hpath. reflexivity. }
  assert (Hpresent : match cliArgs I with [] => true | _ => false end = false)
    by (rewrite Hargs; destruct dirs; reflexivity).
  split; [|split].
  - intros H. pose proof (checkRmSyntax_ok_requires_force E X I encKeyDB H Hor) as Hforce.
    split; [exact Hforce|].
    unfold checkRmSyntax in H. rewrite Hpresent, Hor, Hforce in H. simpl in H.
    destruct (checkTargets E X (flagRecursive I) true encKeyDB (cliArgs I))
      as [msg|ns] eqn:Hloop; [discriminate|].
    assert (Hns : ns = true).
    { rewrite Hargs in Hloop. clear -Hloop Hdirs Hlast.
      induction Hdirs as [|d dirs Hd Hdirs IH].
      - simpl app in Hloop. rewrite Hlast in Hloop. congruence.
      - simpl in Hloop. rewrite Hd in Hloop. simpl in Hloop.
        destruct (flagRecursive I); simpl in Hloop; [auto|discriminate]. }
    subst ns. destruct (flagDangerous I); [reflexivity|discriminate].
  - intros Hrec Hforce Hdanger. unfold checkRmSyntax.
    rewrite Hpresent, Hrec, Hforce, Hdanger, Hargs, (checkTargets_dirs E X true encKeyDB dirs _ Hdirs).
    rewrite Hlast. destruct dirs; reflexivity.
  - intros -> Hmissing. unfold checkRmSyntax.
    rewrite Hpresent, Hor, Hargs. simpl app. rewrite Hlast. simpl.
    destruct (flagForce I); simpl; [|reflexivity].
    destruct Hmissing as [Hm|Hm]; [discriminate|]. rewrite Hm. reflexivity.
Qed.

Lemma checkRmSyntax_ok_requires_witness :
  flagForce (demoInvocation true true ["s3/bucket/prefix/"]) = true.
Proof.
  apply (checkRmSyntax_ok_requires plainEnv demoAux
           (demoInvocation true true ["s3/bucket/prefix/"]) ∅).
  - vm_compute. reflexivity.
  - left. reflexivity.
Defined.

Lemma checkRmSyntax_site_wide_witness :
  checkRmSyntax plainEnv demoAux (demoInvocation true true ["s3"]) ∅
  = SyntaxFatal msgSiteWide.
Proof.
  apply (checkRmSyntax_site_wide plainEnv demoAux (demoInvocation true true ["s3"]) ∅
           [] "s3" []).
  - reflexivity.
  - constructor.
  - vm_compute. reflexivity.
  - vm_compute. reflexivity.
  - left. reflexivity.
  - reflexivity.
  - right. reflexivity.
Defined.

(** X22: the validation examines no target after the first one that is not
    a directory: two command lines with the same flags that agree up to
    such a target have the same outcome. *)
Theorem checkRmSyntax_ignores_later_targets (E : Env) (X : Aux) (I J : Invocation)
    (encKeyDB : gmap string (list prefixSSEPair)) (pre : list string) (u : string)
    (r1 r2 : list string) :
  flagForce I = flagForce J -> flagRecursive I = flagRecursive J ->
  flagStdin I = flagStdin J -> flagDangerous I = flagDangerous J ->
  cliArgs I = pre ++ u :: r1 -> cliArgs J = pre ++ u :: r2 ->
  isAliasURLDir E (ToSlash E (filepathClean X u)) encKeyDB = false ->
  checkRmSyntax E X I encKeyDB = checkRmSyntax E X J encKeyDB.
Proof.
  intros Hf Hr Hs Hd HI HJ Hu. unfold checkRmSyntax.
  rewrite Hf, Hr, Hs, Hd, HI, HJ.
  rewrite (checkTargets_stops E X _ _ encKeyDB pre u r1 r2 Hu).
  destruct pre; reflexivity.
Qed.

Lemma checkRmSyntax_ignores_later_targets_witness :
  checkRmSyntax plainEnv demoAux
    (demoInvocation false false ["s3/bucket/a"; "s3/bucket/prefix/"]) ∅
  = checkRmSyntax plainEnv demoAux (demoInvocation false false ["s3/bucket/a"]) ∅.
Proof.
  apply (checkRmSyntax_ignores_later_targets plainEnv demoAux _ _ ∅ [] "s3/bucket/a"
           ["s3/bucket/prefix/"] []); try reflexivity.
Defined.

(** ** The [rm] command *)

Lemma removeAll_all (remove : string -> RmOutcome) (urls : list string) (rerr : RmReturn) :
  Forall (fun u => ret (remove u) <> RetFatal) urls ->
  removeAll remove urls rerr
  = (map remove urls,
     match rerr with
     | RetNil => firstError (map (fun u => ret (remove u)) urls)
     | _ => rerr
     end).
Proof.
  intros Hall. revert rerr. induction Hall as [|u urls Hu Hall IH]; intros rerr.
  - simpl. destruct rerr; reflexivity.
  - simpl. destruct (ret (remove u)) eqn:Hret; [| |contradiction].
    + rewrite IH. destruct rerr; reflexivity.
    + rewrite IH. destruct rerr; reflexivity.
Qed.

Lemma firstError_app (a b : list RmReturn) :
  firstError (a ++ b)
  = match firstError a with RetNil => firstError b | e => e end.
Proof.
  induction a as [|r a IH]; simpl; [destruct (firstError b); reflexivity|].
  destruct r; [exact IH|reflexivity|reflexivity].
Qed.

Lemma mainRm_unfold (E : Env) (X : Aux) (I : Invocation)
    (encKeyDB : gmap string (list prefixSSEPair)) :
  getEncKeys X I = Ok encKeyDB ->
  checkRmSyntax E X I encKeyDB = SyntaxOK ->
  mainRm E X I
  = let '(os, rerr) := removeAll (rmTarget E I encKeyDB) (cliArgs I) RetNil in
    match rerr with
    | RetFatal => (os, RetFatal)
    | _ =>
        if negb (flagStdin I) then (os, rerr)
        else
          let '(os', rerr') := removeAll (rmTarget E I encKeyDB) (stdinLines I) rerr in
          (os ++ os', rerr')
    end.
Proof.
  intros Hkeys Hsyntax. unfold mainRm. rewrite Hkeys, Hsyntax. reflexivity.
Qed.

(** X23: once the keys are parsed and the command line is validated,
    [mainRm] runs the removal of every target in turn, the arguments first
    and then the lines of the standard input when it is read, a failure of
    one not keeping it from the next, and returns the first result that is
    not nil; this as long as no removal ends the process. *)
Theorem mainRm_attempts_every_target (E : Env) (X : Aux) (I : Invocation)
    (encKeyDB : gmap string (list prefixSSEPair)) :
  getEncKeys X I = Ok encKeyDB ->
  checkRmSyntax E X I encKeyDB = SyntaxOK ->
  Forall (fun u => ret (rmTarget E I encKeyDB u) <> RetFatal) (rmTargets I) ->
  mainRm E X I
  = (map (rmTarget E I encKeyDB) (rmTargets I),
     firstError (map (fun u => ret (rmTarget E I encKeyDB u)) (rmTargets I))).
Proof.
  intros Hkeys Hsyntax Hall.
  rewrite (mainRm_unfold E X I encKeyDB Hkeys Hsyntax).
  unfold rmTargets in *. apply Forall_app in Hall as [Hargs Hlines].
  rewrite (removeAll_all _ _ RetNil Hargs).
  assert (Hnf : forall urls, Forall (fun u => ret (rmTarget E I encKeyDB u) <> RetFatal) urls ->
                  firstError (map (fun u => ret (rmTarget E I encKeyDB u)) urls) <> RetFatal).
  { intros urls H. induction H as [|u urls Hu H IH]; simpl; [discriminate|].
    destruct (ret (rmTarget E I encKeyDB u)); [exact IH|discriminate|contradiction]. }
  specialize (Hnf _ Hargs).
  rewrite !map_app, firstError_app.
  destruct (flagStdin I); simpl.
  - rewrite (removeAll_all _ _ _ Hlines).
    destruct (firstError (map (fun u => ret (rmTarget E I encKeyDB u)) (cliArgs I)));
      [reflexivity|reflexivity|contradiction].
  - rewrite !app_nil_r.
    destruct (firstError (map (fun u => ret (rmTarget E I encKeyDB u)) (cliArgs I)));
      [reflexivity|reflexivity|contradiction].
Qed.

(** X24: [mainRm] runs no removal unless the keys parse and the validation
    returns; hence a recursive removal, and one driven by the standard
    input, is never run without the force flag, and a removal without the
    recursive flag never starts at a directory. *)
Theorem mainRm_runs_only_validated (E : Env) (X : Aux) (I : Invocation) :
  (mainRm E X I).1 <> [] ->
  (exists encKeyDB, getEncKeys X I = Ok encKeyDB /\
                    checkRmSyntax E X I encKeyDB = SyntaxOK /\
                    (flagRecursive I = false ->
                     forall u rest, cliArgs I = u :: rest ->
                       isAliasURLDir E (ToSlash E (filepathClean X u)) encKeyDB = false)) /\
  (flagRecursive I = true \/ flagStdin I = true -> flagForce I = true).
Proof.
  intros Hran. unfold mainRm in Hran.
  destruct (getEncKeys X I) as [encKeyDB|e] eqn:Hkeys; [|contradiction].
  destruct (checkRmSyntax E X I encKeyDB) eqn:Hsyntax; try contradiction.
  destruct (checkRmSyntax_returns E X I encKeyDB Hsyntax) as (_ & Hforce & Hdir).
  split; [|exact Hforce]. exists encKeyDB. repeat split; assumption.
Qed.

Lemma mainRm_attempts_every_target_witness :
  let E := scenarioEnv agedListing quietWorker in
  let I := demoInvocation true true ["s3/bucket/prefix/"; "s3/bucket/other/"] in
  mainRm E demoAux I
  = (map (rmTarget E I ∅) (rmTargets I),
     firstError (map (fun u => ret (rmTarget E I ∅ u)) (rmTargets I))).
Proof.
  intros E I.
  apply (mainRm_attempts_every_target E demoAux I ∅).
  - reflexivity.
  - vm_compute. reflexivity.
  - repeat constructor; vm_compute; discriminate.
Defined.

Lemma mainRm_runs_only_validated_witness :
  flagForce (demoInvocation true true ["s3/bucket/prefix/"]) = true.
Proof.
  apply (mainRm_runs_only_validated (scenarioEnv agedListing quietWorker) demoAux
           (demoInvocation true true ["s3/bucket/prefix/"])).
  - vm_compute. discriminate.
  - left. reflexivity.
Defined.

(** ** Encryption keys of the command line *)

(** X25: the flags take precedence over the environment in [getEncKeys]:
    two invocations with the same flags get the same result when they agree
    on each of the two environment variables whose flag is empty. *)
Theorem getEncKeys_flags_override_environment (X : Aux) (I J : Invocation) :
  flagEncrypt I = flagEncrypt J -> flagEncryptKey I = flagEncryptKey J ->
  (flagEncrypt I = "" -> envEncrypt I = envEncrypt J) ->
  (flagEncryptKey I = "" -> envEncryptKey I = envEncryptKey J) ->
  getEncKeys X I = getEncKeys X J.
Proof.
  intros He Hk Henv Hkenv. unfold getEncKeys. rewrite <- He, <- Hk.
  destruct (String.eqb (flagEncrypt I) "") eqn:H1;
    destruct (String.eqb (flagEncryptKey I) "") eqn:H2; cbn [negb];
    try (apply String.eqb_eq in H1; rewrite <- (Henv H1));
    try (apply String.eqb_eq in H2; rewrite <- (Hkenv H2));
    reflexivity.
Qed.

Lemma getEncKeys_flags_override_environment_witness :
  getEncKeys demoAux
    {| envEncrypt := "s3"; envEncryptKey := "s3/bucket=not-a-key"; flagEncrypt := "myminio";
       flagEncryptKey := "play/bucket=32byteslongsecretkeymustbegiven1";
       flagForce := false; flagRecursive := false; flagStdin := false;
       flagDangerous := false; flagIncomplete := false; flagFake := false;
       flagBypass := false; flagOlderThan := ""; flagNewerThan := "";
       cliArgs := []; stdinLines := [] |}
  = getEncKeys demoAux
    {| envEncrypt := ""; envEncryptKey := ""; flagEncrypt := "myminio";
       flagEncryptKey := "play/bucket=32byteslongsecretkeymustbegiven1";
       flagForce := false; flagRecursive := false; flagStdin := false;
       flagDangerous := false; flagIncomplete := false; flagFake := false;
       flagBypass := false; flagOlderThan := ""; flagNewerThan := "";
       cliArgs := []; stdinLines := [] |}.
Proof.
  apply getEncKeys_flags_override_environment; try reflexivity; discriminate.
Defined.

(** ** The calls of a source stream *)

(** X26: [getSourceStream] issues at most two calls, the [Get] first: no
    call when the client cannot be built, the [Get] alone when no stat is
    asked for, when the [Get] fails or when the reader is an object that
    carries its own stat, and the [Get] followed by one [Stat] of the same
    address otherwise. *)
Theorem getSourceStream_call_order (E : Env) (alias urlStr : string) (fetchStat : bool)
    (sse : ServerSide) (preserve : bool) :
  let calls := (getSourceStream E alias urlStr fetchStat sse preserve).1 in
  (calls = [] /\ exists e, newClientFromAlias E alias urlStr = Fail e) \/
  (calls = [CallGet alias urlStr sse] /\
   forall clnt reader,
     newClientFromAlias E alias urlStr = Ok clnt -> Get clnt sse = Ok reader ->
     fetchStat = false \/ minioObject reader <> None) \/
  (calls = [CallGet alias urlStr sse; CallStat alias urlStr false preserve sse] /\
   fetchStat = true /\
   exists clnt reader,
     newClientFromAlias E alias urlStr = Ok clnt /\ Get clnt sse = Ok reader /\
     minioObject reader = None).
Proof.
  intros calls. subst calls. unfold getSourceStream.
  destruct (newClientFromAlias E alias urlStr) as [clnt|e] eqn:Hclnt;
    [|left; split; [reflexivity|exists e; reflexivity]].
  right. unfold wlift. rewrite wbind_pure. unfold wcall.
  destruct (Get clnt sse) as [reader|e] eqn:Hget.
  - unfold wbind, wret, wlift, wcall. cbn beta iota.
    destruct fetchStat; [|left; split; [reflexivity|intros; left; reflexivity]].
    destruct (minioObject reader) as [[h|e]|] eqn:Hmo.
    + left. split.
      * repeat match goal with
          | |- context [if ?b then _ else _] => destruct b
          | |- context [match probeContentType ?E ?r with _ => _ end] =>
              destruct (probeContentType E r) as [? [?|]]
          end; reflexivity.
      * intros clnt' reader' [= <-] Hget'. rewrite Hget in Hget'.
        injection Hget' as <-. right. rewrite Hmo. discriminate.
    + left. split; [reflexivity|].
      intros clnt' reader' [= <-] Hget'. rewrite Hget in Hget'.
      injection Hget' as <-. right. rewrite Hmo. discriminate.
    + right. split; [|split; [reflexivity|exists clnt, reader; auto]].
      destruct (Stat clnt false preserve sse) as [st|e]; [|reflexivity].
      repeat match goal with
        | |- context [if ?b then _ else _] => destruct b
        | |- context [match probeContentType ?E ?r with _ => _ end] =>
            destruct (probeContentType E r) as [? [?|]]
        end; reflexivity.
  - left. split; [reflexivity|]. intros clnt' reader' [= <-] Hget'.
    rewrite Hget in Hget'. discriminate.
Qed.

(** X27: whenever [getSourceStreamMetadataFromURL] returns a reader,
    [getSourceStreamFromURL] returns the same reader for the same address
    and keys, with the [Get] as its only call. *)
Theorem getSourceStreamFromURL_same_reader (E : Env) (urlStr : string)
    (encKeyDB : gmap string (list prefixSSEPair)) (calls : list Call)
    (reader : Reader) (metadata : gmap string string) :
  getSourceStreamMetadataFromURL E urlStr encKeyDB = (calls, Ok (reader, metadata)) ->
  exists alias urlStrFull sse,
    getSourceStreamFromURL E urlStr encKeyDB
    = ([CallGet alias urlStrFull sse], Ok reader).
Proof.
  unfold getSourceStreamMetadataFromURL, getSourceStreamFromURL.
  destruct (expandAlias E urlStr) as [[[alias urlStrFull] hostCfg]|e]; [|discriminate].
  intros H. exists alias, urlStrFull, (getSSE E urlStr (default [] (encKeyDB !! alias))).
  revert H. unfold getSourceStream.
  destruct (newClientFromAlias E alias urlStrFull) as [clnt|e]; [|discriminate].
  unfold wbind, wret, wlift, wcall. cbn beta iota.
  destruct (Get clnt _) as [rd|e]; [|discriminate]. cbn beta iota.
  destruct (minioObject rd) as [[h|e]|].
  - repeat match goal with
      | |- context [if ?b then _ else _] => destruct b
      | |- context [match probeContentType ?E ?r with _ => _ end] =>
          destruct (probeContentType E r) as [? [?|]]
      end; intros [= _ <- _]; reflexivity.
  - discriminate.
  - destruct (Stat clnt false false _) as [st|e]; [|discriminate].
    repeat match goal with
      | |- context [if ?b then _ else _] => destruct b
      | |- context [match probeContentType ?E ?r with _ => _ end] =>
          destruct (probeContentType E r) as [? [?|]]
      end; intros [= _ <- _]; reflexivity.
Qed.

Lemma getSourceStreamFromURL_same_reader_witness :
  match getSourceStreamMetadataFromURL readableEnv "/file.txt" ∅ with
  | (_, Ok (reader, _)) =>
      exists alias urlStrFull sse,
        getSourceStreamFromURL readableEnv "/file.txt" ∅
        = ([CallGet alias urlStrFull sse], Ok reader)
  | (_, Fail _) => False
  end.
Proof.
  destruct (getSourceStreamMetadataFromURL readableEnv "/file.txt" ∅)
    as [calls [[reader metadata]|e]] eqn:H.
  - exact (getSourceStreamFromURL_same_reader readableEnv "/file.txt" ∅ calls reader
             metadata H).
  - vm_compute in H. discriminate.
Defined.
